(** * gtfsparser: the feed parser and its consistency checks

    A shallow embedding of [feed.go] (package gtfsparser): the parse
    orchestrator [Feed.Parse], its per-file stages and the two post-parse
    consistency checks [checkShapeMeasure] and [checkStopTimeMeasure].

    Go values are modelled as follows.
    - [int] indices and counters are [Z] (slice lengths stay far below 2^63,
      so no wrap-around occurs on them);
    - [float32] is [spec_float]; the comparison [a > b] is [SFltb b a], which
      is false as soon as one side is NaN, like the machine comparison;
    - a slice is a [list]; indexing outside [0, len) raises a runtime panic,
      which is an explicit outcome here;
    - [map[string]*T] is [gmap string (option T)], [None] being the nil
      pointer, where the code stores nil in the map, and [gmap string T]
      where it never does;
    - a function returning [error] returns [option error]. *)

From Stdlib Require Import ZArith Lia SpecFloat.
From stdpp Require Import base option list strings gmap fin_maps.

Open Scope Z_scope.

(** ** Go runtime: slices, panics *)

Abbreviation float32 := spec_float.

(** [a > b] on float32. *)
Definition gt (a b : float32) : bool := SFltb b a.

(** [float32(math.Inf(-1))] *)
Definition neg_inf : float32 := S754_infinity true.

(** The float32 constant [0]. *)
Definition zero : float32 := S754_zero false.

Definition is_nan (a : float32) : bool :=
  match a with S754_nan => true | _ => false end.

Inductive runtime_error :=
  | IndexOutOfRange (i : Z) (len : Z)
  | SliceBoundsOutOfRange (i : Z) (len : Z)
  | NilDereference.

(** [len(s)] *)
Definition len {A} (s : list A) : Z := Z.of_nat (length s).

(** [s[i]]: [None] stands for the index-out-of-range panic. *)
Definition index {A} (s : list A) (i : Z) : option A :=
  if (i <? 0) || (len s <=? i) then None else s !! Z.to_nat i.

(** [s[i:]]: [None] stands for the slice-bounds panic. *)
Definition slice_from {A} (s : list A) (i : Z) : option (list A) :=
  if (i <? 0) || (len s <? i) then None else Some (drop (Z.to_nat i) s).

(** [s[:n]] for [n] within the length. *)
Definition slice_to {A} (s : list A) (n : Z) : option (list A) :=
  if (n <? 0) || (len s <? n) then None else Some (take (Z.to_nat n) s).

(** [copy(dst, src)]: the new contents of [dst] and the number of elements
    copied, the minimum of the two lengths. *)
Definition copy {A} (dst src : list A) : list A * Z :=
  let n := Nat.min (length dst) (length src) in
  (take n src ++ drop n dst, Z.of_nat n).

(** [s = s[:i+copy(s[i:], s[i+1:])]]: the element at [i] is overwritten by
    its successors, which all move down by one, and the slice is cut by
    one.  [dst] aliases the tail of [s], so the copy is written back into
    [s] before the cut. *)
Definition remove_at {A} (s : list A) (i : Z) : option (list A) :=
  match slice_from s i, slice_from s (i + 1) with
  | Some dst, Some src =>
      let '(dst', n) := copy dst src in
      slice_to (take (Z.to_nat i) s ++ dst') (i + n)
  | _, _ => None
  end.

(** ** Options *)

Record ParseOptions := {
  UseDefValueOnError : bool;
  DropErroneous : bool;
  DryRun : bool
}.

(** ** Entities the checks work on *)

(** Modelled from the spec: gtfs.ShapePoint is not under src.  A shape point
    carries coordinates, a sequence number, a distance travelled and the
    flag telling whether that distance was declared;
    [HasDistanceTraveled] reads that flag. *)
Module ShapePoint.
Record t := {
  Lat : float32;
  Lon : float32;
  Sequence : Z;
  Dist_traveled : float32;
  Has_dist : bool
}.
Definition HasDistanceTraveled (p : t) : bool := Has_dist p.

(** [p.Dist_traveled = 0; p.Has_dist = false] *)
Definition clear_dist (p : t) : t :=
  {| Lat := Lat p; Lon := Lon p; Sequence := Sequence p;
     Dist_traveled := zero; Has_dist := false |}.
End ShapePoint.

Module Shape.
Record t := {
  Id : string;
  Points : list ShapePoint.t
}.
Definition with_Points (s : t) (ps : list ShapePoint.t) : t :=
  {| Id := Id s; Points := ps |}.
End Shape.

(** gtfs.Time is not under src: the checks only call [Empty] and
    [SecondsSinceMidnight] on it, which are taken as an interface. *)
Class TimeOps (Time : Type) := {
  Empty : Time -> bool;
  SecondsSinceMidnight : Time -> Z
}.

(** Modelled from the spec: gtfs.StopTime is not under src.  A stop-time
    carries a stop reference (by id), arrival and departure times, a sequence
    number and an optional distance travelled. *)
Module StopTime.
Section WithTime.
Context {Time : Type}.
Record t := {
  Stop : string;
  Arrival_time : Time;
  Departure_time : Time;
  Sequence : Z;
  Shape_dist_traveled : float32;
  Has_dist : bool
}.
Definition HasDistanceTraveled (s : t) : bool := Has_dist s.

(** [s.Shape_dist_traveled = 0; s.Has_dist = false] *)
Definition clear_dist (s : t) : t :=
  {| Stop := Stop s; Arrival_time := Arrival_time s;
     Departure_time := Departure_time s; Sequence := Sequence s;
     Shape_dist_traveled := zero; Has_dist := false |}.
End WithTime.
Arguments t : clear implicits.
End StopTime.

(** ** Errors *)

(** The checks build their messages with [fmt.Sprintf]; the message is kept
    as the tuple of the formatted arguments, in the order of the format
    string. *)
Inductive check_error :=
  (* "In shape '%s' for point with seq=%d shape_dist_traveled doeas not
     increase along with stop_sequence (%f > %f)" *)
  | ShapeDistNotIncreasing (shape_id : string) (seq : Z) (max d : float32)
  (* "In trip '%s' for stoptime with seq=%d the arrival time is before the
     departure in the previous station." *)
  | ArrivalBeforeDeparture (trip_id : string) (seq : Z)
  (* "In trip '%s' for stoptime with seq=%d shape_dist_traveled doeas not
     increase along with stop_sequence (%f > %f)" *)
  | StopTimeDistNotIncreasing (trip_id : string) (seq : Z) (max d : float32).

(** The id a check error names (its first [%s]). *)
Definition named_id (e : check_error) : string :=
  match e with
  | ShapeDistNotIncreasing id _ _ _ => id
  | ArrivalBeforeDeparture id _ => id
  | StopTimeDistNotIncreasing id _ _ _ => id
  end.

(** How a call ends: it returns its [error] result (nil is [None]) or it
    panics. *)
Inductive outcome (E : Type) :=
  | Returns (e : option E)
  | Panics (p : runtime_error).
Arguments Returns {E} e.
Arguments Panics {E} p.

(** ** The loops of the checks

    Both checks are the loop [for j := 1; j < len(s); j++ { body }] over the
    local variables [deleted] and [max] and the slice [s], whose length is
    read again before every iteration.  One run of the body either falls
    through to [j++], or leaves the function. *)

Record vars (A : Type) := Vars {
  deleted : Z;
  max : float32;
  elems : list A
}.
Arguments Vars {A} _ _ _.
Arguments deleted {A} _.
Arguments max {A} _.
Arguments elems {A} _.

Inductive step (A : Type) :=
  | Next (v : vars A)
  | Leave (s : list A) (o : outcome check_error).
Arguments Next {A} v.
Arguments Leave {A} s o.

(** The driver: [fuel] bounds the number of loop tests; [None] means the
    fuel ran out before the loop ended. *)
Fixpoint for_loop {A} (body : Z -> vars A -> step A)
    (fuel : nat) (j : Z) (v : vars A) : option (list A * outcome check_error) :=
  match fuel with
  | O => None
  | S fuel' =>
      if j <? len (elems v) then
        match body j v with
        | Next v' => for_loop body fuel' (j + 1) v'
        | Leave s o => Some (s, o)
        end
      else Some (elems v, Returns None)
  end.

(** *** checkShapeMeasure *)

Definition shape_body (id : string) (opt : ParseOptions)
    (j : Z) (v : vars ShapePoint.t) : step ShapePoint.t :=
  let pts := elems v in
  let i := j - deleted v in
  match index pts (i - 1) with
  | None => Leave pts (Panics (IndexOutOfRange (i - 1) (len pts)))
  | Some prev =>
      let max :=
        if ShapePoint.HasDistanceTraveled prev
        then ShapePoint.Dist_traveled prev else max v in
      match index pts i with
      | None => Leave pts (Panics (IndexOutOfRange i (len pts)))
      | Some cur =>
          if ShapePoint.HasDistanceTraveled cur
             && gt max (ShapePoint.Dist_traveled cur)
          then
            if UseDefValueOnError opt then
              Next (Vars (deleted v) max
                         (<[Z.to_nat i := ShapePoint.clear_dist cur]> pts))
            else if DropErroneous opt then
              match remove_at pts i with
              | Some pts' => Next (Vars (deleted v + 1) max pts')
              | None =>
                  Leave pts (Panics (SliceBoundsOutOfRange (i + 1) (len pts)))
              end
            else
              Leave pts (Returns (Some
                (ShapeDistNotIncreasing id (ShapePoint.Sequence cur) max
                   (ShapePoint.Dist_traveled cur))))
          else Next (Vars (deleted v) max pts)
      end
  end.

(** The check on a shape: the shape as the call leaves it (its point slice
    is updated in place) and how the call ends. *)
Definition checkShapeMeasure (shape : Shape.t) (opt : ParseOptions)
    : option (Shape.t * outcome check_error) :=
  match for_loop (shape_body (Shape.Id shape) opt)
          (S (length (Shape.Points shape))) 1
          (Vars 0 neg_inf (Shape.Points shape)) with
  | Some (pts, o) => Some (Shape.with_Points shape pts, o)
  | None => None
  end.

(** *** checkStopTimeMeasure *)

(** gtfs.Trip, as declared in the source.  The pointers to the route, the
    service and the shape are kept as the id of the entity they point to
    ([None] is nil); gtfs.Frequency is not under src and stays abstract. *)
Module Trip.
Section WithTime.
Context {Time Frequency : Type}.
Record t := {
  Id : string;
  Route : option string;
  Service : option string;
  Headsign : string;
  Short_name : string;
  Direction_id : Z;
  Block_id : string;
  Shape : option string;
  Wheelchair_accessible : Z;
  Bikes_allowed : Z;
  StopTimes : list (StopTime.t Time);
  Frequencies : list Frequency
}.
Definition with_Frequencies (x : t) (fs : list Frequency) : t :=
  {| Id := Id x; Route := Route x; Service := Service x;
     Headsign := Headsign x; Short_name := Short_name x;
     Direction_id := Direction_id x; Block_id := Block_id x;
     Shape := Shape x; Wheelchair_accessible := Wheelchair_accessible x;
     Bikes_allowed := Bikes_allowed x; StopTimes := StopTimes x;
     Frequencies := fs |}.
Definition with_StopTimes (x : t) (sts : list (StopTime.t Time)) : t :=
  {| Id := Id x; Route := Route x; Service := Service x;
     Headsign := Headsign x; Short_name := Short_name x;
     Direction_id := Direction_id x; Block_id := Block_id x;
     Shape := Shape x; Wheelchair_accessible := Wheelchair_accessible x;
     Bikes_allowed := Bikes_allowed x; StopTimes := sts;
     Frequencies := Frequencies x |}.
End WithTime.
Arguments t : clear implicits.
End Trip.

Section StopTimeCheck.
Context {Time : Type} `{!TimeOps Time}.

(** The ordering violation the temporal check looks for in a pair of
    stop-times: both the departure of the previous one and the arrival of
    the current one are present, and the departure is later. *)
Definition time_violation (prev cur : StopTime.t Time) : bool :=
  negb (Empty (StopTime.Departure_time prev))
  && negb (Empty (StopTime.Arrival_time cur))
  && (SecondsSinceMidnight (StopTime.Arrival_time cur)
      <? SecondsSinceMidnight (StopTime.Departure_time prev)).

(** The condition of the first [if] of the body, with the short-circuit
    evaluation of [&&]: [None] is the index-out-of-range panic of
    [s[i-1]] or [s[i]]. *)
Definition arrival_before_departure
    (sts : list (StopTime.t Time)) (i : Z) : option bool :=
  match index sts (i - 1) with
  | None => None
  | Some prev =>
      if negb (Empty (StopTime.Departure_time prev)) then
        match index sts i with
        | None => None
        | Some cur =>
            Some (negb (Empty (StopTime.Arrival_time cur))
                  && (SecondsSinceMidnight (StopTime.Arrival_time cur)
                      <? SecondsSinceMidnight (StopTime.Departure_time prev)))
        end
      else Some false
  end.

(** The first [if] of the body: the temporal check.  It yields the
    variables [deleted] and the slice after it, or leaves. *)
Definition time_part (id : string) (opt : ParseOptions) (i : Z)
    (v : vars (StopTime.t Time)) : step (StopTime.t Time) :=
  let sts := elems v in
  match arrival_before_departure sts i with
  | None =>
      Leave sts (Panics
        (match index sts (i - 1) with
         | None => IndexOutOfRange (i - 1) (len sts)
         | Some _ => IndexOutOfRange i (len sts)
         end))
  | Some true =>
      if DropErroneous opt then
        match remove_at sts i with
        | Some sts' => Next (Vars (deleted v + 1) (max v) sts')
        | None =>
            Leave sts (Panics (SliceBoundsOutOfRange (i + 1) (len sts)))
        end
      else
        match index sts i with
        | Some cur =>
            Leave sts (Returns (Some
              (ArrivalBeforeDeparture id (StopTime.Sequence cur))))
        | None => Leave sts (Panics (IndexOutOfRange i (len sts)))
        end
  | Some false => Next v
  end.

(** The rest of the body: the distance check, at the same [i]. *)
Definition dist_part (id : string) (opt : ParseOptions) (i : Z)
    (v : vars (StopTime.t Time)) : step (StopTime.t Time) :=
  let sts := elems v in
  match index sts (i - 1) with
  | None => Leave sts (Panics (IndexOutOfRange (i - 1) (len sts)))
  | Some prev =>
      let max :=
        if StopTime.HasDistanceTraveled prev
        then StopTime.Shape_dist_traveled prev else max v in
      match index sts i with
      | None => Leave sts (Panics (IndexOutOfRange i (len sts)))
      | Some cur =>
          if StopTime.HasDistanceTraveled cur
             && gt max (StopTime.Shape_dist_traveled cur)
          then
            if UseDefValueOnError opt then
              Next (Vars (deleted v) max
                         (<[Z.to_nat i := StopTime.clear_dist cur]> sts))
            else if DropErroneous opt then
              match remove_at sts i with
              | Some sts' => Next (Vars (deleted v + 1) max sts')
              | None =>
                  Leave sts
                    (Panics (SliceBoundsOutOfRange (i + 1) (len sts)))
              end
            else
              Leave sts (Returns (Some
                (StopTimeDistNotIncreasing id (StopTime.Sequence cur) max
                   (StopTime.Shape_dist_traveled cur))))
          else Next (Vars (deleted v) max sts)
      end
  end.

Definition stoptime_body (id : string) (opt : ParseOptions)
    (j : Z) (v : vars (StopTime.t Time)) : step (StopTime.t Time) :=
  let i := j - deleted v in
  match time_part id opt i v with
  | Next v' => dist_part id opt i v'
  | Leave s o => Leave s o
  end.

(** The check on a trip: the trip as the call leaves it (its stop-time
    slice is updated in place) and how the call ends. *)
Definition checkStopTimeMeasure {Frequency : Type}
    (trip : Trip.t Time Frequency) (opt : ParseOptions)
    : option (Trip.t Time Frequency * outcome check_error) :=
  match for_loop (stoptime_body (Trip.Id trip) opt)
          (S (length (Trip.StopTimes trip))) 1
          (Vars 0 neg_inf (Trip.StopTimes trip)) with
  | Some (sts, o) => Some (Trip.with_StopTimes trip sts, o)
  | None => None
  end.
End StopTimeCheck.

(** ** The feed and what the stages are given *)

(** Modelled from the spec: gtfs.Stop is not under src.  A stop has an id,
    coordinates and an optional parent station.  The parent pointer is kept
    as the key under which the stop it points to is stored in [Stops]
    ([None] is nil): every stop is stored under its own id and the pointer is
    only ever obtained by a lookup in that map. *)
Module Stop.
Record t := {
  Id : string;
  Lat : float32;
  Lon : float32;
  Parent_station : option string
}.
Definition with_Parent_station (s : t) (p : option string) : t :=
  {| Id := Id s; Lat := Lat s; Lon := Lon s; Parent_station := p |}.
End Stop.

(** The entity kinds whose declarations are not under src stay abstract;
    of each, the stages only read the id it is stored under. *)
Class Entities := {
  Time : Type;
  Time_ops :: TimeOps Time;
  Date : Type;
  Agency : Type;
  Agency_Id : Agency -> string;
  Route : Type;
  Route_Id : Route -> string;
  Service : Type;
  Service_Id : Service -> string;
  FareAttribute : Type;
  FareAttribute_Id : FareAttribute -> string;
  Transfer : Type;
  Frequency : Type
}.

(** gtfs.FeedInfo, as declared in the source ([*url.URL] is kept as an
    optional string). *)
Module FeedInfo.
Section WithDate.
Context {Date : Type}.
Record t := {
  Publisher_name : string;
  Publisher_url : option string;
  Lang : string;
  Start_date : Date;
  End_date : Date;
  Phone : string;
  Version : string
}.
End WithDate.
Arguments t : clear implicits.
End FeedInfo.

(** A row of a file, as a header-keyed field map. *)
Abbreviation record := (gmap string string).

(** What a materializer hands back: the entity, or the error [e]. *)
Inductive result (A : Type) :=
  | Ok (a : A)
  | Err (msg : string).
Arguments Ok {A} a.
Arguments Err {A} msg.

(** What a service materializer hands back: the error, a new service, or nil
    after it has updated the service stored under [id] through its
    pointer. *)
Inductive created (A : Type) :=
  | Invalid (msg : string)
  | New (a : A)
  | InPlace (id : string) (f : A -> A).
Arguments Invalid {A} msg.
Arguments New {A} a.
Arguments InPlace {A} id f.

(** An update through the pointer stored under [id]: a missing key and a
    nil pointer are left as they are. *)
Definition update_at {A} (id : string) (f : A -> A)
    (m : gmap string (option A)) : gmap string (option A) :=
  alter (fmap f) id m.

(** ** Go runtime: iteration over a map

    [for k, v := range m] visits every entry once, in an order the language
    leaves open: an order is any enumeration of the entries. *)
Class MapOrder := {
  range : forall {A : Type}, gmap string A -> list (string * A);
  range_perm : forall (A : Type) (m : gmap string A), range m ≡ₚ map_to_list m
}.

(** ** Record source and record reader *)

(** Modelled from the spec: the record reader ([NewCsvParser],
    [ParseRecord], [Curline]) is not under src.  It produces the next record
    or the end of input and signals malformed input by raising a fatal
    condition; its line counter is 1-based and counts the header as line 1.
    A file is kept as the lines after the header, as the reader delivers
    them. *)
Inductive csv_line :=
  | Row (r : gmap string string)
  | Malformed (msg : string).

Abbreviation file := (list csv_line).

(** What lies at the path handed to [Parse]. *)
Inductive location :=
  | NoSuchPath                                (* os.Stat fails *)
  | Directory (files : gmap string file)
  | Archive (entries : list (string * file))
  | UnreadableArchive.                        (* zip.OpenReader fails *)

(** [getFile]: the named file, or [None] for any of its errors (the callers
    only test the error against nil).  In an archive the first entry of that
    name is opened. *)
Definition getFile (path : location) (name : string) : option file :=
  match path with
  | NoSuchPath => None
  | Directory files => files !! name
  | Archive entries =>
      snd <$> List.find (fun f => bool_decide (fst f = name)) entries
  | UnreadableArchive => None
  end.

(** The errors [Parse] returns. *)
Inductive error :=
  | ErrorString (msg : string)                       (* errors.New(msg) *)
  | ParseError (file : string) (line : Z) (msg : string)
  | CheckFailed (e : check_error).  (* errors.New(fmt.Sprintf(...)) of a check *)

(** The message of the runtime error raised by a nil dereference. *)
Definition nil_dereference : string :=
  "runtime error: invalid memory address or nil pointer dereference".

(** One run of the body of a reading loop: on to the next record, or a
    panic with the error's message. *)
Inductive flow (S : Type) :=
  | Continue (s : S)
  | Panic (s : S) (msg : string).
Arguments Continue {S} s.
Arguments Panic {S} s msg.

(** [for record = reader.ParseRecord(); record != nil; record =
    reader.ParseRecord() { body }] from line [curline] on: the line counter
    and the state when the loop is left, and the message of the panic that
    ended it, if any. *)
Fixpoint records {S} (body : gmap string string -> S -> flow S)
    (pending : file) (curline : Z) (s : S) : Z * S * option string :=
  match pending with
  | [] => (curline, s, None)
  | Malformed msg :: _ => (curline + 1, s, Some msg)
  | Row r :: rest =>
      match body r s with
      | Continue s' => records body rest (curline + 1) s'
      | Panic s' msg => (curline + 1, s', Some msg)
      end
  end.

(** The deferred function of a stage: a panic becomes the stage's
    [ParseError]; without one the stage returns [e], which is nil. *)
Definition recovered (name : string) (curline : Z) (r : option string)
    : option error :=
  match r with
  | Some msg => Some (ParseError name curline msg)
  | None => None
  end.

(** Modelled from the spec: [sort.Sort] orders the points of a shape and the
    stop-times of a trip by sequence number; the [Less] it uses is not
    under src. *)
Fixpoint insert_by {A} (key : A -> Z) (x : A) (l : list A) : list A :=
  match l with
  | [] => [x]
  | y :: l' => if key x <? key y then x :: l else y :: insert_by key x l'
  end.

Definition sort_by {A} (key : A -> Z) (l : list A) : list A :=
  foldr (insert_by key) [] l.

(** Every slot of a table of pointers holds nil: the entries are there as
    cleared placeholders. *)
Definition all_nil {A : Type} (m : gmap string (option A)) : Prop :=
  forall k v, m !! k = Some v -> v = None.

(** Every trip of the table is stored under its own id. *)
Definition keyed {Time Frequency : Type}
    (m : gmap string (option (Trip.t Time Frequency))) : Prop :=
  forall k v, m !! k = Some v -> v = None \/ exists t, v = Some t /\ Trip.Id t = k.

(** Two settings of the options that differ at most in [DryRun]. *)
Definition same_but_dry (o o' : ParseOptions) : Prop :=
  UseDefValueOnError o = UseDefValueOnError o' /\
  DropErroneous o = DropErroneous o'.

(** Every parent reference of a stop table leads to a stop of the table. *)
Definition parents_ok (stops : gmap string Stop.t) : Prop :=
  forall id s pid,
    stops !! id = Some s -> Stop.Parent_station s = Some pid ->
    is_Some (stops !! pid).

Section Pipeline.
Context `{Ent : Entities}.

Abbreviation trip := (Trip.t Time Frequency).
Abbreviation stop_time := (StopTime.t Time).
Abbreviation feed_info := (FeedInfo.t Date).

(** The materializers ([createAgency] and the like) are not under src and
    are taken as given.  Those that only return an error act on an entity
    that is already stored: [createStopTime] and [createFrequency] name the
    trip and the element they append to it, [createFareRule] the fare
    attribute it updates, and [createShapePoint] hands back the shape table
    as it leaves it. *)
Class Materializers := {
  createAgency : record -> ParseOptions -> result Agency;
  createStop : record -> ParseOptions -> result Stop.t;
  createRoute :
    record -> gmap string Agency -> ParseOptions -> result Route;
  createServiceFromCalendar :
    record -> gmap string (option Service) -> ParseOptions ->
    created Service;
  createServiceFromCalendarDates :
    record -> gmap string (option Service) -> created Service;
  createTrip :
    record -> gmap string (option Route) -> gmap string (option Service) ->
    gmap string (option Shape.t) -> ParseOptions -> result trip;
  createShapePoint :
    record -> gmap string (option Shape.t) -> ParseOptions ->
    gmap string (option Shape.t) * option string;
  createStopTime :
    record -> gmap string Stop.t -> gmap string (option trip) ->
    ParseOptions -> result (string * stop_time);
  createFrequency :
    record -> gmap string (option trip) -> ParseOptions ->
    result (string * Frequency);
  createFareAttribute : record -> ParseOptions -> result FareAttribute;
  createFareRule :
    record -> gmap string FareAttribute -> gmap string (option Route) ->
    result (string * (FareAttribute -> FareAttribute));
  createTransfer :
    record -> gmap string Stop.t -> ParseOptions -> result Transfer;
  createFeedInfo : record -> ParseOptions -> result feed_info
}.

Record Feed := {
  Agencies : gmap string Agency;
  Stops : gmap string Stop.t;
  Routes : gmap string (option Route);
  Trips : gmap string (option trip);
  Services : gmap string (option Service);
  FareAttributes : gmap string FareAttribute;
  Shapes : gmap string (option Shape.t);
  Transfers : list Transfer;
  FeedInfos : list feed_info;
  opts : ParseOptions
}.

(** Create a new, empty feed *)
Definition NewFeed : Feed :=
  {| Agencies := ∅; Stops := ∅; Routes := ∅; Trips := ∅; Services := ∅;
     FareAttributes := ∅; Shapes := ∅; Transfers := []; FeedInfos := [];
     opts := {| UseDefValueOnError := false; DropErroneous := false;
                DryRun := false |} |}.

Definition SetParseOpts (feed : Feed) (o : ParseOptions) : Feed :=
  {| Agencies := Agencies feed; Stops := Stops feed; Routes := Routes feed;
     Trips := Trips feed; Services := Services feed;
     FareAttributes := FareAttributes feed; Shapes := Shapes feed;
     Transfers := Transfers feed; FeedInfos := FeedInfos feed; opts := o |}.

Definition set_Agencies (feed : Feed) x : Feed :=
  {| Agencies := x; Stops := Stops feed; Routes := Routes feed;
     Trips := Trips feed; Services := Services feed;
     FareAttributes := FareAttributes feed; Shapes := Shapes feed;
     Transfers := Transfers feed; FeedInfos := FeedInfos feed;
     opts := opts feed |}.
Definition set_Stops (feed : Feed) x : Feed :=
  {| Agencies := Agencies feed; Stops := x; Routes := Routes feed;
     Trips := Trips feed; Services := Services feed;
     FareAttributes := FareAttributes feed; Shapes := Shapes feed;
     Transfers := Transfers feed; FeedInfos := FeedInfos feed;
     opts := opts feed |}.
Definition set_Routes (feed : Feed) x : Feed :=
  {| Agencies := Agencies feed; Stops := Stops feed; Routes := x;
     Trips := Trips feed; Services := Services feed;
     FareAttributes := FareAttributes feed; Shapes := Shapes feed;
     Transfers := Transfers feed; FeedInfos := FeedInfos feed;
     opts := opts feed |}.
Definition set_Trips (feed : Feed) x : Feed :=
  {| Agencies := Agencies feed; Stops := Stops feed; Routes := Routes feed;
     Trips := x; Services := Services feed;
     FareAttributes := FareAttributes feed; Shapes := Shapes feed;
     Transfers := Transfers feed; FeedInfos := FeedInfos feed;
     opts := opts feed |}.
Definition set_Services (feed : Feed) x : Feed :=
  {| Agencies := Agencies feed; Stops := Stops feed; Routes := Routes feed;
     Trips := Trips feed; Services := x;
     FareAttributes := FareAttributes feed; Shapes := Shapes feed;
     Transfers := Transfers feed; FeedInfos := FeedInfos feed;
     opts := opts feed |}.
Definition set_FareAttributes (feed : Feed) x : Feed :=
  {| Agencies := Agencies feed; Stops := Stops feed; Routes := Routes feed;
     Trips := Trips feed; Services := Services feed;
     FareAttributes := x; Shapes := Shapes feed;
     Transfers := Transfers feed; FeedInfos := FeedInfos feed;
     opts := opts feed |}.
Definition set_Shapes (feed : Feed) x : Feed :=
  {| Agencies := Agencies feed; Stops := Stops feed; Routes := Routes feed;
     Trips := Trips feed; Services := Services feed;
     FareAttributes := FareAttributes feed; Shapes := x;
     Transfers := Transfers feed; FeedInfos := FeedInfos feed;
     opts := opts feed |}.
Definition set_Transfers (feed : Feed) x : Feed :=
  {| Agencies := Agencies feed; Stops := Stops feed; Routes := Routes feed;
     Trips := Trips feed; Services := Services feed;
     FareAttributes := FareAttributes feed; Shapes := Shapes feed;
     Transfers := x; FeedInfos := FeedInfos feed; opts := opts feed |}.
Definition set_FeedInfos (feed : Feed) x : Feed :=
  {| Agencies := Agencies feed; Stops := Stops feed; Routes := Routes feed;
     Trips := Trips feed; Services := Services feed;
     FareAttributes := FareAttributes feed; Shapes := Shapes feed;
     Transfers := Transfers feed; FeedInfos := x; opts := opts feed |}.

Context `{Mat : !Materializers} `{Ord : !MapOrder}.

(** ** The stages *)

Definition parseAgencies (path : location) (feed : Feed)
    : Feed * option error :=
  match getFile path "agency.txt" with
  | None =>
      (feed, Some (ErrorString "Could not open required file agency.txt"))
  | Some file =>
      let '(curline, feed, r) :=
        records (fun record feed =>
          match createAgency record (opts feed) with
          | Err e =>
              if DropErroneous (opts feed) then Continue feed
              else Panic feed e
          | Ok agency =>
              Continue (set_Agencies feed
                          (<[Agency_Id agency := agency]> (Agencies feed)))
          end) file 1 feed in
      (feed, recovered "agency.txt" curline r)
  end.

(** [feed.Stops[id].Parent_station = pstop] *)
Definition assign_parent (id : string) (pstop : option string)
    (feed : Feed) : flow Feed :=
  match Stops feed !! id with
  | None => Panic feed nil_dereference
  | Some s =>
      Continue (set_Stops feed
                  (<[id := Stop.with_Parent_station s pstop]> (Stops feed)))
  end.

Definition no_parent_station (id pid : string) : string :=
  "(for stop id " +:+ id +:+ ") No station with id " +:+ pid
    +:+ " found, cannot use as parent station here.".

(** The second loop of [parseStops]: write the parent stop ids. *)
Fixpoint link_parents (todo : list (string * string)) (feed : Feed)
    : Feed * option string :=
  match todo with
  | [] => (feed, None)
  | (id, pid) :: rest =>
      let linked (pstop : option string) (feed : Feed) :=
        match assign_parent id pstop feed with
        | Continue feed' => link_parents rest feed'
        | Panic feed' msg => (feed', Some msg)
        end in
      match Stops feed !! pid with
      | None =>
          if UseDefValueOnError (opts feed) then
            (* continue, the default value "nil" has already be written *)
            link_parents rest feed
          else if DropErroneous (opts feed) then
            (* delete the erroneous entry *)
            linked None (set_Stops feed (delete id (Stops feed)))
          else (feed, Some (no_parent_station id pid))
      | Some _ => linked (Some pid) feed
      end
  end.

(** The first loop of [parseStops]: the stops are stored, and the parent
    ids they name are kept for the second loop. *)
Definition read_stops (file : file) (feed : Feed)
    : Z * (Feed * gmap string string) * option string :=
  records (fun record '(feed, parentStopIds) =>
    match createStop record (opts feed) with
    | Err e =>
        if DropErroneous (opts feed)
        then Continue (feed, parentStopIds)
        else Panic (feed, parentStopIds) e
    | Ok stop =>
        let parentStopIds :=
          match record !! "parent_station" with
          | Some v =>
              if 0 <? Z.of_nat (String.length v)
              then <[Stop.Id stop := v]> parentStopIds
              else parentStopIds
          | None => parentStopIds
          end in
        Continue (set_Stops feed (<[Stop.Id stop := stop]> (Stops feed)),
                  parentStopIds)
    end) file 1 (feed, (∅ : gmap string string)).

Definition parseStops (path : location) (feed : Feed)
    : Feed * option error :=
  match getFile path "stops.txt" with
  | None =>
      (feed, Some (ErrorString "Could not open required file stops.txt"))
  | Some file =>
      let '(curline, (feed, parentStopIds), r) := read_stops file feed in
      match r with
      | Some msg => (feed, recovered "stops.txt" curline r)
      | None =>
          let '(feed, r) := link_parents (range parentStopIds) feed in
          (feed, recovered "stops.txt" curline r)
      end
  end.

Definition parseRoutes (path : location) (feed : Feed)
    : Feed * option error :=
  match getFile path "routes.txt" with
  | None =>
      (feed, Some (ErrorString "Could not open required file routes.txt"))
  | Some file =>
      let '(curline, feed, r) :=
        records (fun record feed =>
          match createRoute record (Agencies feed) (opts feed) with
          | Err e =>
              if DropErroneous (opts feed) then Continue feed
              else Panic feed e
          | Ok route =>
              if DryRun (opts feed) then
                Continue (set_Routes feed
                            (<[Route_Id route := None]> (Routes feed)))
              else
                Continue (set_Routes feed
                            (<[Route_Id route := Some route]> (Routes feed)))
          end) file 1 feed in
      (feed, recovered "routes.txt" curline r)
  end.

(** The body shared by [parseCalendar] and [parseCalendarDates] once the
    service has been created. *)
Definition store_service (c : created Service) (feed : Feed) : flow Feed :=
  match c with
  | Invalid e =>
      if DropErroneous (opts feed) then Continue feed else Panic feed e
  | New service =>
      if DryRun (opts feed) then
        Continue (set_Services feed
                    (<[Service_Id service := None]> (Services feed)))
      else
        Continue (set_Services feed
                    (<[Service_Id service := Some service]> (Services feed)))
  | InPlace id f =>
      (* if service was parsed in-place, nil was returned *)
      Continue (set_Services feed (update_at id f (Services feed)))
  end.

Definition parseCalendar (path : location) (feed : Feed)
    : Feed * option error :=
  match getFile path "calendar.txt" with
  | None => (feed, None)
  | Some file =>
      let '(curline, feed, r) :=
        records (fun record feed =>
          store_service
            (createServiceFromCalendar record (Services feed) (opts feed))
            feed) file 1 feed in
      (feed, recovered "calendar.txt" curline r)
  end.

Definition parseCalendarDates (path : location) (feed : Feed)
    : Feed * option error :=
  match getFile path "calendar_dates.txt" with
  | None => (feed, None)
  | Some file =>
      let '(curline, feed, r) :=
        records (fun record feed =>
          store_service
            (createServiceFromCalendarDates record (Services feed)) feed)
          file 1 feed in
      (feed, recovered "calendar_dates.txt" curline r)
  end.

Definition parseTrips (path : location) (feed : Feed)
    : Feed * option error :=
  match getFile path "trips.txt" with
  | None =>
      (feed, Some (ErrorString "Could not open required file trips.txt"))
  | Some file =>
      let '(curline, feed, r) :=
        records (fun record feed =>
          match createTrip record (Routes feed) (Services feed)
                  (Shapes feed) (opts feed) with
          | Err e =>
              if DropErroneous (opts feed) then Continue feed
              else Panic feed e
          | Ok trip =>
              Continue (set_Trips feed
                          (<[Trip.Id trip := Some trip]> (Trips feed)))
          end) file 1 feed in
      (feed, recovered "trips.txt" curline r)
  end.

Definition parseShapes (path : location) (feed : Feed)
    : Feed * option error :=
  match getFile path "shapes.txt" with
  | None => (feed, None)
  | Some file =>
      let '(curline, feed, r) :=
        records (fun record feed =>
          let '(shapes, e) :=
            createShapePoint record (Shapes feed) (opts feed) in
          let feed := set_Shapes feed shapes in
          match e with
          | Some e =>
              if DropErroneous (opts feed) then Continue feed
              else Panic feed e
          | None => Continue feed
          end) file 1 feed in
      (feed, recovered "shapes.txt" curline r)
  end.

Definition parseStopTimes (path : location) (feed : Feed)
    : Feed * option error :=
  match getFile path "stop_times.txt" with
  | None =>
      (feed,
       Some (ErrorString "Could not open required file stop_times.txt"))
  | Some file =>
      let '(curline, feed, r) :=
        records (fun record feed =>
          match createStopTime record (Stops feed) (Trips feed)
                  (opts feed) with
          | Err e =>
              if DropErroneous (opts feed) then Continue feed
              else Panic feed e
          | Ok (id, st) =>
              Continue (set_Trips feed
                (update_at id
                   (fun t => Trip.with_StopTimes t (Trip.StopTimes t ++ [st]))
                   (Trips feed)))
          end) file 1 feed in
      (feed, recovered "stop_times.txt" curline r)
  end.

Definition parseFrequencies (path : location) (feed : Feed)
    : Feed * option error :=
  match getFile path "frequencies.txt" with
  | None => (feed, None)
  | Some file =>
      let '(curline, feed, r) :=
        records (fun record feed =>
          match createFrequency record (Trips feed) (opts feed) with
          | Err e =>
              if DropErroneous (opts feed) then Continue feed
              else Panic feed e
          | Ok (id, fr) =>
              Continue (set_Trips feed
                (update_at id
                   (fun t =>
                      Trip.with_Frequencies t (Trip.Frequencies t ++ [fr]))
                   (Trips feed)))
          end) file 1 feed in
      (feed, recovered "frequencies.txt" curline r)
  end.

Definition parseFareAttributes (path : location) (feed : Feed)
    : Feed * option error :=
  match getFile path "fare_attributes.txt" with
  | None => (feed, None)
  | Some file =>
      let '(curline, feed, r) :=
        records (fun record feed =>
          match createFareAttribute record (opts feed) with
          | Err e =>
              if DropErroneous (opts feed) then Continue feed
              else Panic feed e
          | Ok fa =>
              Continue (set_FareAttributes feed
                          (<[FareAttribute_Id fa := fa]>
                             (FareAttributes feed)))
          end) file 1 feed in
      (feed, recovered "fare_attributes.txt" curline r)
  end.

Definition parseFareAttributeRules (path : location) (feed : Feed)
    : Feed * option error :=
  match getFile path "fare_rules.txt" with
  | None => (feed, None)
  | Some file =>
      let '(curline, feed, r) :=
        records (fun record feed =>
          match createFareRule record (FareAttributes feed)
                  (Routes feed) with
          | Err e =>
              if DropErroneous (opts feed) then Continue feed
              else Panic feed e
          | Ok (id, f) =>
              Continue (set_FareAttributes feed
                          (alter f id (FareAttributes feed)))
          end) file 1 feed in
      (feed, recovered "fare_rules.txt" curline r)
  end.

Definition parseTransfers (path : location) (feed : Feed)
    : Feed * option error :=
  match getFile path "transfers.txt" with
  | None => (feed, None)
  | Some file =>
      let '(curline, feed, r) :=
        records (fun record feed =>
          match createTransfer record (Stops feed) (opts feed) with
          | Err e =>
              if DropErroneous (opts feed) then Continue feed
              else Panic feed e
          | Ok t =>
              if negb (DryRun (opts feed)) then
                Continue (set_Transfers feed (Transfers feed ++ [t]))
              else Continue feed
          end) file 1 feed in
      (feed, recovered "transfers.txt" curline r)
  end.

Definition parseFeedInfos (path : location) (feed : Feed)
    : Feed * option error :=
  match getFile path "feed_info.txt" with
  | None => (feed, None)
  | Some file =>
      let '(curline, feed, r) :=
        records (fun record feed =>
          match createFeedInfo record (opts feed) with
          | Err e =>
              if DropErroneous (opts feed) then Continue feed
              else Panic feed e
          | Ok fi =>
              if negb (DryRun (opts feed)) then
                Continue (set_FeedInfos feed (FeedInfos feed ++ [fi]))
              else Continue feed
          end) file 1 feed in
      (feed, recovered "feed_info.txt" curline r)
  end.

(** ** The orchestrator *)

(** The loop over [feed.Shapes] of [Parse], over the keys in the order of
    the iteration: sort the points of each shape and check it, up to the
    first error.  The shape is the one stored when its key is reached.
    [None] only when a check ran out of fuel. *)
Fixpoint check_shapes (todo : list string) (feed : Feed)
    : option (Feed * outcome error) :=
  match todo with
  | [] => Some (feed, Returns None)
  | id :: rest =>
      match Shapes feed !! id with
      | None => check_shapes rest feed
      | Some None => Some (feed, Panics NilDereference)
      | Some (Some shape) =>
          let shape :=
            Shape.with_Points shape
              (sort_by ShapePoint.Sequence (Shape.Points shape)) in
          match checkShapeMeasure shape (opts feed) with
          | None => None
          | Some (shape, o) =>
              let feed :=
                set_Shapes feed (<[id := Some shape]> (Shapes feed)) in
              match o with
              | Returns None => check_shapes rest feed
              | Returns (Some e) =>
                  Some (feed, Returns (Some (CheckFailed e)))
              | Panics p => Some (feed, Panics p)
              end
          end
      end
  end.

(** Lines 80-95 of [Parse]: the shape checks, then the clearing of the
    shape table under [DryRun]. *)
Definition checkShapes (feed : Feed) : option (Feed * outcome error) :=
  match check_shapes (fst <$> range (Shapes feed)) feed with
  | None => None
  | Some (feed, Panics p) => Some (feed, Panics p)
  | Some (feed, Returns e) =>
      if DryRun (opts feed) then
        (* clear space *)
        Some (set_Shapes feed ((fun _ => None) <$> Shapes feed), Returns e)
      else Some (feed, Returns e)
  end.

(** Lines 113-126 of [Parse]: sort the stop-times of each trip, check it
    and, under [DryRun], clear the slot of its id. *)
Fixpoint check_trips (todo : list string) (feed : Feed)
    : option (Feed * outcome error) :=
  match todo with
  | [] => Some (feed, Returns None)
  | id :: rest =>
      match Trips feed !! id with
      | None => check_trips rest feed
      | Some None => Some (feed, Panics NilDereference)
      | Some (Some trip) =>
          let trip :=
            Trip.with_StopTimes trip
              (sort_by StopTime.Sequence (Trip.StopTimes trip)) in
          match checkStopTimeMeasure trip (opts feed) with
          | None => None
          | Some (trip, o) =>
              let feed :=
                set_Trips feed (<[id := Some trip]> (Trips feed)) in
              match o with
              | Returns None =>
                  if DryRun (opts feed) then
                    check_trips rest
                      (set_Trips feed
                         (<[Trip.Id trip := None]> (Trips feed)))
                  else check_trips rest feed
              | Returns (Some e) =>
                  Some (feed, Returns (Some (CheckFailed e)))
              | Panics p => Some (feed, Panics p)
              end
          end
      end
  end.

Definition checkStopTimes (feed : Feed) : option (Feed * outcome error) :=
  check_trips (fst <$> range (Trips feed)) feed.

(** The steps of [Parse], in the order of its text. *)
Inductive stage :=
  | StAgencies | StFeedInfos | StStops | StShapes | StShapeCheck
  | StRoutes | StCalendar | StCalendarDates | StTrips | StStopTimes
  | StStopTimeCheck | StFareAttributes | StFareRules | StFrequencies
  | StTransfers.

#[global] Instance stage_eq_dec : EqDecision stage.
Proof. solve_decision. Defined.

Definition stage_order : list stage :=
  [StAgencies; StFeedInfos; StStops; StShapes; StShapeCheck; StRoutes;
   StCalendar; StCalendarDates; StTrips; StStopTimes; StStopTimeCheck;
   StFareAttributes; StFareRules; StFrequencies; StTransfers].

(** A stage function never panics: its deferred function recovers. *)
Definition returns (r : Feed * option error)
    : option (Feed * outcome error) :=
  Some (fst r, Returns (snd r)).

Definition exec (s : stage) (path : location) (feed : Feed)
    : option (Feed * outcome error) :=
  match s with
  | StAgencies => returns (parseAgencies path feed)
  | StFeedInfos => returns (parseFeedInfos path feed)
  | StStops => returns (parseStops path feed)
  | StShapes => returns (parseShapes path feed)
  | StShapeCheck => checkShapes feed
  | StRoutes => returns (parseRoutes path feed)
  | StCalendar => returns (parseCalendar path feed)
  | StCalendarDates => returns (parseCalendarDates path feed)
  | StTrips => returns (parseTrips path feed)
  | StStopTimes => returns (parseStopTimes path feed)
  | StStopTimeCheck => checkStopTimes feed
  | StFareAttributes => returns (parseFareAttributes path feed)
  | StFareRules => returns (parseFareAttributeRules path feed)
  | StFrequencies => returns (parseFrequencies path feed)
  | StTransfers => returns (parseTransfers path feed)
  end.

(** The state of a run of [Parse]: the feed, the variable [e] (or the
    panic that unwinds the call) and, as a record of the run, the stages
    entered so far. *)
Record run := Run {
  feed_of : Feed;
  status : outcome error;
  entered : list stage
}.

(** [if e == nil { e = stage }] *)
Definition guarded (s : stage) (path : location) (r : run) : option run :=
  match status r with
  | Returns None =>
      match exec s path (feed_of r) with
      | Some (feed, o) => Some (Run feed o (entered r ++ [s]))
      | None => None
      end
  | _ => Some r
  end.

(** Parse the GTFS data in the specified folder into the feed.  The
    closing of the open readers at the end has no effect on the feed or on
    the error and is left out. *)
Definition Parse (path : location) (feed : Feed) : option run :=
  r ← guarded StAgencies path (Run feed (Returns None) []);
  r ← guarded StFeedInfos path r;
  r ← guarded StStops path r;
  r ← guarded StShapes path r;
  r ← guarded StShapeCheck path r;
  r ← guarded StRoutes path r;
  r ← guarded StCalendar path r;
  r ← guarded StCalendarDates path r;
  r ← guarded StTrips path r;
  r ← guarded StStopTimes path r;
  r ← guarded StStopTimeCheck path r;
  r ← guarded StFareAttributes path r;
  r ← guarded StFareRules path r;
  r ← guarded StFrequencies path r;
  guarded StTransfers path r.
(** ** Auxiliary notions for the orchestrator *)

(** The stages of a list run one after the other under the guard of
    [Parse]. *)
Definition run_stages (path : location) (l : list stage) (r : run)
    : option run :=
  foldl (fun acc s => acc ≫= guarded s path) (Some r) l.

(** The single writes a stage can make to the feed. *)
Inductive touches : stage -> Feed -> Feed -> Prop :=
  | touch_agency f a :
      touches StAgencies f
        (set_Agencies f (<[Agency_Id a := a]> (Agencies f)))
  | touch_feed_info f fi :
      DryRun (opts f) = false ->
      touches StFeedInfos f (set_FeedInfos f (FeedInfos f ++ [fi]))
  | touch_stops f stops :
      touches StStops f (set_Stops f stops)
  | touch_shapes s f shapes :
      s = StShapes \/ s = StShapeCheck ->
      touches s f (set_Shapes f shapes)
  | touch_route f r :
      touches StRoutes f
        (set_Routes f
           (<[Route_Id r := if DryRun (opts f) then None else Some r]>
              (Routes f)))
  | touch_service_new s f sv :
      s = StCalendar \/ s = StCalendarDates ->
      touches s f
        (set_Services f
           (<[Service_Id sv := if DryRun (opts f) then None else Some sv]>
              (Services f)))
  | touch_service_upd s f id g :
      s = StCalendar \/ s = StCalendarDates ->
      touches s f (set_Services f (update_at id g (Services f)))
  | touch_trip f t :
      touches StTrips f (set_Trips f (<[Trip.Id t := Some t]> (Trips f)))
  | touch_trip_upd s f id g :
      s = StStopTimes \/ s = StFrequencies ->
      (forall t, Trip.Id (g t) = Trip.Id t) ->
      touches s f (set_Trips f (update_at id g (Trips f)))
  | touch_trip_check f id t sts :
      Trips f !! id = Some (Some t) ->
      touches StStopTimeCheck f
        (set_Trips f (<[id := Some (Trip.with_StopTimes t sts)]> (Trips f)))
  | touch_trip_clear f id :
      DryRun (opts f) = true ->
      touches StStopTimeCheck f (set_Trips f (<[id := None]> (Trips f)))
  | touch_fare f fa :
      touches StFareAttributes f
        (set_FareAttributes f
           (<[FareAttribute_Id fa := fa]> (FareAttributes f)))
  | touch_fare_rule f id g :
      touches StFareRules f
        (set_FareAttributes f (alter g id (FareAttributes f)))
  | touch_transfer f t :
      DryRun (opts f) = false ->
      touches StTransfers f (set_Transfers f (Transfers f ++ [t])).

(** What every stage keeps of a dry run: the flag, the nil slots of the
    routes and the services, the empty transfers and feed infos, and the
    trips stored under their ids. *)
Definition dry_inv (f : Feed) : Prop :=
  DryRun (opts f) = true /\ all_nil (Routes f) /\ all_nil (Services f) /\
  Transfers f = [] /\ FeedInfos f = [] /\ keyed (Trips f).

(** The materializers of the agencies, the stops, the feed infos and the
    fare attributes do not read [DryRun]. *)
Definition dry_blind : Prop :=
  (forall rec o o', same_but_dry o o' ->
     createAgency rec o = createAgency rec o') /\
  (forall rec o o', same_but_dry o o' ->
     createStop rec o = createStop rec o') /\
  (forall rec o o', same_but_dry o o' ->
     createFeedInfo rec o = createFeedInfo rec o') /\
  (forall rec o o', same_but_dry o o' ->
     createFareAttribute rec o = createFareAttribute rec o').

(** Two feeds with the same agencies, stops and fare attributes, under
    options that differ at most in [DryRun]. *)
Definition agree (f f' : Feed) : Prop :=
  Agencies f = Agencies f' /\ Stops f = Stops f' /\
  FareAttributes f = FareAttributes f' /\ same_but_dry (opts f) (opts f').

End Pipeline.

(** ** Auxiliary notions

    The keys below order the float32 values other than NaN the way the
    machine comparison does: lexicographically. *)

Definition key (a : float32) : Z * Z * Z :=
  match a with
  | S754_infinity true => (-2, 0, 0)
  | S754_finite true m e => (-1, - e, - Z.pos m)
  | S754_zero _ | S754_nan => (0, 0, 0)
  | S754_finite false m e => (1, e, Z.pos m)
  | S754_infinity false => (2, 0, 0)
  end.

Definition key_lt (x y : Z * Z * Z) : Prop :=
  x.1.1 < y.1.1 \/
  (x.1.1 = y.1.1 /\ (x.1.2 < y.1.2 \/ (x.1.2 = y.1.2 /\ x.2 < y.2))).


(** What the shape check does to the points after [prev] when
    [UseDefValueOnError] is set, as one pass over the list: [m] is the
    variable [max]. *)
Fixpoint default_scan (m : float32) (prev : ShapePoint.t)
    (rest : list ShapePoint.t) : list ShapePoint.t :=
  match rest with
  | [] => []
  | cur :: rest' =>
      let m' :=
        if ShapePoint.HasDistanceTraveled prev
        then ShapePoint.Dist_traveled prev else m in
      let cur' :=
        if ShapePoint.HasDistanceTraveled cur
           && gt m' (ShapePoint.Dist_traveled cur)
        then ShapePoint.clear_dist cur else cur in
      cur' :: default_scan m' cur' rest'
  end.

(** The arrival and departure time of a stop-time. *)
Definition times {Time : Type} (s : StopTime.t Time) : Time * Time :=
  (StopTime.Arrival_time s, StopTime.Departure_time s).

(** No stop-time of [rest], read after [prev], arrives before the one
    before it departs. *)
Fixpoint no_violation {Time : Type} `{!TimeOps Time}
    (prev : StopTime.t Time) (rest : list (StopTime.t Time)) : Prop :=
  match rest with
  | [] => True
  | cur :: rest' => time_violation prev cur = false /\ no_violation cur rest'
  end.

(** ** Sample data *)

(** float32 values of small integers, normalised to 24 bits of mantissa. *)
Definition f32 (n : Z) : float32 :=
  binary_normalize 24 128 n 0 false.

Definition pt (seq : Z) (d : Z) : ShapePoint.t :=
  {| ShapePoint.Lat := zero; ShapePoint.Lon := zero;
     ShapePoint.Sequence := seq;
     ShapePoint.Dist_traveled := f32 d; ShapePoint.Has_dist := true |}.

Definition flags (def drop dry : bool) : ParseOptions :=
  {| UseDefValueOnError := def; DropErroneous := drop; DryRun := dry |}.

(** Times given as seconds since midnight; a negative number is the empty
    time. *)
#[export] Instance Z_TimeOps : TimeOps Z :=
  {| Empty := fun t => t <? 0; SecondsSinceMidnight := fun t => t |}.

Definition st (seq arr dep : Z) : StopTime.t Z :=
  {| StopTime.Stop := "S"; StopTime.Arrival_time := arr;
     StopTime.Departure_time := dep; StopTime.Sequence := seq;
     StopTime.Shape_dist_traveled := zero; StopTime.Has_dist := false |}.

Definition trip_of (id : string) (sts : list (StopTime.t Z)) : Trip.t Z unit :=
  {| Trip.Id := id; Trip.Route := None; Trip.Service := None;
     Trip.Headsign := ""; Trip.Short_name := ""; Trip.Direction_id := 0;
     Trip.Block_id := ""; Trip.Shape := None;
     Trip.Wheelchair_accessible := 0; Trip.Bikes_allowed := 0;
     Trip.StopTimes := sts; Trip.Frequencies := [] |}.

(** Modelled from the spec: the materializers are not under src.  These
    ones, for a feed format small enough to run the parser on, build each
    entity from the id columns of the record and report a field error when a
    required column is missing. *)
#[export] Instance demo_entities : Entities :=
  {| Time := Z; Date := Z;
     Agency := string; Agency_Id := fun a => a;
     Route := string; Route_Id := fun r => r;
     Service := string; Service_Id := fun s => s;
     FareAttribute := string; FareAttribute_Id := fun f => f;
     Transfer := string * string;
     Frequency := unit |}.

Definition column (name : string) (r : gmap string string) : result string :=
  match r !! name with
  | Some v => Ok v
  | None => Err ("missing column " +:+ name)
  end.

Definition demo_stop (r : gmap string string) : result Stop.t :=
  match column "stop_id" r with
  | Ok id =>
      Ok {| Stop.Id := id; Stop.Lat := zero; Stop.Lon := zero;
            Stop.Parent_station := None |}
  | Err e => Err e
  end.

Definition demo_trip (r : gmap string string) : result (Trip.t Z unit) :=
  match column "trip_id" r with
  | Ok id => Ok (trip_of id [])
  | Err e => Err e
  end.

Definition demo_shape_point (r : gmap string string)
    (shapes : gmap string (option Shape.t))
    : gmap string (option Shape.t) * option string :=
  match column "shape_id" r with
  | Ok id =>
      match shapes !! id with
      | Some (Some s) =>
          (<[id := Some (Shape.with_Points s
                           (Shape.Points s ++ [pt (len (Shape.Points s)) 0]))]>
             shapes, None)
      | _ =>
          (<[id := Some {| Shape.Id := id; Shape.Points := [pt 0 0] |}]> shapes,
           None)
      end
  | Err e => (shapes, Some e)
  end.

Definition demo_stop_time (r : gmap string string)
    : result (string * StopTime.t Z) :=
  match column "trip_id" r with
  | Ok id => Ok (id, st 0 (-1) (-1))
  | Err e => Err e
  end.

Definition demo_transfer (r : gmap string string)
    : result (string * string) :=
  match column "from_stop_id" r, column "to_stop_id" r with
  | Ok a, Ok b => Ok (a, b)
  | Err e, _ | _, Err e => Err e
  end.

Definition demo_feed_info (r : gmap string string) : result (FeedInfo.t Z) :=
  match column "feed_publisher_name" r with
  | Ok n =>
      Ok {| FeedInfo.Publisher_name := n; FeedInfo.Publisher_url := None;
            FeedInfo.Lang := ""; FeedInfo.Start_date := 0;
            FeedInfo.End_date := 0; FeedInfo.Phone := "";
            FeedInfo.Version := "" |}
  | Err e => Err e
  end.

#[export] Instance demo_materializers : Materializers :=
  {| createAgency := fun r _ => column "agency_id" r;
     createStop := fun r _ => demo_stop r;
     createRoute := fun r _ _ => column "route_id" r;
     createServiceFromCalendar := fun r _ _ =>
       match column "service_id" r with
       | Ok id => New id
       | Err e => Invalid e
       end;
     createServiceFromCalendarDates := fun r services =>
       match column "service_id" r with
       | Ok id =>
           match services !! id with
           | Some _ => InPlace id (fun s => s)
           | None => New id
           end
       | Err e => Invalid e
       end;
     createTrip := fun r _ _ _ _ => demo_trip r;
     createShapePoint := fun r shapes _ => demo_shape_point r shapes;
     createStopTime := fun r _ _ _ => demo_stop_time r;
     createFrequency := fun r _ _ =>
       match column "trip_id" r with
       | Ok id => Ok (id, tt)
       | Err e => Err e
       end;
     createFareAttribute := fun r _ => column "fare_id" r;
     createFareRule := fun r _ _ =>
       match column "fare_id" r with
       | Ok id => Ok (id, fun f => f)
       | Err e => Err e
       end;
     createTransfer := fun r _ _ => demo_transfer r;
     createFeedInfo := fun r _ => demo_feed_info r |}.

(** The entries in the order of the map's own enumeration. *)
#[export] Instance listing_order : MapOrder :=
  {| range := fun A m => map_to_list m;
     range_perm := fun A m => reflexivity (map_to_list m) |}.

Definition row (fields : list (string * string)) : csv_line :=
  Row (list_to_map fields).

(** The five files every feed needs, without any record. *)
Definition bare_files : gmap string file :=
  list_to_map
    [("agency.txt", []); ("stops.txt", []); ("routes.txt", []);
     ("trips.txt", []); ("stop_times.txt", [])].

(** A small feed: one agency, two stops, one route, one service, one
    shape, one trip with two stop-times, and one transfer. *)
Definition small_feed : location :=
  Directory (list_to_map
    [("agency.txt", [row [("agency_id", "a")]]);
     ("stops.txt", [row [("stop_id", "A")]; row [("stop_id", "B")]]);
     ("shapes.txt", [row [("shape_id", "sh")]]);
     ("routes.txt", [row [("route_id", "r")]]);
     ("calendar.txt", [row [("service_id", "s")]]);
     ("trips.txt", [row [("trip_id", "t")]]);
     ("stop_times.txt", [row [("trip_id", "t")]; row [("trip_id", "t")]]);
     ("transfers.txt", [row [("from_stop_id", "A"); ("to_stop_id", "B")]])]).

(** A directory with the five required files, one of them given. *)
Definition with_file (name : string) (rows : file) : location :=
  Directory (<[name := rows]> bare_files).

(** The files without which a parse fails, and the stages that pass over
    an absent file. *)
Definition required_files : list string :=
  ["agency.txt"; "stops.txt"; "routes.txt"; "trips.txt"; "stop_times.txt"].

Definition optional_files : list (stage * string) :=
  [(StShapes, "shapes.txt"); (StFareAttributes, "fare_attributes.txt");
   (StFareRules, "fare_rules.txt"); (StFrequencies, "frequencies.txt");
   (StTransfers, "transfers.txt"); (StFeedInfos, "feed_info.txt");
   (StCalendar, "calendar.txt"); (StCalendarDates, "calendar_dates.txt")].

Definition feed_with (o : ParseOptions) : Feed := SetParseOpts NewFeed o.



(** ** Order of the declared distances

    Both checks compare a declared distance with the variable [max], which
    holds the distance of the last element before it that declares one, and
    minus infinity when there is none. *)

Section DeclaredOrder.
Context {A : Type} (has : A -> bool) (dist : A -> float32).

(** The value of [max] after the elements of [l] have been passed, from the
    value [m]. *)
Definition last_declared (m : float32) (l : list A) : float32 :=
  foldl (fun m p => if has p then dist p else m) m l.

(** No element declares less than the nearest element before it that
    declares a distance. *)
Definition declared_in_order (l : list A) : Prop :=
  forall (i j : nat) (p q : A),
    (i < j)%nat -> l !! i = Some p -> l !! j = Some q ->
    has p = true -> has q = true ->
    (forall (k : nat) (r : A),
       (i < k < j)%nat -> l !! k = Some r -> has r = false) ->
    gt (dist p) (dist q) = false.

(** The first element of [l] that declares a distance does not declare less
    than [x]. *)
Definition first_declared_ok (x : float32) (l : list A) : Prop :=
  forall (k : nat) (q : A),
    l !! k = Some q -> has q = true ->
    (forall (n : nat) (r : A), (n < k)%nat -> l !! n = Some r -> has r = false) ->
    gt x (dist q) = false.

(** The comparisons of one pass over [rest], read after [prev] with [max]
    at [m]: none finds a distance below [max]. *)
Fixpoint in_order_from (m : float32) (prev : A) (rest : list A) : bool :=
  match rest with
  | [] => true
  | cur :: rest' =>
      let m' := if has prev then dist prev else m in
      negb (has cur && gt m' (dist cur)) && in_order_from m' cur rest'
  end.
End DeclaredOrder.

(** What the shape check returns under the strict options, as one pass over
    the points after [prev]. *)
Fixpoint strict_scan (id : string) (m : float32) (prev : ShapePoint.t)
    (rest : list ShapePoint.t) : option check_error :=
  match rest with
  | [] => None
  | cur :: rest' =>
      let m' :=
        if ShapePoint.HasDistanceTraveled prev
        then ShapePoint.Dist_traveled prev else m in
      if ShapePoint.HasDistanceTraveled cur
         && gt m' (ShapePoint.Dist_traveled cur)
      then Some (ShapeDistNotIncreasing id (ShapePoint.Sequence cur) m'
                   (ShapePoint.Dist_traveled cur))
      else strict_scan id m' cur rest'
  end.

(** What the shape check never writes: the position and the sequence number
    of a point. *)
Definition geometry (p : ShapePoint.t) : float32 * float32 * Z :=
  (ShapePoint.Lat p, ShapePoint.Lon p, ShapePoint.Sequence p).

(** A stop-time as it was, or with its distance reset. *)
Definition same_or_cleared {Time : Type} (a b : StopTime.t Time) : Prop :=
  b = a \/ b = StopTime.clear_dist a.

(** ** More sample data *)

Definition std (seq arr dep d : Z) : StopTime.t Z :=
  {| StopTime.Stop := "S"; StopTime.Arrival_time := arr;
     StopTime.Departure_time := dep; StopTime.Sequence := seq;
     StopTime.Shape_dist_traveled := f32 d; StopTime.Has_dist := true |}.

Definition shape_of (id : string) (pts : list ShapePoint.t) : Shape.t :=
  {| Shape.Id := id; Shape.Points := pts |}.

(** ** Notions for the stages *)

(** The file each reading stage asks [getFile] for; the two checks read no
    file. *)
Definition stage_file (s : stage) : option string :=
  match s with
  | StAgencies => Some "agency.txt"
  | StFeedInfos => Some "feed_info.txt"
  | StStops => Some "stops.txt"
  | StShapes => Some "shapes.txt"
  | StShapeCheck => None
  | StRoutes => Some "routes.txt"
  | StCalendar => Some "calendar.txt"
  | StCalendarDates => Some "calendar_dates.txt"
  | StTrips => Some "trips.txt"
  | StStopTimes => Some "stop_times.txt"
  | StStopTimeCheck => None
  | StFareAttributes => Some "fare_attributes.txt"
  | StFareRules => Some "fare_rules.txt"
  | StFrequencies => Some "frequencies.txt"
  | StTransfers => Some "transfers.txt"
  end.

(** A file in which the reader finds nothing malformed. *)
Definition rows_only (f : file) : Prop := forall msg, Malformed msg ∉ f.

(** Every entity of a table is stored under its own id. *)
Definition keyed_by {A : Type} (id : A -> string) (m : gmap string A) : Prop :=
  forall k a, m !! k = Some a -> id a = k.

(** The same for a table of pointers, of the slots that are not nil. *)
Definition keyed_opt {A : Type} (id : A -> string)
    (m : gmap string (option A)) : Prop :=
  forall k a, m !! k = Some (Some a) -> id a = k.

(** No slot of a table of pointers holds nil. *)
Definition no_nil {A : Type} (m : gmap string (option A)) : Prop :=
  forall k, m !! k <> Some None.

(** Every key of [m] is a key of [m']. *)
Definition keeps_keys {A B : Type} (m : gmap string A) (m' : gmap string B)
    : Prop :=
  forall k, is_Some (m !! k) -> is_Some (m' !! k).

Section AgencyTable.
Context `{Ent : Entities} `{Mat : !Materializers}.

(** What the body of the loop of [parseAgencies] does to the agency table
    with a record it does not panic on. *)
Definition store_agency (o : ParseOptions) (m : gmap string Agency)
    (rec : record) : gmap string Agency :=
  match createAgency rec o with
  | Ok agency => <[Agency_Id agency := agency]> m
  | Err _ => m
  end.
End AgencyTable.

(** A sequence of stop-times in which none arrives before the one before it
    departs and the declared distances are in order. *)
Definition stop_times_in_order {Time : Type} `{!TimeOps Time}
    (sts : list (StopTime.t Time)) : Prop :=
  (forall (k : nat) (a b : StopTime.t Time),
     sts !! k = Some a -> sts !! S k = Some b ->
     time_violation a b = false) /\
  declared_in_order (A := StopTime.t Time) StopTime.Has_dist
    StopTime.Shape_dist_traveled sts.

(** The entries in the reverse of the order of the map's own enumeration:
    another order in which a map can be ranged over. *)
Definition reverse_order : MapOrder :=
  {| range := fun A m => reverse (map_to_list m);
     range_perm := fun A m => reverse_Permutation (map_to_list m) |}.

(** The errors the stage [s] can return at the location [path]: that of a
    required file that cannot be opened, the parse error of its file, or,
    for a check, the error of the check. *)
Definition stage_error (path : location) (s : stage) (e : error) : Prop :=
  match stage_file s with
  | Some name =>
      (getFile path name = None /\ name ∈ required_files /\
       e = ErrorString ("Could not open required file " +:+ name)) \/
      (exists (file : file) (line : Z) (msg : string),
         getFile path name = Some file /\ e = ParseError name line msg)
  | None => exists ce : check_error, e = CheckFailed ce
  end.


(** * Properties *)

(** ** Slices *)

Lemma len_nonneg {A} (s : list A) : 0 <= len s.
Proof. unfold len. lia. Qed.

Lemma index_Some {A} (s : list A) (i : Z) (x : A) :
  index s i = Some x <-> 0 <= i < len s /\ s !! Z.to_nat i = Some x.
Proof.
  unfold index.
  destruct (i <? 0) eqn:Hi; [apply Z.ltb_lt in Hi | apply Z.ltb_ge in Hi];
    simpl; [split; [done | lia] |].
  destruct (len s <=? i) eqn:Hl; [apply Z.leb_le in Hl | apply Z.leb_gt in Hl].
  - split; [done | lia].
  - split; [intros; split; [lia | done] | tauto].
Qed.

Lemma index_None {A} (s : list A) (i : Z) :
  index s i = None <-> i < 0 \/ len s <= i.
Proof.
  unfold index.
  destruct (i <? 0) eqn:Hi; [apply Z.ltb_lt in Hi | apply Z.ltb_ge in Hi];
    simpl; [split; [lia | done] |].
  destruct (len s <=? i) eqn:Hl; [apply Z.leb_le in Hl | apply Z.leb_gt in Hl].
  - split; [lia | done].
  - split; [| lia].
    intros H. apply lookup_ge_None in H. unfold len in Hl. lia.
Qed.

Lemma index_is_Some {A} (s : list A) (i : Z) :
  0 <= i < len s -> is_Some (index s i).
Proof.
  intros H. destruct (index s i) eqn:E; [eauto |].
  apply index_None in E. lia.
Qed.

(** Within bounds, the slice expression of the checks removes exactly the
    element at [i]. *)
Lemma remove_at_delete {A} (s : list A) (i : Z) :
  0 <= i < len s -> remove_at s i = Some (delete (Z.to_nat i) s).
Proof.
  intros Hi. unfold remove_at, slice_from, len in *.
  destruct (i <? 0) eqn:E1; [apply Z.ltb_lt in E1; lia |].
  destruct (Z.of_nat (length s) <? i) eqn:E2; [apply Z.ltb_lt in E2; lia |].
  destruct (i + 1 <? 0) eqn:E3; [apply Z.ltb_lt in E3; lia |].
  destruct (Z.of_nat (length s) <? i + 1) eqn:E4;
    [apply Z.ltb_lt in E4; lia |].
  cbn [orb]. unfold copy, slice_to, len.
  replace (Z.to_nat (i + 1)) with (S (Z.to_nat i)) by lia.
  set (n := Z.to_nat i) in *.
  assert (Hn : (n < length s)%nat) by lia.
  rewrite !length_drop.
  replace (Nat.min (length s - n) (length s - S n)) with (length s - S n)%nat
    by lia.
  rewrite !length_app, length_take, !length_drop.
  rewrite length_take, length_drop.
  match goal with
  | |- (if ?c then _ else _) = _ => assert (c = false) as ->
  end.
  { apply orb_false_intro; apply Z.ltb_ge; lia. }
  f_equal.
  replace (Z.to_nat (i + _)) with (n + (length s - S n))%nat by lia.
  rewrite take_app_add'; [| rewrite length_take; lia].
  rewrite take_app_le; [| rewrite length_take, length_drop; lia].
  rewrite take_take, Nat.min_id.
  rewrite (take_ge (drop (S n) s)); [| rewrite length_drop; lia].
  by rewrite delete_take_drop.
Qed.

Lemma remove_at_None {A} (s : list A) (i : Z) :
  remove_at s i = None -> i < 0 \/ len s <= i.
Proof.
  intros H. destruct (decide (0 <= i < len s)) as [Hi|]; [| lia].
  rewrite remove_at_delete in H; done.
Qed.

Lemma head_insert_pos {A} (s : list A) (n : nat) (x : A) :
  (0 < n)%nat -> head (<[n := x]> s) = head s.
Proof. intros Hn. destruct s, n; simpl; try done; lia. Qed.

Lemma head_delete_pos {A} (s : list A) (n : nat) :
  (0 < n)%nat -> head (delete n s) = head s.
Proof. intros Hn. destruct s, n; simpl; try done; lia. Qed.

(** ** The loop driver *)

Section ForLoop.
Context {A : Type} (body : Z -> vars A -> step A).

(** A loop whose body never lengthens the slice ends within
    [len(s) - j + 1] tests. *)
Lemma for_loop_total (fuel : nat) (j : Z) (v : vars A) :
  (forall j v v', body j v = Next v' ->
     (length (elems v') <= length (elems v))%nat) ->
  (Z.to_nat (len (elems v) - j) < fuel)%nat ->
  is_Some (for_loop body fuel j v).
Proof.
  intros Hbody. revert j v.
  induction fuel as [|fuel IH]; intros j v Hfuel; [lia |].
  simpl. destruct (j <? len (elems v)) eqn:Hj; [| eauto].
  apply Z.ltb_lt in Hj.
  destruct (body j v) as [v'|s o] eqn:Hb; [| eauto].
  apply IH. apply Hbody in Hb. unfold len in *. lia.
Qed.

(** The invariant rule: [I] holds whenever the loop test is evaluated,
    [Q] when the function is left. *)
Lemma for_loop_inv (I : Z -> vars A -> Prop)
    (Q : list A -> outcome check_error -> Prop) :
  (forall j v, I j v -> j < len (elems v) ->
     match body j v with
     | Next v' => I (j + 1) v'
     | Leave s o => Q s o
     end) ->
  (forall j v, I j v -> len (elems v) <= j -> Q (elems v) (Returns None)) ->
  forall fuel j v s o,
    I j v -> for_loop body fuel j v = Some (s, o) -> Q s o.
Proof.
  intros Hstep Hexit fuel.
  induction fuel as [|fuel IH]; intros j v s o HI Hrun; [done |].
  simpl in Hrun. destruct (j <? len (elems v)) eqn:Hj.
  - apply Z.ltb_lt in Hj. specialize (Hstep j v HI Hj).
    destruct (body j v) as [v'|s' o'].
    + eapply IH; [exact Hstep | exact Hrun].
    + by simplify_eq.
  - apply Z.ltb_ge in Hj. simplify_eq. by eapply Hexit.
Qed.
End ForLoop.

(** ** checkShapeMeasure: frame and termination *)

Lemma shape_body_length id opt j v v' :
  shape_body id opt j v = Next v' ->
  (length (elems v') <= length (elems v))%nat.
Proof.
  unfold shape_body. intros H.
  destruct (index (elems v) (j - deleted v - 1)) as [prev|]; [| done].
  destruct (index (elems v) (j - deleted v)) as [cur|] eqn:Hcur; [| done].
  apply index_Some in Hcur as [Hi _].
  destruct (_ && _).
  - destruct (UseDefValueOnError opt).
    + simplify_eq. simpl. by rewrite length_insert.
    + destruct (DropErroneous opt); [| done].
      rewrite remove_at_delete in H by done. simplify_eq. simpl.
      rewrite length_delete; [lia |].
      apply lookup_lt_is_Some. unfold len in Hi. lia.
  - by simplify_eq.
Qed.

Lemma shape_body_head id opt j v :
  match shape_body id opt j v with
  | Next v' => head (elems v') = head (elems v)
  | Leave s o => s = elems v
  end.
Proof.
  unfold shape_body.
  destruct (index (elems v) (j - deleted v - 1)) as [prev|] eqn:Hprev;
    [| done].
  apply index_Some in Hprev as [Hp _].
  destruct (index (elems v) (j - deleted v)) as [cur|] eqn:Hcur; [| done].
  apply index_Some in Hcur as [Hi _].
  destruct (_ && _); [| done].
  destruct (UseDefValueOnError opt).
  - simpl. apply head_insert_pos. lia.
  - destruct (DropErroneous opt); [| done].
    rewrite remove_at_delete by done. simpl. apply head_delete_pos. lia.
Qed.

Lemma checkShapeMeasure_total shape opt :
  is_Some (checkShapeMeasure shape opt).
Proof.
  unfold checkShapeMeasure.
  destruct (for_loop_total (shape_body (Shape.Id shape) opt)
              (S (length (Shape.Points shape))) 1
              (Vars 0 neg_inf (Shape.Points shape))) as [[s o] ->]; [| | eauto].
  - intros. by eapply shape_body_length.
  - simpl. unfold len. lia.
Qed.

(** The shape check keeps [1 <= i < len]: it never panics. *)
Lemma checkShapeMeasure_returns shape opt shape' o :
  checkShapeMeasure shape opt = Some (shape', o) ->
  exists e, o = Returns e.
Proof.
  unfold checkShapeMeasure.
  destruct (for_loop _ _ _ _) as [[s o']|] eqn:Hrun; [| done].
  intros ?; simplify_eq.
  revert Hrun.
  apply (for_loop_inv _ (fun j v => 0 <= deleted v <= j - 1)
           (fun _ o => exists e, o = Returns e)); [| eauto | simpl; lia].
  intros j v [Hd1 Hd2] Hj. unfold shape_body.
  destruct (index_is_Some (elems v) (j - deleted v - 1)) as [prev ->];
    [lia |].
  destruct (index_is_Some (elems v) (j - deleted v)) as [cur ->]; [lia |].
  destruct (_ && _); [| simpl; lia].
  destruct (UseDefValueOnError opt); [simpl; lia |].
  destruct (DropErroneous opt); [| eauto].
  rewrite remove_at_delete by lia. simpl. lia.
Qed.

(** ** checkStopTimeMeasure: frame and termination *)

Section StopTimeFacts.
Context {Time : Type} `{!TimeOps Time}.
Implicit Types (sts : list (StopTime.t Time)) (v : vars (StopTime.t Time)).

Lemma arrival_before_departure_true sts i :
  arrival_before_departure sts i = Some true <->
  exists prev cur,
    index sts (i - 1) = Some prev /\ index sts i = Some cur /\
    time_violation prev cur = true.
Proof.
  unfold arrival_before_departure, time_violation. split.
  - destruct (index sts (i - 1)) as [prev|]; [| done].
    destruct (Empty (StopTime.Departure_time prev)) eqn:Hd; simpl; [done |].
    destruct (index sts i) as [cur|]; [| done].
    intros ?; simplify_eq. exists prev, cur. by rewrite Hd.
  - intros (prev & cur & -> & -> & H).
    destruct (Empty (StopTime.Departure_time prev)); simpl in *; [done |].
    by rewrite H.
Qed.

Lemma arrival_before_departure_Some sts i b :
  arrival_before_departure sts i = Some b -> 0 <= i - 1 < len sts.
Proof.
  unfold arrival_before_departure.
  destruct (index sts (i - 1)) as [prev|] eqn:E; [| done].
  intros _. by apply index_Some in E as [? _].
Qed.

Lemma time_part_length id opt i v v' :
  time_part id opt i v = Next v' ->
  (length (elems v') <= length (elems v))%nat.
Proof.
  unfold time_part. intros H.
  destruct (arrival_before_departure (elems v) i) as [[]|] eqn:E;
    [| by simplify_eq | done].
  apply arrival_before_departure_true in E as (prev & cur & _ & Hc & _).
  rewrite Hc in H. apply index_Some in Hc as [Hi _].
  destruct (DropErroneous opt); [| done].
  rewrite remove_at_delete in H by done. simplify_eq. simpl.
  rewrite length_delete; [lia |].
  apply lookup_lt_is_Some. unfold len in Hi. lia.
Qed.

Lemma time_part_head id opt i v :
  match time_part id opt i v with
  | Next v' => head (elems v') = head (elems v)
  | Leave s o => s = elems v
  end.
Proof.
  unfold time_part.
  destruct (arrival_before_departure (elems v) i) as [[]|] eqn:E;
    [| done | done].
  apply arrival_before_departure_true in E as (prev & cur & Hp & Hc & _).
  apply index_Some in Hp as [Hp _]. rewrite Hc.
  apply index_Some in Hc as [Hi _].
  destruct (DropErroneous opt); [| done].
  rewrite remove_at_delete by done. simpl. apply head_delete_pos. lia.
Qed.

Lemma dist_part_length id opt i v v' :
  dist_part id opt i v = Next v' ->
  (length (elems v') <= length (elems v))%nat.
Proof.
  unfold dist_part. intros H.
  destruct (index (elems v) (i - 1)) as [prev|]; [| done].
  destruct (index (elems v) i) as [cur|] eqn:Hcur; [| done].
  apply index_Some in Hcur as [Hi _].
  destruct (_ && _).
  - destruct (UseDefValueOnError opt).
    + simplify_eq. simpl. by rewrite length_insert.
    + destruct (DropErroneous opt); [| done].
      rewrite remove_at_delete in H by done. simplify_eq. simpl.
      rewrite length_delete; [lia |].
      apply lookup_lt_is_Some. unfold len in Hi. lia.
  - by simplify_eq.
Qed.

Lemma dist_part_head id opt i v :
  match dist_part id opt i v with
  | Next v' => head (elems v') = head (elems v)
  | Leave s o => s = elems v
  end.
Proof.
  unfold dist_part.
  destruct (index (elems v) (i - 1)) as [prev|] eqn:Hprev; [| done].
  apply index_Some in Hprev as [Hp _].
  destruct (index (elems v) i) as [cur|] eqn:Hcur; [| done].
  apply index_Some in Hcur as [Hi _].
  destruct (_ && _); [| done].
  destruct (UseDefValueOnError opt).
  - simpl. apply head_insert_pos. lia.
  - destruct (DropErroneous opt); [| done].
    rewrite remove_at_delete by done. simpl. apply head_delete_pos. lia.
Qed.

Lemma stoptime_body_length id opt j v v' :
  stoptime_body id opt j v = Next v' ->
  (length (elems v') <= length (elems v))%nat.
Proof.
  unfold stoptime_body. intros H.
  destruct (time_part id opt (j - deleted v) v) as [v1|] eqn:H1; [| done].
  apply time_part_length in H1. apply dist_part_length in H. lia.
Qed.

Lemma stoptime_body_head id opt j v :
  match stoptime_body id opt j v with
  | Next v' => head (elems v') = head (elems v)
  | Leave s o => head s = head (elems v)
  end.
Proof.
  unfold stoptime_body.
  pose proof (time_part_head id opt (j - deleted v) v) as H1.
  destruct (time_part id opt (j - deleted v) v) as [v1|]; [| by subst].
  pose proof (dist_part_head id opt (j - deleted v) v1) as H2.
  destruct (dist_part id opt (j - deleted v) v1); [congruence |].
  by subst.
Qed.

Lemma checkStopTimeMeasure_total {Frequency : Type}
    (trip : Trip.t Time Frequency) opt :
  is_Some (checkStopTimeMeasure trip opt).
Proof.
  unfold checkStopTimeMeasure.
  destruct (for_loop_total (stoptime_body (Trip.Id trip) opt)
              (S (length (Trip.StopTimes trip))) 1
              (Vars 0 neg_inf (Trip.StopTimes trip)))
    as [[s o] ->]; [| | eauto].
  - intros. by eapply stoptime_body_length.
  - simpl. unfold len. lia.
Qed.
End StopTimeFacts.

(** C10: for every shape, every trip and every setting of the options, each
    check ends and leaves the first element of the sequence in place and
    unchanged, whether it returns nil, returns an error or panics: elements
    are only dropped or defaulted at positions after the first. *)
Theorem C10_first_element_is_never_touched :
  (forall (shape : Shape.t) (opt : ParseOptions),
     exists shape' o,
       checkShapeMeasure shape opt = Some (shape', o) /\
       head (Shape.Points shape') = head (Shape.Points shape)) /\
  (forall (Time Frequency : Type) (T : TimeOps Time)
          (trip : Trip.t Time Frequency) (opt : ParseOptions),
     exists trip' o,
       checkStopTimeMeasure trip opt = Some (trip', o) /\
       head (Trip.StopTimes trip') = head (Trip.StopTimes trip)).
Proof.
  split.
  - intros shape opt.
    destruct (checkShapeMeasure_total shape opt) as [[shape' o] Hrun].
    exists shape', o. split; [done |].
    unfold checkShapeMeasure in Hrun.
    destruct (for_loop _ _ _ _) as [[s o']|] eqn:Hloop; [| done].
    simplify_eq. simpl. revert Hloop.
    apply (for_loop_inv _
             (fun _ v => head (elems v) = head (Shape.Points shape))
             (fun s _ => head s = head (Shape.Points shape))); [| done | done].
    intros j v Hv _.
    pose proof (shape_body_head (Shape.Id shape) opt j v) as H.
    destruct (shape_body _ _ _ _); [congruence | by subst].
  - intros Time Frequency T trip opt.
    destruct (checkStopTimeMeasure_total trip opt) as [[trip' o] Hrun].
    exists trip', o. split; [done |].
    unfold checkStopTimeMeasure in Hrun.
    destruct (for_loop _ _ _ _) as [[s o']|] eqn:Hloop; [| done].
    simplify_eq. simpl. revert Hloop.
    apply (for_loop_inv _
             (fun _ v => head (elems v) = head (Trip.StopTimes trip))
             (fun s _ => head s = head (Trip.StopTimes trip))); [| done | done].
    intros j v Hv _.
    pose proof (stoptime_body_head (Trip.Id trip) opt j v) as H.
    destruct (stoptime_body _ _ _ _); congruence.
Qed.

(** ** The order of float32 values *)

Lemma gt_key (a b : float32) :
  is_nan a = false -> is_nan b = false ->
  (gt a b = true <-> key_lt (key b) (key a)).
Proof.
  unfold gt, SFltb, SFcompare, key_lt.
  destruct a as [sa|sa| |sa ma ea], b as [sb|sb| |sb mb eb];
    try destruct sa; try destruct sb; simpl; try done;
    intros _ _; try (split; [first [done | lia] | first [done | lia]]).
  all: change (Pos.compare_cont Eq mb ma) with (Pos.compare mb ma).
  all: destruct (Z.compare_spec eb ea);
    [destruct (Pos.compare_spec mb ma) | |]; simpl;
    (split; [first [done | lia] | first [done | lia]]).
Qed.

Lemma gt_not_nan (a b : float32) :
  gt a b = true -> is_nan a = false /\ is_nan b = false.
Proof. by destruct a, b. Qed.

Lemma gt_asym (a b : float32) : gt a b = true -> gt b a = false.
Proof.
  intros H. destruct (gt_not_nan _ _ H) as [Ha Hb].
  apply gt_key in H; [| done..].
  destruct (gt b a) eqn:E; [| done].
  apply gt_key in E; [| done..].
  unfold key_lt in *. lia.
Qed.

(** [d > p] and not [d > m] give [m > p]. *)
Lemma gt_le_gt (d m p : float32) :
  is_nan m = false -> gt d p = true -> gt d m = false -> gt m p = true.
Proof.
  intros Hm H1 H2. destruct (gt_not_nan _ _ H1) as [Hd Hp].
  apply gt_key; [done.. |]. apply gt_key in H1; [| done..].
  assert (~ key_lt (key m) (key d)) as H3.
  { intros H. apply gt_key in H; [congruence | done..]. }
  unfold key_lt in *. lia.
Qed.

(** Neither [a > b] nor [b > c] gives not [a > c]. *)
Lemma not_gt_trans (a b c : float32) :
  is_nan b = false -> gt a b = false -> gt b c = false -> gt a c = false.
Proof.
  intros Hb H1 H2. destruct (gt a c) eqn:E; [| done].
  destruct (gt_not_nan _ _ E) as [Ha Hc].
  apply gt_key in E; [| done..].
  assert (~ key_lt (key b) (key a)) as H3.
  { intros H. apply gt_key in H; [congruence | done..]. }
  assert (~ key_lt (key c) (key b)) as H4.
  { intros H. apply gt_key in H; [congruence | done..]. }
  unfold key_lt in *. lia.
Qed.

(** ** checkShapeMeasure with default values *)

Lemma index_app_middle {A} (pre : list A) (x : A) (rest : list A) :
  index (pre ++ x :: rest) (len pre) = Some x.
Proof.
  apply index_Some. unfold len. rewrite length_app. simpl. split; [lia |].
  rewrite Nat2Z.id. by apply list_lookup_middle.
Qed.

Lemma index_app_next {A} (pre : list A) (x y : A) (rest : list A) :
  index (pre ++ x :: y :: rest) (len pre + 1) = Some y.
Proof.
  replace (pre ++ x :: y :: rest) with ((pre ++ [x]) ++ y :: rest)
    by by rewrite <- app_assoc.
  replace (len pre + 1) with (len (pre ++ [x]))
    by (unfold len; rewrite length_app; simpl; lia).
  apply index_app_middle.
Qed.

Lemma insert_app_next {A} (pre : list A) (x y z : A) (rest : list A) :
  <[Z.to_nat (len pre + 1) := z]> (pre ++ x :: y :: rest)
  = pre ++ x :: z :: rest.
Proof.
  unfold len. replace (Z.to_nat _) with (length pre + 1)%nat by lia.
  by rewrite insert_app_r.
Qed.

(** One iteration with [UseDefValueOnError]: the point after [prev] is
    kept, or kept with its distance reset, and nothing moves. *)
Lemma shape_body_default id opt pre prev cur rest m :
  UseDefValueOnError opt = true ->
  let m' := if ShapePoint.HasDistanceTraveled prev
            then ShapePoint.Dist_traveled prev else m in
  let cur' := if ShapePoint.HasDistanceTraveled cur
                 && gt m' (ShapePoint.Dist_traveled cur)
              then ShapePoint.clear_dist cur else cur in
  shape_body id opt (len pre + 1) (Vars 0 m (pre ++ prev :: cur :: rest))
  = Next (Vars 0 m' (pre ++ prev :: cur' :: rest)).
Proof.
  intros Hdef m' cur'. unfold shape_body. simpl.
  replace (len pre + 1 - 0 - 1) with (len pre) by lia.
  replace (len pre + 1 - 0) with (len pre + 1) by lia.
  rewrite index_app_middle, index_app_next. fold m'. subst cur'.
  destruct (ShapePoint.HasDistanceTraveled cur
            && gt m' (ShapePoint.Dist_traveled cur)); [| done].
  by rewrite Hdef, insert_app_next.
Qed.

(** With [UseDefValueOnError] the loop is one pass over the points: from
    the iteration that looks at the point after [prev] on, it leaves the
    points before untouched and rewrites the others as [default_scan]
    does. *)
Lemma shape_loop_default id opt :
  UseDefValueOnError opt = true ->
  forall rest pre prev m fuel,
    (length rest < fuel)%nat ->
    for_loop (shape_body id opt) fuel (len pre + 1)
      (Vars 0 m (pre ++ prev :: rest))
    = Some (pre ++ prev :: default_scan m prev rest, Returns None).
Proof.
  intros Hdef rest.
  induction rest as [|cur rest IH]; intros pre prev m fuel Hfuel;
    (destruct fuel as [|fuel]; [simpl in Hfuel; lia |]);
    cbn [for_loop elems].
  - rewrite (proj2 (Z.ltb_ge _ _)); [done |].
    unfold len. rewrite length_app. simpl. lia.
  - rewrite (proj2 (Z.ltb_lt _ _));
      [| unfold len; rewrite length_app; simpl; lia].
    rewrite shape_body_default by done. cbn zeta.
    match goal with
    | |- for_loop _ _ _ (Vars _ ?m' (_ ++ _ :: ?cur' :: _)) = _ =>
        specialize (IH (pre ++ [prev]) cur' m' fuel)
    end.
    replace (len (pre ++ [prev])) with (len pre + 1) in IH
      by (unfold len; rewrite length_app; simpl; lia).
    rewrite <- !app_assoc in IH. simpl in IH. rewrite IH by (simpl in *; lia).
    done.
Qed.

Lemma default_scan_length m prev rest :
  length (default_scan m prev rest) = length rest.
Proof.
  revert m prev. induction rest as [|cur rest IH]; intros; simpl; [done |].
  by rewrite IH.
Qed.

(** [m], updated from [prev], bounds the distances [seen] so far: the pass
    then resets every point that declares less than one of them or than a
    point between. *)
Lemma default_scan_resets (rest : list ShapePoint.t) :
  forall (m : float32) (prev : ShapePoint.t) (seen : list float32),
    is_nan m = false ->
    (ShapePoint.Has_dist prev = true ->
     is_nan (ShapePoint.Dist_traveled prev) = false) ->
    (forall p, p ∈ rest -> ShapePoint.Has_dist p = true ->
       is_nan (ShapePoint.Dist_traveled p) = false) ->
    (forall d, d ∈ seen ->
       gt d (if ShapePoint.Has_dist prev
             then ShapePoint.Dist_traveled prev else m) = false) ->
    forall (k : nat) (p : ShapePoint.t) (d : float32),
      rest !! k = Some p ->
      ShapePoint.Has_dist p = true ->
      (d ∈ seen \/
       exists n q, (n < k)%nat /\ rest !! n = Some q /\
                   ShapePoint.Has_dist q = true /\
                   d = ShapePoint.Dist_traveled q) ->
      gt d (ShapePoint.Dist_traveled p) = true ->
      default_scan m prev rest !! k = Some (ShapePoint.clear_dist p).
Proof.
  induction rest as [|cur rest IH];
    intros m prev seen Hm Hprev Hrest Hseen k p d Hk Hp Hd Hlt; [done |].
  simpl. unfold ShapePoint.HasDistanceTraveled.
  set (m' := if ShapePoint.Has_dist prev
             then ShapePoint.Dist_traveled prev else m) in *.
  assert (Hm' : is_nan m' = false).
  { subst m'. destruct (ShapePoint.Has_dist prev); auto. }
  destruct k as [|k]; simpl in Hk.
  - simplify_eq. destruct Hd as [Hd | (n & _ & ? & _)]; [| lia].
    rewrite Hp. simpl.
    by rewrite (gt_le_gt d m' (ShapePoint.Dist_traveled p)) by auto.
  - simpl.
    set (cur' := if ShapePoint.Has_dist cur
                    && gt m' (ShapePoint.Dist_traveled cur)
                 then ShapePoint.clear_dist cur else cur).
    apply (IH m' cur'
             (if ShapePoint.Has_dist cur
              then ShapePoint.Dist_traveled cur :: seen else seen)) with d;
      try done.
    + subst cur'.
      destruct (ShapePoint.Has_dist cur) eqn:Hc; simpl; [| congruence].
      destruct (gt m' _); simpl; [done |].
      intros _. apply Hrest; [left | done].
    + intros q Hq. apply Hrest. by right.
    + intros d' Hd'. subst cur'.
      destruct (ShapePoint.Has_dist cur) eqn:Hc; simpl.
      * destruct (gt m' (ShapePoint.Dist_traveled cur)) eqn:Hg; simpl.
        -- apply elem_of_cons in Hd' as [-> | Hd']; [by apply gt_asym | auto].
        -- rewrite Hc.
           assert (Hn : is_nan (ShapePoint.Dist_traveled cur) = false)
             by (apply Hrest; [left | done]).
           apply elem_of_cons in Hd' as [-> | Hd'].
           ++ destruct (gt (ShapePoint.Dist_traveled cur)
                           (ShapePoint.Dist_traveled cur)) eqn:E; [| done].
              apply gt_asym in E as E'. congruence.
           ++ by apply (not_gt_trans d' m' _); auto.
      * rewrite Hc. auto.
    + destruct Hd as [Hd | (n & q & Hn & Hq & Hqd & ->)].
      * left. destruct (ShapePoint.Has_dist cur); [by right | done].
      * destruct n as [|n]; simpl in Hq.
        -- simplify_eq. left. rewrite Hqd. by left.
        -- right. exists n, q. repeat split; try done. lia.
Qed.



(** C2 fails on the code.  With drop_erroneous set (and use_default_on_error
    unset), take any three points of which the second declares less than the
    first: the second is removed, and the check returns with the third point
    never compared with anything, whatever it declares.  The loop test reads
    the shortened length while [i] is already [j - deleted], so every removal
    costs the loop one iteration at the end. *)
Theorem C2_drop_leaves_a_point_unchecked
    (shape : Shape.t) (opt : ParseOptions) (p q r : ShapePoint.t) :
  Shape.Points shape = [p; q; r] ->
  ShapePoint.Has_dist p = true -> ShapePoint.Has_dist q = true ->
  SFltb (ShapePoint.Dist_traveled q) (ShapePoint.Dist_traveled p) = true ->
  DropErroneous opt = true -> UseDefValueOnError opt = false ->
  checkShapeMeasure shape opt
  = Some (Shape.with_Points shape [p; r], Returns None).
Proof.
  intros Hpts Hp Hq Hlt Hdrop Hdef. unfold checkShapeMeasure.
  rewrite Hpts. cbn [length for_loop elems].
  change (1 <? len [p; q; r]) with true. cbv iota.
  unfold shape_body at 1. cbn [deleted max elems].
  change (index [p; q; r] (1 - 0 - 1)) with (Some p).
  change (index [p; q; r] (1 - 0)) with (Some q).
  unfold ShapePoint.HasDistanceTraveled, gt. rewrite Hp, Hq, Hlt, Hdef, Hdrop.
  cbn [andb].
  change (remove_at [p; q; r] (1 - 0)) with (Some [p; r]). cbv iota.
  cbn [elems]. change (1 + 1 <? len [p; r]) with false. reflexivity.
Qed.

(** C2 at the points with the distances 10, 5, 3: the point with the
    distance 3, below the running maximum 10, is still there. *)
Lemma C2_witness :
  checkShapeMeasure
    {| Shape.Id := "s"; Shape.Points := [pt 1 10; pt 2 5; pt 3 3] |}
    (flags false true false)
  = Some ({| Shape.Id := "s"; Shape.Points := [pt 1 10; pt 3 3] |},
          Returns None)
  /\ SFltb (ShapePoint.Dist_traveled (pt 3 3))
           (ShapePoint.Dist_traveled (pt 1 10)) = true.
Proof.
  split; [| reflexivity].
  apply (C2_drop_leaves_a_point_unchecked
           {| Shape.Id := "s"; Shape.Points := [pt 1 10; pt 2 5; pt 3 3] |}
           (flags false true false) (pt 1 10) (pt 2 5) (pt 3 3));
    reflexivity.
Defined.

(** ** checkStopTimeMeasure: the temporal check *)

Section TemporalCheck.
Context {Time : Type} `{!TimeOps Time}.
Implicit Types (sts : list (StopTime.t Time)) (v : vars (StopTime.t Time)).

(** What the temporal check does with a violating pair. *)
Lemma time_part_violation id opt i v prev cur :
  index (elems v) (i - 1) = Some prev ->
  index (elems v) i = Some cur ->
  time_violation prev cur = true ->
  time_part id opt i v =
    if DropErroneous opt then
      Next (Vars (deleted v + 1) (max v) (delete (Z.to_nat i) (elems v)))
    else
      Leave (elems v)
        (Returns (Some (ArrivalBeforeDeparture id (StopTime.Sequence cur)))).
Proof.
  intros Hp Hc Hv. unfold time_part.
  rewrite (proj2 (arrival_before_departure_true (elems v) i)) by eauto.
  rewrite Hc. apply index_Some in Hc as [Hi _].
  by rewrite remove_at_delete by done.
Qed.

Lemma time_part_no_violation id opt i v prev cur :
  index (elems v) (i - 1) = Some prev ->
  index (elems v) i = Some cur ->
  time_violation prev cur = false ->
  time_part id opt i v = Next v.
Proof.
  intros Hp Hc Hv. unfold time_part.
  destruct (arrival_before_departure (elems v) i) as [[]|] eqn:E.
  - apply arrival_before_departure_true in E as (? & ? & ? & ? & ?).
    congruence.
  - done.
  - unfold arrival_before_departure in E. rewrite Hp, Hc in E.
    by destruct (negb _).
Qed.

Lemma time_violation_clear_l (a b : StopTime.t Time) :
  time_violation (StopTime.clear_dist a) b = time_violation a b.
Proof. done. Qed.

Lemma time_violation_clear_r (a b : StopTime.t Time) :
  time_violation a (StopTime.clear_dist b) = time_violation a b.
Proof. done. Qed.

Lemma no_violation_clear (a : StopTime.t Time) rest :
  no_violation (StopTime.clear_dist a) rest <-> no_violation a rest.
Proof. by destruct rest. Qed.

Lemma no_violation_lookup (prev : StopTime.t Time) rest (k : nat) a b :
  no_violation prev rest ->
  (prev :: rest) !! k = Some a -> (prev :: rest) !! S k = Some b ->
  time_violation a b = false.
Proof.
  revert prev k. induction rest as [|cur rest IH]; intros prev k H Ha Hb.
  - destruct k; simpl in *; done.
  - destruct H as [H1 H2]. destruct k as [|k]; simpl in *.
    + by simplify_eq.
    + by eapply IH.
Qed.

(** One iteration without [DropErroneous]: nothing moves; the body falls
    through only if the pair is in order, and an error it returns names
    the trip. *)
Lemma stoptime_body_nodrop id opt pre prev cur rest m :
  DropErroneous opt = false ->
  match stoptime_body id opt (len pre + 1)
          (Vars 0 m (pre ++ prev :: cur :: rest)) with
  | Next v' =>
      time_violation prev cur = false /\
      exists m' cur',
        v' = Vars 0 m' (pre ++ prev :: cur' :: rest) /\
        (cur' = cur \/ cur' = StopTime.clear_dist cur)
  | Leave s (Returns (Some e)) => named_id e = id
  | Leave s _ => False
  end.
Proof.
  intros Hdrop. unfold stoptime_body. cbn [deleted].
  replace (len pre + 1 - 0) with (len pre + 1) by lia.
  assert (Hp : index (pre ++ prev :: cur :: rest) (len pre + 1 - 1)
               = Some prev).
  { replace (len pre + 1 - 1) with (len pre) by lia.
    apply index_app_middle. }
  pose proof (index_app_next pre prev cur rest) as Hc.
  destruct (time_violation prev cur) eqn:Hv.
  - rewrite (time_part_violation id opt _ _ prev cur) by done.
    by rewrite Hdrop.
  - rewrite (time_part_no_violation id opt _ _ prev cur) by done.
    unfold dist_part. cbn [elems max deleted]. rewrite Hp, Hc.
    destruct (_ && _).
    + destruct (UseDefValueOnError opt).
      * split; [done |]. rewrite insert_app_next. eauto.
      * by rewrite Hdrop.
    + split; [done |]. eauto.
Qed.

Lemma stoptime_loop_nodrop id opt :
  DropErroneous opt = false ->
  forall rest pre prev m fuel,
    (length rest < fuel)%nat ->
    exists s o,
      for_loop (stoptime_body id opt) fuel (len pre + 1)
        (Vars 0 m (pre ++ prev :: rest)) = Some (s, o) /\
      match o with
      | Returns None => no_violation prev rest
      | Returns (Some e) => named_id e = id
      | Panics _ => False
      end.
Proof.
  intros Hdrop rest.
  induction rest as [|cur rest IH]; intros pre prev m fuel Hfuel;
    (destruct fuel as [|fuel]; [simpl in Hfuel; lia |]);
    cbn [for_loop elems].
  - rewrite (proj2 (Z.ltb_ge _ _));
      [| unfold len; rewrite length_app; simpl; lia].
    by eexists _, _.
  - rewrite (proj2 (Z.ltb_lt _ _));
      [| unfold len; rewrite length_app; simpl; lia].
    pose proof (stoptime_body_nodrop id opt pre prev cur rest m Hdrop) as Hb.
    destruct (stoptime_body _ _ _ _) as [v'|s [[e|]|p]]; try done.
    + destruct Hb as (Hv & m' & cur' & -> & Hcur').
      destruct (IH (pre ++ [prev]) cur' m' fuel) as (s & o & Hrun & Ho);
        [simpl in Hfuel; lia |].
      replace (len (pre ++ [prev])) with (len pre + 1) in Hrun
        by (unfold len; rewrite length_app; simpl; lia).
      rewrite <- !app_assoc in Hrun. simpl in Hrun.
      exists s, o. split; [done |].
      destruct o as [[e|]|p]; try done.
      cbn [no_violation]. split; [done |].
      destruct Hcur' as [-> | ->]; [done | by apply no_violation_clear].
    + by eexists _, _.
Qed.

(** The checks never write a time: the times that remain are, in order,
    times of the sequence the check was given. *)
Lemma stoptime_body_times id opt j v :
  match stoptime_body id opt j v with
  | Next v' => sublist (times <$> elems v') (times <$> elems v)
  | Leave s _ => sublist (times <$> s) (times <$> elems v)
  end.
Proof.
  assert (Hclear : forall sts (n : nat) cur,
            sts !! n = Some cur ->
            times <$> <[n := StopTime.clear_dist cur]> sts = times <$> sts).
  { intros sts n cur H. rewrite list_fmap_insert.
    apply list_insert_id. by rewrite list_lookup_fmap, H. }
  unfold stoptime_body.
  assert (H1 : match time_part id opt (j - deleted v) v with
               | Next v' => sublist (times <$> elems v') (times <$> elems v)
               | Leave s _ => s = elems v
               end).
  { unfold time_part.
    destruct (arrival_before_departure _ _) as [[]|] eqn:E; try done.
    apply arrival_before_departure_true in E as (? & cur & _ & Hc & _).
    rewrite Hc. apply index_Some in Hc as [Hi _].
    destruct (DropErroneous opt); [| done].
    rewrite remove_at_delete by done. simpl.
    apply fmap_sublist, sublist_delete. }
  destruct (time_part id opt (j - deleted v) v) as [v1|]; [| by subst].
  unfold dist_part.
  destruct (index (elems v1) (j - deleted v - 1)); [| done].
  destruct (index (elems v1) (j - deleted v)) as [cur|] eqn:Hc; [| done].
  apply index_Some in Hc as [Hi Hc].
  destruct (_ && _); [| done].
  destruct (UseDefValueOnError opt); [simpl; by rewrite Hclear |].
  destruct (DropErroneous opt); [| done].
  rewrite remove_at_delete by done. simpl.
  etrans; [| done]. apply fmap_sublist, sublist_delete.
Qed.
End TemporalCheck.

(** C9 fails on the code.  With drop_erroneous set, take any trip of two
    stop-times of which the second arrives before the first departs: the
    temporal check removes the second, and the distance check of the same
    iteration then reads [trip.StopTimes[1]] in a slice of length 1.  The
    check panics with an index out of range. *)
Theorem C9_drop_of_last_stop_time_panics
    {Time Frequency : Type} `{!TimeOps Time}
    (trip : Trip.t Time Frequency) (opt : ParseOptions)
    (a b : StopTime.t Time) :
  Trip.StopTimes trip = [a; b] ->
  time_violation a b = true ->
  DropErroneous opt = true ->
  checkStopTimeMeasure trip opt
  = Some (Trip.with_StopTimes trip [a], Panics (IndexOutOfRange 1 1)).
Proof.
  intros Hsts Hv Hdrop. unfold checkStopTimeMeasure.
  rewrite Hsts. cbn [length for_loop elems].
  change (1 <? len [a; b]) with true. cbv iota.
  unfold stoptime_body. cbn [deleted].
  rewrite (time_part_violation _ _ (1 - 0) _ a b) by done.
  rewrite Hdrop. reflexivity.
Qed.

(** C9 at a trip whose second stop-time arrives at 09:00, after the first
    has left at 10:00. *)
Lemma C9_witness :
  checkStopTimeMeasure (trip_of "t" [st 1 0 36000; st 2 32400 32400])
    (flags false true false)
  = Some (trip_of "t" [st 1 0 36000], Panics (IndexOutOfRange 1 1)).
Proof.
  apply (C9_drop_of_last_stop_time_panics
           (trip_of "t" [st 1 0 36000; st 2 32400 32400])
           (flags false true false) (st 1 0 36000) (st 2 32400 32400));
    reflexivity.
Defined.





(** ** The reading loop *)

Lemma records_inv {S : Type} (P : S -> Prop)
    (body : gmap string string -> S -> flow S) :
  (forall r s, P s ->
     match body r s with Continue s' => P s' | Panic s' _ => P s' end) ->
  forall file line s line' s' r,
    P s -> records body file line s = (line', s', r) -> P s'.
Proof.
  intros Hbody file.
  induction file as [|[rec|msg] file IH]; intros line s line' s' r Hs Hrun;
    simpl in Hrun.
  - by simplify_eq.
  - specialize (Hbody rec s Hs). destruct (body rec s) as [s1|s1 m].
    + eapply IH; [exact Hbody | exact Hrun].
    + by simplify_eq.
  - by simplify_eq.
Qed.

(** Two reading loops whose bodies go together stay together. *)
Lemma records_rel {S1 S2 : Type} (R : S1 -> S2 -> Prop)
    (body1 : gmap string string -> S1 -> flow S1)
    (body2 : gmap string string -> S2 -> flow S2) :
  (forall rec s1 s2, R s1 s2 ->
     match body1 rec s1, body2 rec s2 with
     | Continue a, Continue b => R a b
     | Panic a m, Panic b m' => R a b /\ m = m'
     | _, _ => False
     end) ->
  forall file line s1 s2,
    R s1 s2 ->
    exists line' t1 t2 r,
      records body1 file line s1 = (line', t1, r) /\
      records body2 file line s2 = (line', t2, r) /\ R t1 t2.
Proof.
  intros Hbody file.
  induction file as [|[rec|msg] file IH]; intros line s1 s2 HR; simpl.
  - by eexists _, _, _, _.
  - specialize (Hbody rec s1 s2 HR).
    destruct (body1 rec s1) as [a|a m], (body2 rec s2) as [b|b m'];
      try done.
    + by apply IH.
    + destruct Hbody as [? ->]. by eexists _, _, _, _.
  - by eexists _, _, _, _.
Qed.

(** ** The stages *)

Section PipelineFacts.
Context `{Ent : Entities} `{Mat : !Materializers} `{Ord : !MapOrder}.
Implicit Types (feed f : Feed) (path : location) (s : stage).

Local Ltac touch c := eapply rtc_r; [eassumption | apply c].

Local Ltac open_stage stage :=
  intros ?; simplify_eq; unfold stage; try unfold read_stops;
  destruct (getFile _ _) as [file|]; [| done];
  match goal with
  | |- context [records ?b ?fl ?l ?st] =>
      destruct (records b fl l st) as [[line' f1] r] eqn:Hrec
  end.

Lemma check_shapes_touches todo f f' o :
  check_shapes todo f = Some (f', o) -> rtc (touches StShapeCheck) f f'.
Proof.
  revert f. induction todo as [|id todo IH]; intros f H; simpl in H.
  - by simplify_eq.
  - destruct (Shapes f !! id) as [[shape|]|]; [| by simplify_eq | by eauto].
    destruct (checkShapeMeasure _ _) as [[shape' [[e|]|p]]|]; try done.
    + simplify_eq. apply rtc_once, touch_shapes. by right.
    + eapply rtc_l; [| by eapply IH]. apply touch_shapes. by right.
    + simplify_eq. apply rtc_once, touch_shapes. by right.
Qed.

Lemma check_trips_touches todo f f' o :
  check_trips todo f = Some (f', o) -> rtc (touches StStopTimeCheck) f f'.
Proof.
  revert f. induction todo as [|id todo IH]; intros f H; simpl in H.
  - by simplify_eq.
  - destruct (Trips f !! id) as [[t|]|] eqn:Ht;
      [| by simplify_eq | by eauto].
    unfold checkStopTimeMeasure in H.
    destruct (for_loop _ _ _ _) as [[sts [[e|]|p]]|]; try done; simpl in H.
    + simplify_eq. apply rtc_once. exact (touch_trip_check f id t sts Ht).
    + eapply rtc_l; [exact (touch_trip_check f id t sts Ht) |].
      destruct (DryRun (opts f)) eqn:Hdry.
      * eapply rtc_l; [| by eapply IH]. by apply touch_trip_clear.
      * by eapply IH.
    + simplify_eq. apply rtc_once. exact (touch_trip_check f id t sts Ht).
Qed.

(** Whatever a stage does to the feed is a sequence of its writes. *)
Lemma exec_touches s path f f' o :
  exec s path f = Some (f', o) -> rtc (touches s) f f'.
Proof.
  destruct s; cbn [exec]; unfold returns.
  - open_stage @parseAgencies.
    simpl. revert Hrec. apply records_inv; [| done].
    intros rec f0 Hf0. destruct (createAgency _ _).
    + touch touch_agency.
    + by destruct (DropErroneous _).
  - open_stage @parseFeedInfos.
    simpl. revert Hrec. apply records_inv; [| done].
    intros rec f0 Hf0. destruct (createFeedInfo _ _).
    + destruct (DryRun (opts f0)) eqn:E; simpl; [done |].
      touch touch_feed_info. done.
    + by destruct (DropErroneous _).
  - open_stage @parseStops.
    destruct f1 as [f1 parents].
    assert (rtc (touches StStops) f
              (fst match r with
                   | Some _ => (f1, recovered "stops.txt" line' r)
                   | None =>
                       let '(f2, r2) := link_parents (range parents) f1 in
                       (f2, recovered "stops.txt" line' r2)
                   end)) as H; [| by destruct r].
    assert (forall g,
              Stops g = Stops g -> rtc (touches StStops) f g ->
              forall stops, rtc (touches StStops) f (set_Stops g stops))
      as Hset by (intros; by touch touch_stops).
    assert (rtc (touches StStops) f f1) as H1.
    { change f1 with (fst (f1, parents)). revert Hrec.
      apply (records_inv (fun st => rtc (touches StStops) f (fst st)));
        [| done].
      intros rec [f0 ps] Hf0. simpl in *.
      destruct (createStop _ _); [by apply Hset |].
      by destruct (DropErroneous _). }
    destruct r; [done |].
    destruct (link_parents _ f1) as [f2 r2] eqn:Hl. simpl.
    clear Hrec. revert f1 H1 Hl.
    induction (range parents) as [|[id pid] todo IH]; intros f1 H1 Hl;
      simpl in Hl; [by simplify_eq |].
    assert (forall ps g,
              rtc (touches StStops) f g ->
              match assign_parent id ps g with
              | Continue feed' => link_parents todo feed'
              | Panic feed' msg => (feed', Some msg)
              end = (f2, r2) ->
              rtc (touches StStops) f f2) as Hassign.
    { intros ps g Hg. unfold assign_parent.
      destruct (Stops g !! id).
      - apply IH. by apply Hset.
      - by intros ?; simplify_eq. }
    destruct (Stops f1 !! pid); [by eapply Hassign |].
    destruct (UseDefValueOnError _); [by eapply IH |].
    destruct (DropErroneous _); [| by simplify_eq].
    eapply Hassign; [| done]. by apply Hset.
  - open_stage @parseShapes.
    simpl. revert Hrec. apply records_inv; [| done].
    intros rec f0 Hf0. destruct (createShapePoint _ _ _) as [shapes e].
    assert (rtc (touches StShapes) f (set_Shapes f0 shapes))
      by (touch touch_shapes; by left).
    destruct e; [| done]. by destruct (DropErroneous _).
  - (* shape check *)
    unfold checkShapes.
    destruct (check_shapes _ f) as [[f1 [e|p]]|] eqn:Hc; [| | done].
    + apply check_shapes_touches in Hc.
      destruct (DryRun _); intros ?; simplify_eq; [| done].
      touch touch_shapes. by right.
    + apply check_shapes_touches in Hc. by intros ?; simplify_eq.
  - open_stage @parseRoutes.
    simpl. revert Hrec. apply records_inv; [| done].
    intros rec f0 Hf0. destruct (createRoute _ _ _).
    + pose proof (touch_route f0 a) as Ht.
      destruct (DryRun (opts f0)); touch Ht.
    + by destruct (DropErroneous _).
  - open_stage @parseCalendar.
    simpl. revert Hrec. apply records_inv; [| done].
    intros rec f0 Hf0. unfold store_service.
    destruct (createServiceFromCalendar _ _ _).
    + by destruct (DropErroneous _).
    + pose proof (touch_service_new StCalendar f0 a (or_introl eq_refl))
        as Ht.
      destruct (DryRun (opts f0)); touch Ht.
    + touch touch_service_upd. by left.
  - open_stage @parseCalendarDates.
    simpl. revert Hrec. apply records_inv; [| done].
    intros rec f0 Hf0. unfold store_service.
    destruct (createServiceFromCalendarDates _ _).
    + by destruct (DropErroneous _).
    + pose proof (touch_service_new StCalendarDates f0 a
                    (or_intror eq_refl)) as Ht.
      destruct (DryRun (opts f0)); touch Ht.
    + touch touch_service_upd. by right.
  - open_stage @parseTrips.
    simpl. revert Hrec. apply records_inv; [| done].
    intros rec f0 Hf0. destruct (createTrip _ _ _ _ _).
    + touch touch_trip.
    + by destruct (DropErroneous _).
  - open_stage @parseStopTimes.
    simpl. revert Hrec. apply records_inv; [| done].
    intros rec f0 Hf0. destruct (createStopTime _ _ _ _) as [[id x]|].
    + touch touch_trip_upd; [by left | done].
    + by destruct (DropErroneous _).
  - (* stop-time check *)
    apply check_trips_touches.
  - open_stage @parseFareAttributes.
    simpl. revert Hrec. apply records_inv; [| done].
    intros rec f0 Hf0. destruct (createFareAttribute _ _).
    + touch touch_fare.
    + by destruct (DropErroneous _).
  - open_stage @parseFareAttributeRules.
    simpl. revert Hrec. apply records_inv; [| done].
    intros rec f0 Hf0. destruct (createFareRule _ _ _) as [[id g]|].
    + touch touch_fare_rule.
    + by destruct (DropErroneous _).
  - open_stage @parseFrequencies.
    simpl. revert Hrec. apply records_inv; [| done].
    intros rec f0 Hf0. destruct (createFrequency _ _ _) as [[id x]|].
    + touch touch_trip_upd; [by right | done].
    + by destruct (DropErroneous _).
  - open_stage @parseTransfers.
    simpl. revert Hrec. apply records_inv; [| done].
    intros rec f0 Hf0. destruct (createTransfer _ _ _).
    + destruct (DryRun (opts f0)) eqn:E; simpl; [done |].
      touch touch_transfer. done.
    + by destruct (DropErroneous _).
Qed.

(** ** The orchestrator *)

Lemma run_stages_None path l :
  foldl (fun acc s => acc ≫= guarded s path) None l = None.
Proof. by induction l. Qed.

Lemma run_stages_cons path s l r :
  run_stages path (s :: l) r = guarded s path r ≫= run_stages path l.
Proof.
  unfold run_stages. simpl. destruct (guarded s path r); simpl; [done |].
  apply run_stages_None.
Qed.

Lemma run_stages_app path l1 l2 r :
  run_stages path (l1 ++ l2) r
  = run_stages path l1 r ≫= run_stages path l2.
Proof.
  unfold run_stages. rewrite foldl_app.
  destruct (foldl _ (Some r) l1); simpl; [done |]. apply run_stages_None.
Qed.

Lemma Parse_run_stages path feed :
  Parse path feed = run_stages path stage_order (Run feed (Returns None) []).
Proof.
  unfold Parse, stage_order.
  repeat (rewrite run_stages_cons;
          match goal with
          | |- context [guarded ?s ?p ?r] => destruct (guarded s p r)
          end; simpl; [| done]).
  done.
Qed.

(** Once [e] is not nil, or the call unwinds, no stage is entered. *)
Lemma guarded_skip s path r :
  status r <> Returns None -> guarded s path r = Some r.
Proof. unfold guarded. by destruct (status r) as [[e|]|p]. Qed.

Lemma run_stages_skip path l r :
  status r <> Returns None -> run_stages path l r = Some r.
Proof.
  intros H. induction l as [|s l IH]; [done |].
  by rewrite run_stages_cons, guarded_skip.
Qed.

Lemma guarded_exec s path r feed' o :
  status r = Returns None ->
  exec s path (feed_of r) = Some (feed', o) ->
  guarded s path r = Some (Run feed' o (entered r ++ [s])).
Proof. unfold guarded. by intros -> ->. Qed.

(** A run that ends with [e == nil] has entered every stage, and every
    stage has returned nil. *)
Lemma run_stages_success path l r r' :
  run_stages path l r = Some r' -> status r' = Returns None ->
  status r = Returns None /\ entered r' = entered r ++ l /\
  forall s, s ∈ l ->
    exists f f', exec s path f = Some (f', Returns None).
Proof.
  revert r. induction l as [|s l IH]; intros r Hrun Hok.
  - unfold run_stages in Hrun. simpl in Hrun. simplify_eq.
    rewrite app_nil_r. split; [done |]. split; [done |].
    by intros s Hs%elem_of_nil.
  - rewrite run_stages_cons in Hrun.
    destruct (guarded s path r) as [r1|] eqn:Hg; [| done]. simpl in Hrun.
    destruct (IH r1 Hrun Hok) as (H1 & H2 & H3).
    unfold guarded in Hg.
    destruct (status r) as [[e|]|p] eqn:Hst; try (simplify_eq; congruence).
    destruct (exec s path (feed_of r)) as [[f o]|] eqn:Hex; [| done].
    simplify_eq. simpl in *. subst o.
    split; [done |]. split; [by rewrite H2, <- app_assoc |].
    intros s' [-> | Hs']%elem_of_cons; [eauto | auto].
Qed.

Lemma check_shapes_total todo f : is_Some (check_shapes todo f).
Proof.
  revert f. induction todo as [|id todo IH]; intros f; simpl; [eauto |].
  destruct (Shapes f !! id) as [[shape|]|]; [| eauto | eauto].
  destruct (checkShapeMeasure_total
              (Shape.with_Points shape
                 (sort_by ShapePoint.Sequence (Shape.Points shape)))
              (opts f)) as [[shape' [[e|]|p]] ->]; eauto.
Qed.

Lemma check_trips_total todo f : is_Some (check_trips todo f).
Proof.
  revert f. induction todo as [|id todo IH]; intros f; simpl; [eauto |].
  destruct (Trips f !! id) as [[t|]|]; [| eauto | eauto].
  destruct (checkStopTimeMeasure_total
              (Trip.with_StopTimes t
                 (sort_by StopTime.Sequence (Trip.StopTimes t)))
              (opts f)) as [[t' [[e|]|p]] ->]; eauto.
  destruct (DryRun _); eauto.
Qed.

(** Every stage ends. *)
Lemma exec_total s path f : is_Some (exec s path f).
Proof.
  destruct s; cbn [exec]; unfold returns; eauto.
  - unfold checkShapes.
    destruct (check_shapes_total (fst <$> range (Shapes f)) f)
      as [[f1 [e|p]] ->]; [| eauto].
    destruct (DryRun _); eauto.
  - apply check_trips_total.
Qed.

Lemma run_stages_total path l r : is_Some (run_stages path l r).
Proof.
  revert r. induction l as [|s l IH]; intros r; [by eexists |].
  rewrite run_stages_cons. unfold guarded.
  destruct (status r) as [[e|]|p]; simpl; auto.
  destruct (exec_total s path (feed_of r)) as [[f o] ->]. simpl. auto.
Qed.

(** Parse always ends: it returns or it panics. *)
Lemma Parse_total path feed : is_Some (Parse path feed).
Proof. rewrite Parse_run_stages. apply run_stages_total. Qed.

(** What every write of every stage preserves holds of the feed [Parse]
    leaves. *)
Lemma run_stages_inv (P : Feed -> Prop) path l r r' :
  (forall s f f', touches s f f' -> P f -> P f') ->
  P (feed_of r) -> run_stages path l r = Some r' -> P (feed_of r').
Proof.
  intros HP. revert r. induction l as [|s l IH]; intros r Hr Hrun.
  - unfold run_stages in Hrun. simpl in Hrun. by simplify_eq.
  - rewrite run_stages_cons in Hrun.
    destruct (guarded s path r) as [r1|] eqn:Hg; [| done]. simpl in Hrun.
    apply (IH r1); [| done].
    unfold guarded in Hg.
    destruct (status r) as [[e|]|p]; try by simplify_eq.
    destruct (exec s path (feed_of r)) as [[f o]|] eqn:Hex; [| done].
    simplify_eq. simpl. apply exec_touches in Hex.
    induction Hex; eauto.
Qed.

Lemma Parse_inv (P : Feed -> Prop) path feed r :
  (forall s f f', touches s f f' -> P f -> P f') ->
  P feed -> Parse path feed = Some r -> P (feed_of r).
Proof. intros HP Hf. rewrite Parse_run_stages. by apply run_stages_inv. Qed.

(** A stage that returns an error after stages that returned nil ends the
    run: the stages after it are skipped. *)
Lemma Parse_stops_at_error path feed pre post s r1 feed' e :
  stage_order = pre ++ s :: post ->
  run_stages path pre (Run feed (Returns None) []) = Some r1 ->
  status r1 = Returns None ->
  exec s path (feed_of r1) = Some (feed', Returns (Some e)) ->
  Parse path feed = Some (Run feed' (Returns (Some e)) (pre ++ [s])).
Proof.
  intros Horder Hpre Hok Hexec.
  rewrite Parse_run_stages, Horder, run_stages_app, Hpre. simpl.
  rewrite run_stages_cons, (guarded_exec _ _ _ feed' (Returns (Some e)))
    by done.
  simpl. rewrite run_stages_skip by done.
  destruct (run_stages_success _ _ _ _ Hpre Hok) as (_ & -> & _). done.
Qed.

(** C1: if the stages before [s] all return nil and [s] returns the error
    [e], then [Parse] returns [e] and has entered the stages up to [s] and
    none of those after it. *)
Theorem C1_parse_halts_at_first_failure
    (path : location) (feed : Feed) (pre post : list stage) (s : stage)
    (r1 : run) (feed' : Feed) (e : error) :
  stage_order = pre ++ s :: post ->
  run_stages path pre (Run feed (Returns None) []) = Some r1 ->
  status r1 = Returns None ->
  exec s path (feed_of r1) = Some (feed', Returns (Some e)) ->
  Parse path feed = Some (Run feed' (Returns (Some e)) (pre ++ [s])).
Proof. apply Parse_stops_at_error. Qed.

(** C6, as amended: when one of agency.txt, stops.txt, routes.txt,
    trips.txt and stop_times.txt is absent, the parse ends without
    success; when the file of one of the other stages is absent
    (calendar.txt and calendar_dates.txt among them, each on its own and
    both together), that stage returns nil and leaves the feed as it
    is. *)
Theorem C6_required_and_optional_files (path : location) (feed : Feed) :
  (forall name, name ∈ required_files -> getFile path name = None ->
     exists r, Parse path feed = Some r /\ status r <> Returns None) /\
  (forall s name, (s, name) ∈ optional_files -> getFile path name = None ->
     exec s path feed = Some (feed, Returns None)).
Proof.
  split.
  - intros name Hname Hfile.
    destruct (Parse_total path feed) as [r Hr]. exists r. split; [done |].
    intros Hok. rewrite Parse_run_stages in Hr.
    destruct (run_stages_success _ _ _ _ Hr Hok) as (_ & _ & Hall).
    unfold required_files in Hname.
    repeat (apply elem_of_cons in Hname as [-> | Hname]);
      [| | | | | by apply elem_of_nil in Hname].
    + destruct (Hall StAgencies) as (f & f' & Hex);
        [unfold stage_order; by repeat constructor |].
      cbn [exec] in Hex. unfold returns, parseAgencies in Hex.
      by rewrite Hfile in Hex.
    + destruct (Hall StStops) as (f & f' & Hex);
        [unfold stage_order; by repeat constructor |].
      cbn [exec] in Hex. unfold returns, parseStops in Hex.
      by rewrite Hfile in Hex.
    + destruct (Hall StRoutes) as (f & f' & Hex);
        [unfold stage_order; by repeat constructor |].
      cbn [exec] in Hex. unfold returns, parseRoutes in Hex.
      by rewrite Hfile in Hex.
    + destruct (Hall StTrips) as (f & f' & Hex);
        [unfold stage_order; by repeat constructor |].
      cbn [exec] in Hex. unfold returns, parseTrips in Hex.
      by rewrite Hfile in Hex.
    + destruct (Hall StStopTimes) as (f & f' & Hex);
        [unfold stage_order; by repeat constructor |].
      cbn [exec] in Hex. unfold returns, parseStopTimes in Hex.
      by rewrite Hfile in Hex.
  - intros s name Hs Hfile. unfold optional_files in Hs.
    repeat (apply elem_of_cons in Hs as [? | Hs]; [simplify_eq |]);
      [.. | by apply elem_of_nil in Hs]; cbn [exec]; unfold returns.
    + unfold parseShapes. by rewrite Hfile.
    + unfold parseFareAttributes. by rewrite Hfile.
    + unfold parseFareAttributeRules. by rewrite Hfile.
    + unfold parseFrequencies. by rewrite Hfile.
    + unfold parseTransfers. by rewrite Hfile.
    + unfold parseFeedInfos. by rewrite Hfile.
    + unfold parseCalendar. by rewrite Hfile.
    + unfold parseCalendarDates. by rewrite Hfile.
Qed.
(** A successful run keeps what every successful stage keeps. *)
Lemma run_stages_success_inv (P : Feed -> Prop) path l r r' :
  (forall s f f', s ∈ l -> P f ->
     exec s path f = Some (f', Returns None) -> P f') ->
  P (feed_of r) -> run_stages path l r = Some r' ->
  status r' = Returns None -> P (feed_of r').
Proof.
  revert r. induction l as [|s l IH]; intros r HP Hr Hrun Hok.
  - unfold run_stages in Hrun. simpl in Hrun. by simplify_eq.
  - rewrite run_stages_cons in Hrun.
    destruct (guarded s path r) as [r1|] eqn:Hg; [| done]. simpl in Hrun.
    destruct (run_stages_success _ _ _ _ Hrun Hok) as (Hok1 & _ & _).
    apply (IH r1); [| | done | done].
    + intros s' f f' Hs'. apply HP. by right.
    + unfold guarded in Hg.
      destruct (status r) as [[e|]|p]; try by simplify_eq.
      destruct (exec s path (feed_of r)) as [[f o]|] eqn:Hex; [| done].
      simplify_eq. simpl in *. subst o. eapply HP; [by left | done..].
Qed.

(** What the writes of the stages of [l] preserve holds after them. *)
Lemma run_stages_inv_in (P : Feed -> Prop) path l r r' :
  (forall s f f', s ∈ l -> touches s f f' -> P f -> P f') ->
  P (feed_of r) -> run_stages path l r = Some r' -> P (feed_of r').
Proof.
  revert r. induction l as [|s l IH]; intros r HP Hr Hrun.
  - unfold run_stages in Hrun. simpl in Hrun. by simplify_eq.
  - rewrite run_stages_cons in Hrun.
    destruct (guarded s path r) as [r1|] eqn:Hg; [| done]. simpl in Hrun.
    apply (IH r1); [| | done].
    + intros s' f f' Hs'. apply HP. by right.
    + unfold guarded in Hg.
      destruct (status r) as [[e|]|p]; try by simplify_eq.
      destruct (exec s path (feed_of r)) as [[f o]|] eqn:Hex; [| done].
      simplify_eq. simpl. apply exec_touches in Hex.
      assert (forall a b, rtc (touches s) a b -> P a -> P b) as Hrtc.
      { induction 1 as [|a b c Hab _ IHbc]; [done |].
        intros Ha. apply IHbc. eapply HP; [by left | done..]. }
      by eapply Hrtc.
Qed.

(** Only the stop stage writes to the stop table. *)
Lemma touches_Stops s f f' :
  s <> StStops -> touches s f f' -> Stops f' = Stops f.
Proof. by destruct 2. Qed.

(** ** The parent links of the stops *)

Lemma parents_ok_insert_new stops (s : Stop.t) :
  Stop.Parent_station s = None ->
  parents_ok stops -> parents_ok (<[Stop.Id s := s]> stops).
Proof.
  intros Hs Hok id s' pid Hl Hp.
  destruct (decide (Stop.Id s = id)) as [<- | Hne].
  - rewrite lookup_insert_eq in Hl. by simplify_eq.
  - rewrite lookup_insert_ne in Hl by done.
    destruct (Hok id s' pid Hl Hp) as [x Hx].
    destruct (decide (Stop.Id s = pid)) as [<- | Hne'].
    + rewrite lookup_insert_eq. eauto.
    + rewrite lookup_insert_ne by done. eauto.
Qed.

Lemma parents_ok_link stops id pid (s : Stop.t) :
  is_Some (stops !! pid) -> is_Some (stops !! id) ->
  parents_ok stops ->
  parents_ok (<[id := Stop.with_Parent_station s (Some pid)]> stops).
Proof.
  intros Hpid Hid Hok id' s' pid' Hl Hp.
  assert (forall k, is_Some (stops !! k) ->
            is_Some (<[id := Stop.with_Parent_station s (Some pid)]> stops
                       !! k)) as Hkeep.
  { intros k Hk. destruct (decide (id = k)) as [<- | Hne].
    - rewrite lookup_insert_eq. eauto.
    - by rewrite lookup_insert_ne. }
  apply Hkeep.
  destruct (decide (id = id')) as [<- | Hne].
  - rewrite lookup_insert_eq in Hl. simplify_eq. simpl in Hp. by simplify_eq.
  - rewrite lookup_insert_ne in Hl by done. by eapply Hok.
Qed.

(** The linking pass, when it ends without a panic, leaves every parent
    reference resolved. *)
Lemma link_parents_ok todo f f' :
  parents_ok (Stops f) -> link_parents todo f = (f', None) ->
  parents_ok (Stops f').
Proof.
  revert f. induction todo as [|[id pid] todo IH]; intros f Hok Hl;
    simpl in Hl; [by simplify_eq |].
  destruct (Stops f !! pid) as [p|] eqn:Hpid.
  - unfold assign_parent in Hl.
    destruct (Stops f !! id) as [s|] eqn:Hid; [| done].
    apply IH in Hl; [done |]. simpl. by apply parents_ok_link.
  - destruct (UseDefValueOnError _); [by eapply IH |].
    destruct (DropErroneous _); [| done].
    unfold assign_parent in Hl. simpl in Hl.
    by rewrite lookup_delete_eq in Hl.
Qed.

Lemma parseStops_parents_ok path f f' :
  (forall rec o (stop : Stop.t),
     createStop rec o = Ok stop -> Stop.Parent_station stop = None) ->
  parents_ok (Stops f) -> parseStops path f = (f', None) ->
  parents_ok (Stops f').
Proof.
  intros Hcreate Hok. unfold parseStops, read_stops.
  destruct (getFile _ _) as [file|]; [| done].
  destruct (records _ _ _ _) as [[line' [f1 parents]] r] eqn:Hrec.
  assert (parents_ok (Stops f1)) as H1.
  { change f1 with (fst (f1, parents)). revert Hrec.
    apply (records_inv (fun st => parents_ok (Stops (fst st)))); [| done].
    intros rec [f0 ps] Hf0. simpl in *.
    destruct (createStop rec (opts f0)) as [stop|e] eqn:Hs.
    - simpl. eapply parents_ok_insert_new; eauto.
    - by destruct (DropErroneous _). }
  destruct r; [done |].
  destruct (link_parents _ f1) as [f2 [msg|]] eqn:Hl; [done |].
  intros ?; simplify_eq. by eapply link_parents_ok.
Qed.

(** With [DropErroneous] and without [UseDefValueOnError], the linking
    pass panics as soon as one parent is unknown: the entry is deleted and
    the assignment that follows dereferences the nil it finds in its
    place. *)
Lemma link_parents_drop_panics todo f :
  DropErroneous (opts f) = true -> UseDefValueOnError (opts f) = false ->
  (forall id pid, (id, pid) ∈ todo -> is_Some (Stops f !! id)) ->
  (exists id pid, (id, pid) ∈ todo /\ Stops f !! pid = None) ->
  exists f' id pid,
    (id, pid) ∈ todo /\ Stops f !! pid = None /\ Stops f' !! id = None /\
    link_parents todo f = (f', Some nil_dereference).
Proof.
  revert f.
  induction todo as [|[id pid] todo IH]; intros f Hdrop Hdef Hids Hdang.
  - destruct Hdang as (? & ? & []%elem_of_nil & _).
  - simpl. destruct (Stops f !! pid) as [p|] eqn:Hpid.
    + unfold assign_parent.
      destruct (Hids id pid) as [st Hst]; [by left |]. rewrite Hst.
      destruct (IH (set_Stops f
                      (<[id := Stop.with_Parent_station st (Some pid)]>
                         (Stops f))))
        as (f' & id' & pid' & Hin & Hnone & Hgone & Hl); simpl; try done.
      * intros id' pid' Hin. destruct (Hids id' pid') as [x Hx]; [by right |].
        destruct (decide (id = id')) as [<- | Hne].
        -- rewrite lookup_insert_eq. eauto.
        -- rewrite lookup_insert_ne by done. eauto.
      * destruct Hdang as (id' & pid' & Hin & Hnone).
        apply elem_of_cons in Hin as [? | Hin]; [simplify_eq |].
        exists id', pid'. split; [done |].
        destruct (decide (id = pid')) as [<- | Hne]; [congruence |].
        by rewrite lookup_insert_ne.
      * exists f', id', pid'. split; [by right |]. split; [| done].
        simpl in Hnone.
        destruct (decide (id = pid')) as [<- | Hne].
        -- by rewrite lookup_insert_eq in Hnone.
        -- by rewrite lookup_insert_ne in Hnone.
    + rewrite Hdef, Hdrop. unfold assign_parent. simpl.
      rewrite lookup_delete_eq. eexists _, id, pid.
      split; [by left |]. split; [done |]. split; [| done].
      simpl. by rewrite lookup_delete_eq.
Qed.

(** Under the strict options, it panics with the message that names a stop
    whose parent is unknown. *)
Lemma link_parents_strict_names_stop todo f :
  DropErroneous (opts f) = false -> UseDefValueOnError (opts f) = false ->
  (forall id pid, (id, pid) ∈ todo -> is_Some (Stops f !! id)) ->
  (exists id pid, (id, pid) ∈ todo /\ Stops f !! pid = None) ->
  exists f' id pid,
    (id, pid) ∈ todo /\ Stops f !! pid = None /\
    link_parents todo f = (f', Some (no_parent_station id pid)).
Proof.
  revert f.
  induction todo as [|[id pid] todo IH]; intros f Hdrop Hdef Hids Hdang.
  - destruct Hdang as (? & ? & []%elem_of_nil & _).
  - simpl. destruct (Stops f !! pid) as [p|] eqn:Hpid.
    + unfold assign_parent.
      destruct (Hids id pid) as [st Hst]; [by left |]. rewrite Hst.
      destruct (IH (set_Stops f
                      (<[id := Stop.with_Parent_station st (Some pid)]>
                         (Stops f))))
        as (f' & id' & pid' & Hin & Hnone & Hl); simpl; try done.
      * intros id' pid' Hin. destruct (Hids id' pid') as [x Hx]; [by right |].
        destruct (decide (id = id')) as [<- | Hne].
        -- rewrite lookup_insert_eq. eauto.
        -- rewrite lookup_insert_ne by done. eauto.
      * destruct Hdang as (id' & pid' & Hin & Hnone).
        apply elem_of_cons in Hin as [? | Hin]; [simplify_eq |].
        exists id', pid'. split; [done |].
        destruct (decide (id = pid')) as [<- | Hne]; [congruence |].
        by rewrite lookup_insert_ne.
      * exists f', id', pid'. split; [by right |]. split; [| done].
        simpl in Hnone.
        destruct (decide (id = pid')) as [<- | Hne].
        -- by rewrite lookup_insert_eq in Hnone.
        -- by rewrite lookup_insert_ne in Hnone.
    + rewrite Hdef, Hdrop. exists f, id, pid. split; [by left | done].
Qed.

(** With [UseDefValueOnError] the linking pass never panics, and it leaves
    alone every stop whose parent is unknown. *)
Lemma link_parents_default todo f :
  UseDefValueOnError (opts f) = true ->
  (forall id pid, (id, pid) ∈ todo -> is_Some (Stops f !! id)) ->
  NoDup (fst <$> todo) ->
  exists f',
    link_parents todo f = (f', None) /\
    forall id pid,
      (id, pid) ∈ todo -> Stops f !! pid = None ->
      Stops f' !! id = Stops f !! id.
Proof.
  assert (forall todo f f' id,
            link_parents todo f = (f', None) -> id ∉ fst <$> todo ->
            Stops f' !! id = Stops f !! id) as Hother.
  { clear. intros todo. induction todo as [|[id0 pid0] todo IH];
      intros f f' id Hl Hid; simpl in Hl; [by simplify_eq |].
    apply not_elem_of_cons in Hid as [Hne Hid]. simpl in Hne.
    assert (forall ps g,
              Stops g !! id = Stops f !! id ->
              match assign_parent id0 ps g with
              | Continue feed' => link_parents todo feed'
              | Panic feed' msg => (feed', Some msg)
              end = (f', None) ->
              Stops f' !! id = Stops f !! id) as Hassign.
    { intros ps g Hg. unfold assign_parent.
      destruct (Stops g !! id0); [| done].
      intros Hl'. apply (IH _ _ id) in Hl'; [| done]. rewrite Hl'. simpl.
      by rewrite lookup_insert_ne. }
    destruct (Stops f !! pid0).
    - revert Hl. by apply Hassign.
    - destruct (UseDefValueOnError _); [by apply IH |].
      destruct (DropErroneous _); [| done].
      revert Hl. apply Hassign. simpl. by rewrite lookup_delete_ne. }
  revert f. induction todo as [|[id0 pid0] todo IH]; intros f Hdef Hids Hnd.
  - exists f. split; [done |]. by intros ? ? ?%elem_of_nil.
  - apply NoDup_cons in Hnd as [Hfresh Hnd]. simpl in Hfresh. simpl.
    destruct (Stops f !! pid0) as [p|] eqn:Hpid.
    + unfold assign_parent.
      destruct (Hids id0 pid0) as [st Hst]; [by left |]. rewrite Hst.
      destruct (IH (set_Stops f
                      (<[id0 := Stop.with_Parent_station st (Some pid0)]>
                         (Stops f)))) as (f' & Hl & Hkept); simpl; try done.
      * intros id' pid' Hin. destruct (Hids id' pid') as [x Hx]; [by right |].
        destruct (decide (id0 = id')) as [<- | Hne].
        -- rewrite lookup_insert_eq. eauto.
        -- rewrite lookup_insert_ne by done. eauto.
      * exists f'. split; [done |]. intros id pid Hin Hnone.
        apply elem_of_cons in Hin as [? | Hin]; [simplify_eq |].
        assert (id0 <> id) as Hne.
        { intros <-. apply Hfresh, list_elem_of_fmap. by exists (id0, pid). }
        rewrite (Hkept id pid Hin); simpl.
        -- by rewrite lookup_insert_ne.
        -- destruct (decide (id0 = pid)) as [<- | Hne']; [congruence |].
           by rewrite lookup_insert_ne.
    + rewrite Hdef.
      destruct (IH f) as (f' & Hl & Hkept); try done.
      * intros id' pid' Hin. apply (Hids id' pid'). by right.
      * exists f'. split; [done |]. intros id pid Hin Hnone.
        apply elem_of_cons in Hin as [? | Hin]; [simplify_eq | by eauto].
        by apply (Hother todo f f').
Qed.

(** The entries of an iteration are the entries of the map, each key
    once. *)
Lemma range_elem {A : Type} (m : gmap string A) k v :
  (k, v) ∈ range m <-> m !! k = Some v.
Proof. rewrite range_perm. apply elem_of_map_to_list. Qed.

Lemma range_NoDup {A : Type} (m : gmap string A) : NoDup (fst <$> range m).
Proof. rewrite range_perm. apply NoDup_fst_map_to_list. Qed.

(** The first loop of [parseStops] leaves the options alone and stores a
    stop under every id for which it keeps a parent id. *)
Lemma read_stops_inv file feed line f1 parents r :
  read_stops file feed = (line, (f1, parents), r) ->
  opts f1 = opts feed /\
  forall id pid, parents !! id = Some pid -> is_Some (Stops f1 !! id).
Proof.
  unfold read_stops. intros Hrec.
  change (opts (fst (f1, parents)) = opts feed /\
          forall id pid,
            snd (f1, parents) !! id = Some pid ->
            is_Some (Stops (fst (f1, parents)) !! id)).
  revert Hrec.
  apply (records_inv
           (fun st => opts (fst st) = opts feed /\
                      forall id pid,
                        snd st !! id = Some pid ->
                        is_Some (Stops (fst st) !! id))).
  - intros rec [f0 ps] [Ho Hps]. simpl in *.
    destruct (createStop rec (opts f0)) as [stop|e].
    + simpl. split; [done |]. intros id pid Hl.
      destruct (decide (Stop.Id stop = id)) as [<- | Hne];
        [rewrite lookup_insert_eq; eauto |].
      rewrite lookup_insert_ne by done. apply (Hps id pid).
      destruct (rec !! "parent_station") as [v|]; [| done].
      destruct (0 <? Z.of_nat (String.length v)); [| done].
      by rewrite lookup_insert_ne in Hl.
    + by destruct (DropErroneous _).
  - simpl. split; [done |]. intros id pid Hl. by rewrite lookup_empty in Hl.
Qed.

(** C3, part by part, for every stops.txt that is read without error and
    leaves a stop [id] whose parent station [pid] is not among the stops,
    the agencies and the feed infos having been parsed before.  Under the
    strict options the parse fails with the error that names a stop whose
    parent is unknown.  With use_default_on_error the stop stage returns nil
    and the stop is in the feed as it was read.  With drop_erroneous (and no
    use_default_on_error) a stop whose parent is unknown is deleted - and
    the parse fails all the same: the assignment after the deletion
    dereferences nil, and the recovered panic is returned as the error of
    stops.txt.  This last part is where the code departs from C3. *)
Theorem C3_drop_of_dangling_parent_fails
    (path : location) (feed : Feed) (r2 : run) (file : file) (line : Z)
    (f1 : Feed) (parents : gmap string string) (id pid : string) :
  run_stages path [StAgencies; StFeedInfos] (Run feed (Returns None) [])
    = Some r2 ->
  status r2 = Returns None ->
  getFile path "stops.txt" = Some file ->
  read_stops file (feed_of r2) = (line, (f1, parents), None) ->
  parents !! id = Some pid -> Stops f1 !! pid = None ->
  (UseDefValueOnError (opts (feed_of r2)) = false ->
   DropErroneous (opts (feed_of r2)) = false ->
   exists f' id' pid',
     parents !! id' = Some pid' /\ Stops f1 !! pid' = None /\
     Parse path feed
     = Some (Run f'
               (Returns (Some (ParseError "stops.txt" line
                                 (no_parent_station id' pid'))))
               [StAgencies; StFeedInfos; StStops])) /\
  (UseDefValueOnError (opts (feed_of r2)) = true ->
   exists f',
     exec StStops path (feed_of r2) = Some (f', Returns None) /\
     Stops f' !! id = Stops f1 !! id) /\
  (UseDefValueOnError (opts (feed_of r2)) = false ->
   DropErroneous (opts (feed_of r2)) = true ->
   exists f' id' pid',
     parents !! id' = Some pid' /\ Stops f1 !! pid' = None /\
     Stops f' !! id' = None /\
     Parse path feed
     = Some (Run f'
               (Returns (Some (ParseError "stops.txt" line nil_dereference)))
               [StAgencies; StFeedInfos; StStops])).
Proof.
  intros Hpre Hok Hfile Hread Hid Hpid.
  destruct (read_stops_inv _ _ _ _ _ _ Hread) as [Ho Hids].
  assert (forall id pid, (id, pid) ∈ range parents -> is_Some (Stops f1 !! id))
    as Hids' by (intros ? ? ?%range_elem; eauto).
  assert (exists id pid, (id, pid) ∈ range parents /\ Stops f1 !! pid = None)
    as Hdang by (exists id, pid; by rewrite range_elem).
  assert (forall f' e,
            link_parents (range parents) f1 = (f', e) ->
            exec StStops path (feed_of r2)
            = Some (f', Returns (recovered "stops.txt" line e))) as Hexec.
  { intros f' e Hl. cbn [exec]. unfold returns, parseStops.
    by rewrite Hfile, Hread, Hl. }
  split; [| split].
  - intros Hdef Hdrop. rewrite <- Ho in Hdef, Hdrop.
    destruct (link_parents_strict_names_stop _ _ Hdrop Hdef Hids' Hdang)
      as (f' & id' & pid' & Hin & Hnone & Hl).
    exists f', id', pid'. split; [by apply range_elem |]. split; [done |].
    apply (Parse_stops_at_error path feed [StAgencies; StFeedInfos]
             [StShapes; StShapeCheck; StRoutes; StCalendar; StCalendarDates;
              StTrips; StStopTimes; StStopTimeCheck; StFareAttributes;
              StFareRules; StFrequencies; StTransfers] StStops r2);
      [done | done | done |].
    by apply Hexec in Hl.
  - intros Hdef. rewrite <- Ho in Hdef.
    destruct (link_parents_default _ _ Hdef Hids' (range_NoDup parents))
      as (f' & Hl & Hkept).
    exists f'. split; [by apply Hexec in Hl |].
    apply (Hkept id pid); [by apply range_elem | done].
  - intros Hdef Hdrop. rewrite <- Ho in Hdef, Hdrop.
    destruct (link_parents_drop_panics _ _ Hdrop Hdef Hids' Hdang)
      as (f' & id' & pid' & Hin & Hnone & Hgone & Hl).
    exists f', id', pid'. split; [by apply range_elem |].
    split; [done |]. split; [done |].
    apply (Parse_stops_at_error path feed [StAgencies; StFeedInfos]
             [StShapes; StShapeCheck; StRoutes; StCalendar; StCalendarDates;
              StTrips; StStopTimes; StStopTimeCheck; StFareAttributes;
              StFareRules; StFrequencies; StTransfers] StStops r2);
      [done | done | done |].
    by apply Hexec in Hl.
Qed.

(** C8, as amended: in every feed produced by a successful parse into a new
    feed, the parent-station reference of every stop is absent or leads to a
    stop present in the same feed (which may be the stop itself).  The stop
    materializer is taken to write the nil parent, as the comment in the
    linking pass states. *)
Theorem C8_parent_station_resolves
    (path : location) (o : ParseOptions) (r : run) :
  (forall rec o' (stop : Stop.t),
     createStop rec o' = Ok stop -> Stop.Parent_station stop = None) ->
  Parse path (SetParseOpts NewFeed o) = Some r ->
  status r = Returns None ->
  forall (id : string) (stop : Stop.t),
    Stops (feed_of r) !! id = Some stop ->
    Stop.Parent_station stop = None \/
    exists pid p,
      Stop.Parent_station stop = Some pid /\
      Stops (feed_of r) !! pid = Some p.
Proof.
  intros Hcreate Hrun Hok id stop Hs. rewrite Parse_run_stages in Hrun.
  assert (parents_ok (Stops (feed_of r))) as Hpar.
  { eapply (run_stages_success_inv (fun f => parents_ok (Stops f)));
      [| | exact Hrun | exact Hok].
    - intros st f f' _ Hf Hex.
      destruct (decide (st = StStops)) as [-> | Hne].
      + cbn [exec] in Hex. unfold returns in Hex.
        destruct (parseStops path f) as [g e] eqn:Hp. simpl in Hex.
        simplify_eq. by eapply parseStops_parents_ok.
      + apply exec_touches in Hex.
        induction Hex as [|f1 f2 f3 Ht _ IH]; [done |].
        apply IH. by rewrite (touches_Stops _ _ _ Hne Ht).
    - intros ? ? ? Hl. simpl in Hl. by rewrite lookup_empty in Hl. }
  destruct (Stop.Parent_station stop) as [pid|] eqn:Hp; [| by left].
  right. destruct (Hpar id stop pid Hs Hp) as [p Hpid]. eauto.
Qed.
(** ** Dry runs *)

Lemma all_nil_insert {A : Type} (m : gmap string (option A)) k :
  all_nil m -> all_nil (<[k := None]> m).
Proof.
  intros Hm k' v. destruct (decide (k = k')) as [<- | Hne].
  - rewrite lookup_insert_eq. congruence.
  - rewrite lookup_insert_ne by done. apply Hm.
Qed.

Lemma all_nil_update {A : Type} (m : gmap string (option A)) k (g : A -> A) :
  all_nil m -> all_nil (update_at k g m).
Proof.
  intros Hm k' v. unfold update_at. destruct (decide (k = k')) as [<- | Hne].
  - rewrite lookup_alter_eq. destruct (m !! k) as [x|] eqn:E; [| done].
    rewrite (Hm k x E). simpl. congruence.
  - rewrite lookup_alter_ne by done. apply Hm.
Qed.

Lemma touches_dry_inv s f f' : touches s f f' -> dry_inv f -> dry_inv f'.
Proof.
  intros Ht (Hdry & Hr & Hs & Htr & Hfi & Hk).
  destruct Ht; unfold dry_inv; simpl; try done; try congruence.
  - rewrite Hdry. repeat split; try done. by apply all_nil_insert.
  - rewrite Hdry. repeat split; try done. by apply all_nil_insert.
  - repeat split; try done. by apply all_nil_update.
  - repeat split; try done. intros k v.
    destruct (decide (Trip.Id t = k)) as [<- | Hne].
    + rewrite lookup_insert_eq. intros ?; simplify_eq. right. eauto.
    + rewrite lookup_insert_ne by done. apply Hk.
  - repeat split; try done. intros k v. unfold update_at.
    destruct (decide (id = k)) as [<- | Hne].
    + rewrite lookup_alter_eq.
      destruct (Trips f !! id) as [x|] eqn:E; [| done]. simpl.
      intros ?; simplify_eq. destruct (Hk id x E) as [-> | (t & -> & Ht)].
      * by left.
      * right. exists (g t). split; [done |]. congruence.
    + rewrite lookup_alter_ne by done. apply Hk.
  - repeat split; try done. intros k v.
    destruct (decide (id = k)) as [<- | Hne].
    + rewrite lookup_insert_eq. intros ?; simplify_eq. right.
      eexists. split; [done |].
      destruct (Hk id (Some t)) as [? | (t' & ? & ?)]; by simplify_eq.
    + rewrite lookup_insert_ne by done. apply Hk.
  - repeat split; try done. intros k v.
    destruct (decide (id = k)) as [<- | Hne].
    + rewrite lookup_insert_eq. intros ?; simplify_eq. by left.
    + rewrite lookup_insert_ne by done. apply Hk.
Qed.

(** The iteration reaches every key of the map. *)
Lemma range_keys {A : Type} (m : gmap string A) k :
  is_Some (m !! k) -> k ∈ fst <$> range m.
Proof.
  intros [v Hv]. apply list_elem_of_fmap. exists (k, v). split; [done |].
  rewrite range_perm. by apply elem_of_map_to_list.
Qed.

(** The trip loop of a dry run, when it ends with nil, has cleared every
    trip it went through. *)
Lemma check_trips_dry todo f f' :
  DryRun (opts f) = true -> keyed (Trips f) ->
  check_trips todo f = Some (f', Returns None) ->
  keyed (Trips f') /\
  (forall k, is_Some (Trips f' !! k) -> is_Some (Trips f !! k)) /\
  (forall k, Trips f !! k = Some None -> Trips f' !! k = Some None) /\
  (forall k v, k ∈ todo -> Trips f' !! k = Some v -> v = None).
Proof.
  revert f. induction todo as [|id todo IH]; intros f Hdry Hk Hrun;
    simpl in Hrun.
  - simplify_eq. repeat split; try done. by intros k v Hin%elem_of_nil.
  - destruct (Trips f !! id) as [[t|]|] eqn:Hid; [| done |].
    + unfold checkStopTimeMeasure in Hrun.
      destruct (for_loop _ _ _ _) as [[sts [[e|]|p]]|]; try done.
      simpl in Hrun. rewrite Hdry in Hrun.
      assert (Trip.Id t = id) as Ht.
      { destruct (Hk id (Some t) Hid) as [? | (t' & ? & ?)]; by simplify_eq. }
      rewrite Ht, insert_insert_eq in Hrun.
      apply IH in Hrun as (H1 & H2 & H3 & H4); simpl; [| done |].
      * split; [done |]. split; [| split].
        -- intros k Hs. apply H2 in Hs. simpl in Hs.
           destruct (decide (id = k)) as [<- | Hne]; [eauto |].
           by rewrite lookup_insert_ne in Hs.
        -- intros k Hn. apply H3. simpl.
           destruct (decide (id = k)) as [<- | Hne]; [congruence |].
           by rewrite lookup_insert_ne.
        -- intros k v [-> | Hin]%elem_of_cons Hl; [| by eapply H4].
           rewrite (H3 id) in Hl; [congruence |]. simpl.
           by rewrite lookup_insert_eq.
      * intros k v. destruct (decide (id = k)) as [<- | Hne].
        -- rewrite lookup_insert_eq. intros ?; simplify_eq. by left.
        -- rewrite lookup_insert_ne by done. apply Hk.
    + apply IH in Hrun as (H1 & H2 & H3 & H4); [| done..].
      repeat split; try done.
      intros k v [-> | Hin]%elem_of_cons Hl; [| by eapply H4].
      destruct (H2 id) as [x Hx]; [eauto | congruence].
Qed.

Local Ltac stage_not_in H :=
  repeat (apply elem_of_cons in H as [? | H]; [done |]);
  by apply elem_of_nil in H.

Lemma touches_opts s f f' : touches s f f' -> opts f' = opts f.
Proof. by destruct 1. Qed.

Lemma touches_Shapes s f f' :
  s <> StShapes -> s <> StShapeCheck -> touches s f f' ->
  Shapes f' = Shapes f.
Proof. intros ? ? Ht. destruct Ht; try done. intuition congruence. Qed.

Lemma rtc_touches_opts s f f' : rtc (touches s) f f' -> opts f' = opts f.
Proof.
  induction 1 as [|a b c Hab _ IH]; [done |].
  by rewrite IH, (touches_opts _ _ _ Hab).
Qed.

(** A successful run of two lists of stages is a successful run of the
    first followed by a successful run of the second. *)
Lemma run_stages_success_app path l1 l2 r0 r :
  run_stages path (l1 ++ l2) r0 = Some r -> status r = Returns None ->
  exists r1,
    run_stages path l1 r0 = Some r1 /\ status r1 = Returns None /\
    run_stages path l2 r1 = Some r.
Proof.
  rewrite run_stages_app. intros Hrun Hok.
  destruct (run_stages path l1 r0) as [r1|]; [| done]. simpl in Hrun.
  exists r1. split; [done |]. split; [| done].
  by destruct (run_stages_success _ _ _ _ Hrun Hok) as (? & _).
Qed.

Lemma run_stages_success_one path s r0 r :
  run_stages path [s] r0 = Some r -> status r = Returns None ->
  status r0 = Returns None /\
  exec s path (feed_of r0) = Some (feed_of r, Returns None).
Proof.
  rewrite run_stages_cons. intros Hrun Hok.
  destruct (guarded s path r0) as [r1|] eqn:Hg; [| done].
  unfold run_stages in Hrun. simpl in Hrun. simplify_eq.
  unfold guarded in Hg.
  destruct (status r0) as [[e|]|p] eqn:Hst; try (simplify_eq; congruence).
  destruct (exec s path (feed_of r0)) as [[f o]|]; [| done].
  simplify_eq. simpl in *. by subst.
Qed.

(** The shape check of a dry run leaves only nil slots. *)
Lemma checkShapes_dry f f' e :
  DryRun (opts f) = true -> checkShapes f = Some (f', Returns e) ->
  all_nil (Shapes f').
Proof.
  intros Hdry. unfold checkShapes.
  destruct (check_shapes _ f) as [[f1 [e1|p]]|] eqn:Hc; [| done | done].
  apply check_shapes_touches, rtc_touches_opts in Hc. rewrite Hc, Hdry.
  intros ?; simplify_eq. simpl. intros k v.
  rewrite lookup_fmap.
  destruct (Shapes f1 !! k); simpl; intros ?; by simplify_eq.
Qed.

(** The stop-time check of a dry run, when it returns nil, leaves only nil
    slots. *)
Lemma checkStopTimes_dry f f' :
  dry_inv f -> checkStopTimes f = Some (f', Returns None) ->
  all_nil (Trips f').
Proof.
  intros (Hdry & _ & _ & _ & _ & Hk) Hrun. unfold checkStopTimes in Hrun.
  destruct (check_trips_dry _ _ _ Hdry Hk Hrun) as (_ & H2 & _ & H4).
  intros k v Hl. apply (H4 k v); [| done]. apply range_keys. eauto.
Qed.

(** After a successful dry run into a new feed, the shapes, routes,
    services and trips are nil slots, and no transfer and no feed info has
    been kept. *)
Lemma dry_run_clears path o r :
  DryRun o = true ->
  Parse path (SetParseOpts NewFeed o) = Some r ->
  status r = Returns None ->
  all_nil (Shapes (feed_of r)) /\ all_nil (Routes (feed_of r)) /\
  all_nil (Services (feed_of r)) /\ all_nil (Trips (feed_of r)) /\
  Transfers (feed_of r) = [] /\ FeedInfos (feed_of r) = [].
Proof.
  intros Hdry Hrun Hok.
  assert (dry_inv (SetParseOpts NewFeed o)) as H0.
  { unfold dry_inv. simpl. repeat split; try done;
      intros k v Hl; by rewrite lookup_empty in Hl. }
  pose proof (Parse_inv dry_inv _ _ _ touches_dry_inv H0 Hrun)
    as (_ & Hroutes & Hservices & Htransfers & Hinfos & _).
  rewrite Parse_run_stages in Hrun.
  change stage_order with
    ([StAgencies; StFeedInfos; StStops; StShapes] ++ [StShapeCheck]
     ++ [StRoutes; StCalendar; StCalendarDates; StTrips; StStopTimes]
     ++ [StStopTimeCheck]
     ++ [StFareAttributes; StFareRules; StFrequencies; StTransfers]) in Hrun.
  apply run_stages_success_app in Hrun as (r4 & Hrun4 & Hok4 & Hrun); [| done].
  apply run_stages_success_app in Hrun as (r5 & Hrun5 & Hok5 & Hrun); [| done].
  pose proof Hrun as Hrest.
  apply run_stages_success_app in Hrun as (r10 & Hrun10 & Hok10 & Hrun);
    [| done].
  apply run_stages_success_app in Hrun as (r11 & Hrun11 & Hok11 & Hrun);
    [| done].
  assert (dry_inv (feed_of r4)) as H4.
  { by apply (run_stages_inv dry_inv _ _ _ _ touches_dry_inv) in Hrun4. }
  apply run_stages_success_one in Hrun5 as [_ Hex5]; [| done].
  assert (dry_inv (feed_of r10)) as H10.
  { apply (run_stages_inv dry_inv _ _ _ _ touches_dry_inv) in Hrun10;
      [done |].
    apply exec_touches in Hex5.
    clear -Hex5 H4. induction Hex5; [done |].
    apply IHHex5. by eapply touches_dry_inv. }
  apply run_stages_success_one in Hrun11 as [_ Hex11]; [| done].
  repeat split; try done.
  - revert Hrest.
    apply (run_stages_inv_in (fun f => all_nil (Shapes f))).
    + intros s f f' Hs Ht Hf.
      rewrite (touches_Shapes s f f'); [done | | | done]; intros ->;
        stage_not_in Hs.
    + cbn [exec] in Hex5. apply (checkShapes_dry _ _ _ (proj1 H4) Hex5).
  - revert Hrun.
    apply (run_stages_inv_in (fun f => all_nil (Trips f))).
    + intros s f f' Hs Ht Hf. destruct Ht; try done.
      * stage_not_in Hs.
      * by apply all_nil_update.
      * stage_not_in Hs.
      * stage_not_in Hs.
    + cbn [exec] in Hex11. by apply checkStopTimes_dry in Hex11.
Qed.

(** ** What a dry run shares with a full run *)

Lemma link_parents_agree todo f f' :
  agree f f' ->
  exists g g' r,
    link_parents todo f = (g, r) /\ link_parents todo f' = (g', r) /\
    agree g g'.
Proof.
  revert f f'. induction todo as [|[id pid] todo IH]; intros f f' Hag; simpl.
  - by eexists _, _, _.
  - pose proof Hag as (Ha & Hs & Hf & Hu & Hd). rewrite <- Hs, <- Hu, <- Hd.
    assert (forall ps g g',
              agree g g' ->
              exists h h' r,
                match assign_parent id ps g with
                | Continue feed' => link_parents todo feed'
                | Panic feed' msg => (feed', Some msg)
                end = (h, r) /\
                match assign_parent id ps g' with
                | Continue feed' => link_parents todo feed'
                | Panic feed' msg => (feed', Some msg)
                end = (h', r) /\ agree h h') as Hassign.
    { intros ps g g' Hgg. unfold assign_parent.
      destruct Hgg as (Ha' & Hs' & Hf' & Ho'). rewrite <- Hs'.
      destruct (Stops g !! id).
      - apply IH. unfold agree. simpl. by rewrite Hs'.
      - eexists _, _, _. unfold agree. eauto 10. }
    destruct (Stops f !! pid).
    + by apply Hassign.
    + destruct (UseDefValueOnError (opts f)) eqn:HU; [by apply IH |].
      destruct (DropErroneous (opts f)) eqn:HD.
      * apply Hassign. unfold agree, same_but_dry. simpl.
        repeat split; congruence.
      * eexists _, _, _. unfold agree, same_but_dry.
        repeat split; congruence.
Qed.

(** The stages of the agencies, the feed infos, the stops and the fare
    attributes do the same to the agencies, the stops and the fare
    attributes, and return the same error, with and without [DryRun]. *)
Lemma exec_agree s path f f' :
  dry_blind ->
  s ∈ [StAgencies; StFeedInfos; StStops; StFareAttributes] ->
  agree f f' ->
  exists g g' e,
    exec s path f = Some (g, Returns e) /\
    exec s path f' = Some (g', Returns e) /\ agree g g'.
Proof.
  intros (HbA & HbS & HbI & HbF) Hs Hag.
  repeat (apply elem_of_cons in Hs as [-> | Hs]);
    [| | | | by apply elem_of_nil in Hs]; cbn [exec]; unfold returns.
  - unfold parseAgencies. destruct (getFile _ _) as [file|];
      [| by eexists _, _, _].
    match goal with
    | |- context [records ?b file 1 f] =>
        destruct (records_rel agree b b) with (file := file) (line := 1)
          (s1 := f) (s2 := f') as (line' & t1 & t2 & r & -> & -> & Ht);
        [| done | by eexists _, _, _]
    end.
    intros rec s1 s2 Hag12. pose proof Hag12 as (Ha & Hst & Hfa & Ho).
    rewrite (HbA rec (opts s1) (opts s2) Ho).
    destruct (createAgency rec (opts s2)).
    + unfold agree. simpl. by rewrite Ha.
    + pose proof Ho as [_ HD]. rewrite HD.
      by destruct (DropErroneous (opts s2)).
  - unfold parseFeedInfos. destruct (getFile _ _) as [file|];
      [| by eexists _, _, _].
    match goal with
    | |- context [records ?b file 1 f] =>
        destruct (records_rel agree b b) with (file := file) (line := 1)
          (s1 := f) (s2 := f') as (line' & t1 & t2 & r & -> & -> & Ht);
        [| done | by eexists _, _, _]
    end.
    intros rec s1 s2 Hag12. pose proof Hag12 as (Ha & Hst & Hfa & Ho).
    rewrite (HbI rec (opts s1) (opts s2) Ho).
    destruct (createFeedInfo rec (opts s2)).
    + by destruct (DryRun (opts s1)), (DryRun (opts s2)).
    + pose proof Ho as [_ HD]. rewrite HD.
      by destruct (DropErroneous (opts s2)).
  - unfold parseStops, read_stops. destruct (getFile _ _) as [file|];
      [| by eexists _, _, _].
    match goal with
    | |- context [records ?b file 1 (f, ?p0)] =>
        destruct (records_rel
                    (fun st1 st2 =>
                       agree (fst st1) (fst st2) /\ snd st1 = snd st2) b b)
          with (file := file) (line := 1) (s1 := (f, p0)) (s2 := (f', p0))
          as (line' & [t1 p1] & [t2 p2] & r & -> & -> & Ht & Hp);
        [| done |]
    end.
    + intros rec [s1 q1] [s2 q2] [Hag12 Hq]. simpl in *.
      pose proof Hag12 as (Ha & Hst & Hfa & Ho).
      subst q2. rewrite (HbS rec (opts s1) (opts s2) Ho).
      destruct (createStop rec (opts s2)).
      * unfold agree. simpl. by rewrite Hst.
      * pose proof Ho as [_ HD]. rewrite HD.
        by destruct (DropErroneous (opts s2)).
    + simpl in *. subst p2. destruct r; [by eexists _, _, _ |].
      destruct (link_parents_agree (range p1) t1 t2 Ht)
        as (g & g' & r & -> & -> & Hg).
      by eexists _, _, _.
  - unfold parseFareAttributes. destruct (getFile _ _) as [file|];
      [| by eexists _, _, _].
    match goal with
    | |- context [records ?b file 1 f] =>
        destruct (records_rel agree b b) with (file := file) (line := 1)
          (s1 := f) (s2 := f') as (line' & t1 & t2 & r & -> & -> & Ht);
        [| done | by eexists _, _, _]
    end.
    intros rec s1 s2 Hag12. pose proof Hag12 as (Ha & Hst & Hfa & Ho).
    rewrite (HbF rec (opts s1) (opts s2) Ho).
    destruct (createFareAttribute rec (opts s2)).
    + unfold agree. simpl. by rewrite Hfa.
    + pose proof Ho as [_ HD]. rewrite HD.
      by destruct (DropErroneous (opts s2)).
Qed.

Lemma guarded_agree s path r r' r2 r2' :
  dry_blind ->
  s ∈ [StAgencies; StFeedInfos; StStops; StFareAttributes] ->
  agree (feed_of r) (feed_of r') -> status r = status r' ->
  guarded s path r = Some r2 -> guarded s path r' = Some r2' ->
  agree (feed_of r2) (feed_of r2') /\ status r2 = status r2'.
Proof.
  intros Hblind Hs Hag Hst. unfold guarded. rewrite <- Hst.
  destruct (status r) as [[e0|]|p] eqn:Hr.
  - intros ? ?; simplify_eq. split; [done | congruence].
  - destruct (exec_agree s path _ _ Hblind Hs Hag)
      as (g & g' & e & -> & -> & Hgg).
    by intros ? ?; simplify_eq.
  - intros ? ?; simplify_eq. split; [done | congruence].
Qed.

Lemma run_stages_agree path l r r' r1 r1' :
  dry_blind ->
  (forall s, s ∈ l ->
     s ∈ [StAgencies; StFeedInfos; StStops; StFareAttributes]) ->
  agree (feed_of r) (feed_of r') -> status r = status r' ->
  run_stages path l r = Some r1 -> run_stages path l r' = Some r1' ->
  agree (feed_of r1) (feed_of r1') /\ status r1 = status r1'.
Proof.
  intros Hblind. revert r r'.
  induction l as [|s l IH]; intros r r' Hl Hag Hst Hrun Hrun'.
  - unfold run_stages in *. simpl in *. by simplify_eq.
  - rewrite run_stages_cons in Hrun, Hrun'.
    destruct (guarded s path r) as [r2|] eqn:Hg; [| done].
    destruct (guarded s path r') as [r2'|] eqn:Hg'; [| done].
    simpl in *.
    destruct (guarded_agree s path r r' r2 r2' Hblind
                (Hl s ltac:(by left)) Hag Hst Hg Hg') as [Hag2 Hst2].
    apply (IH r2 r2'); try done.
    intros s' Hs'. apply Hl. by right.
Qed.

Lemma touches_Agencies s f f' :
  s <> StAgencies -> touches s f f' -> Agencies f' = Agencies f.
Proof. by destruct 2. Qed.

End PipelineFacts.


(** C1 at a directory whose stops.txt has a stop with an unknown parent
    station, under the strict options: the agencies and the feed infos pass,
    the stops fail, and nothing after them is entered. *)
Lemma C1_witness :
  exists feed' msg,
    Parse
      (with_file "stops.txt" [row [("stop_id", "A"); ("parent_station", "Z")]])
      (feed_with (flags false false false))
    = Some (Run feed' (Returns (Some (ParseError "stops.txt" 2 msg)))
              [StAgencies; StFeedInfos; StStops]).
Proof.
  eexists _, _.
  eapply (C1_parse_halts_at_first_failure _ _ [StAgencies; StFeedInfos]
            [StShapes; StShapeCheck; StRoutes; StCalendar; StCalendarDates;
             StTrips; StStopTimes; StStopTimeCheck; StFareAttributes;
             StFareRules; StFrequencies; StTransfers] StStops).
  - reflexivity.
  - vm_compute. reflexivity.
  - reflexivity.
  - vm_compute. reflexivity.
Defined.

(** C6 at an empty directory: agency.txt is absent and the parse fails. *)
Lemma C6_witness :
  exists r,
    Parse (Directory ∅) (feed_with (flags false false false)) = Some r /\
    status r <> Returns None.
Proof.
  apply (proj1 (C6_required_and_optional_files (Directory ∅)
                  (feed_with (flags false false false))) "agency.txt").
  - by repeat constructor.
  - reflexivity.
Defined.

(** C6 fails as stated: a directory with the five required files and
    neither calendar.txt nor calendar_dates.txt is parsed with success. *)
Lemma C6_counterexample :
  ~ (forall (path : location) (feed : Feed) (r : run),
       getFile path "calendar.txt" = None ->
       getFile path "calendar_dates.txt" = None ->
       Parse path feed = Some r ->
       status r <> Returns None).
Proof.
  intros H.
  by apply (H (Directory bare_files) (feed_with (flags false false false))
              (Run (feed_with (flags false false false)) (Returns None)
                 stage_order)).
Qed.

(** C8 at a directory with a station and a stop whose parent it is. *)
Lemma C8_witness :
  exists r stop,
    Parse
      (with_file "stops.txt"
         [row [("stop_id", "A"); ("parent_station", "B")];
          row [("stop_id", "B")]])
      (SetParseOpts NewFeed (flags false false false)) = Some r /\
    Stops (feed_of r) !! "A" = Some stop /\
    (Stop.Parent_station stop = None \/
     exists pid p,
       Stop.Parent_station stop = Some pid /\
       Stops (feed_of r) !! pid = Some p).
Proof.
  assert (forall rec o' (stop : Stop.t),
            createStop rec o' = Ok stop -> Stop.Parent_station stop = None)
    as Hcreate.
  { intros rec o' s. simpl. unfold demo_stop.
    destruct (column "stop_id" rec); intros H; inversion H. reflexivity. }
  eexists _, _. split; [vm_compute; reflexivity |]. split; [reflexivity |].
  refine (C8_parent_station_resolves
            (with_file "stops.txt"
               [row [("stop_id", "A"); ("parent_station", "B")];
                row [("stop_id", "B")]])
            (flags false false false) _ Hcreate _ _ "A" _ _).
  - vm_compute. reflexivity.
  - reflexivity.
  - reflexivity.
Defined.

(** C8 fails as stated: a stop that names itself as its parent station is
    parsed with success and then points to itself. *)
Lemma C8_counterexample :
  ~ (forall (path : location) (o : ParseOptions) (r : run) id s,
       Parse path (SetParseOpts NewFeed o) = Some r ->
       status r = Returns None ->
       Stops (feed_of r) !! id = Some s ->
       (Stop.Parent_station s = None \/
        exists pid p,
          Stop.Parent_station s = Some pid /\
          Stops (feed_of r) !! pid = Some p) /\
       Stop.Parent_station s <> Some id).
Proof.
  intros H.
  destruct (H (with_file "stops.txt"
                 [row [("stop_id", "A"); ("parent_station", "A")]])
              (flags false false false)
              (Run (set_Stops (SetParseOpts NewFeed (flags false false false))
                      {["A" := {| Stop.Id := "A"; Stop.Lat := zero;
                                  Stop.Lon := zero;
                                  Stop.Parent_station := Some "A" |}]})
                 (Returns None) stage_order)
              "A"
              {| Stop.Id := "A"; Stop.Lat := zero; Stop.Lon := zero;
                 Stop.Parent_station := Some "A" |}) as [_ Hself];
    [vm_compute; reflexivity | reflexivity | reflexivity |].
  by apply Hself.
Qed.

(** C3 at a stops.txt whose only stop A names the unknown parent station
    Z, with drop_erroneous: A is deleted and the parse fails on the nil
    dereference. *)
Lemma C3_witness :
  exists f',
    Stops f' !! "A" = None /\
    Parse
      (with_file "stops.txt" [row [("stop_id", "A"); ("parent_station", "Z")]])
      (feed_with (flags false true false))
    = Some (Run f'
              (Returns (Some (ParseError "stops.txt" 2
                 "runtime error: invalid memory address or nil pointer dereference")))
              [StAgencies; StFeedInfos; StStops]).
Proof.
  destruct (C3_drop_of_dangling_parent_fails
              (with_file "stops.txt"
                 [row [("stop_id", "A"); ("parent_station", "Z")]])
              (feed_with (flags false true false))
              (Run (feed_with (flags false true false)) (Returns None)
                 [StAgencies; StFeedInfos])
              [row [("stop_id", "A"); ("parent_station", "Z")]] 2
              (set_Stops (feed_with (flags false true false))
                 {["A" := {| Stop.Id := "A"; Stop.Lat := zero;
                             Stop.Lon := zero;
                             Stop.Parent_station := None |}]})
              {["A" := "Z"]} "A" "Z")
    as (_ & _ & Hdrop);
    [vm_compute; reflexivity | reflexivity | vm_compute; reflexivity
    | vm_compute; reflexivity | reflexivity | reflexivity |].
  destruct (Hdrop eq_refl eq_refl) as (f' & id' & pid' & Hin & _ & Hgone & HP).
  exists f'. split; [| exact HP].
  destruct (decide ("A" = id')) as [<- | Hne]; [exact Hgone |].
  rewrite lookup_singleton_ne in Hin by done. discriminate Hin.
Defined.




(** * Further properties of the checks *)

(** ** The removal idiom *)

(** X1: the expression [s[:i+copy(s[i:], s[i+1:])]] with which both checks
    drop an element yields the slice without its element at [i], the others
    in their order, when [i] is an index of the slice, and panics on the
    slice bounds for every other [i]. *)
Theorem drop_idiom_removes_one_element {A : Type} (s : list A) (i : Z) :
  remove_at s i
  = if bool_decide (0 <= i < len s)
    then Some (delete (Z.to_nat i) s) else None.
Proof.
  case_bool_decide as Hi; [by apply remove_at_delete |].
  unfold remove_at, slice_from.
  destruct (i <? 0) eqn:E1; [done |]. apply Z.ltb_ge in E1. cbn [orb].
  destruct (len s <? i) eqn:E2; [done |]. apply Z.ltb_ge in E2.
  assert ((len s <? i + 1) = true) as -> by (apply Z.ltb_lt; lia).
  by rewrite orb_true_r.
Qed.

(** ** The order of the declared distances *)

Lemma gt_neg_inf (x : float32) : gt neg_inf x = false.
Proof. destruct x as [[]|[]| |[] ? ?]; reflexivity. Qed.

Section DeclaredOrderFacts.
Context {A : Type} (has : A -> bool) (dist : A -> float32).

Lemma last_declared_snoc (m : float32) (l : list A) (p : A) :
  last_declared has dist m (l ++ [p])
  = if has p then dist p else last_declared has dist m l.
Proof. unfold last_declared. by rewrite foldl_app. Qed.

Lemma declared_in_order_cons (p : A) (l : list A) :
  declared_in_order has dist (p :: l) <->
  (has p = true -> first_declared_ok has dist (dist p) l) /\
  declared_in_order has dist l.
Proof.
  split.
  - intros H. split.
    + intros Hp k q Hq Hhq Hbefore.
      apply (H 0%nat (S k) p q); try done; [lia |].
      intros [|n] r Hn Hr; [lia |]. apply (Hbefore n r); [lia | done].
    + intros i j a b Hij Ha Hb Hha Hhb Hbetween.
      apply (H (S i) (S j) a b); try done; [lia |].
      intros [|n] r Hn Hr; [lia |]. apply (Hbetween n r); [lia | done].
  - intros [H1 H2] i j a b Hij Ha Hb Hha Hhb Hbetween.
    destruct j as [|j]; [lia |]. simpl in Hb.
    destruct i as [|i]; simpl in Ha.
    + simplify_eq. apply (H1 Hha j b); try done.
      intros n r Hn Hr. apply (Hbetween (S n) r); [lia | done].
    + apply (H2 i j a b); try done; [lia |].
      intros n r Hn Hr. apply (Hbetween (S n) r); [lia | done].
Qed.

Lemma first_declared_ok_cons (x : float32) (c : A) (l : list A) :
  first_declared_ok has dist x (c :: l) <->
  (has c = true -> gt x (dist c) = false) /\
  (has c = false -> first_declared_ok has dist x l).
Proof.
  split.
  - intros H. split.
    + intros Hc. apply (H 0%nat c); try done. intros n r Hn. lia.
    + intros Hc k q Hq Hhq Hbefore. apply (H (S k) q); try done.
      intros [|n] r Hn Hr; simpl in Hr; [by simplify_eq |].
      apply (Hbefore n r); [lia | done].
  - intros [H1 H2] [|k] q Hq Hhq Hbefore; simpl in Hq.
    + simplify_eq. by apply H1.
    + apply (H2 (Hbefore 0%nat c ltac:(lia) eq_refl) k q); try done.
      intros n r Hn Hr. apply (Hbefore (S n) r); [lia | done].
Qed.

Lemma first_declared_ok_neg_inf (l : list A) :
  first_declared_ok has dist neg_inf l.
Proof. intros k q _ _ _. apply gt_neg_inf. Qed.

Lemma in_order_from_iff (m : float32) (prev : A) (rest : list A) :
  in_order_from has dist m prev rest = true <->
  first_declared_ok has dist (if has prev then dist prev else m) rest /\
  declared_in_order has dist rest.
Proof.
  revert m prev. induction rest as [|cur rest IH]; intros m prev.
  - simpl. split; [| done]. intros _. split.
    + by intros k q Hq.
    + by intros i j a b _ Ha.
  - cbn [in_order_from].
    rewrite andb_true_iff, IH, first_declared_ok_cons,
      declared_in_order_cons.
    set (m' := if has prev then dist prev else m).
    destruct (has cur) eqn:Hc; simpl.
    + rewrite negb_true_iff. intuition congruence.
    + intuition congruence.
Qed.

(** One pass finds no distance below [max] exactly when the declared
    distances are in order. *)
Lemma in_order_from_spec (p : A) (rest : list A) :
  in_order_from has dist neg_inf p rest = true <->
  declared_in_order has dist (p :: rest).
Proof.
  rewrite in_order_from_iff, declared_in_order_cons.
  destruct (has p).
  - intuition.
  - pose proof (first_declared_ok_neg_inf rest). intuition congruence.
Qed.

Lemma declared_in_order_nil : declared_in_order has dist [].
Proof. by intros i j a b _ Ha. Qed.

Lemma in_order_from_app (m : float32) (prev : A) (l1 l2 : list A) (c : A) :
  in_order_from has dist m prev (l1 ++ c :: l2) = true ->
  in_order_from has dist m prev l1 = true.
Proof.
  revert m prev. induction l1 as [|x l1 IH]; intros m prev; [done |].
  cbn [app in_order_from]. rewrite !andb_true_iff. intros [H1 H2].
  split; [done |]. by eapply IH.
Qed.
End DeclaredOrderFacts.

(** ** checkShapeMeasure, iteration by iteration *)

Lemma delete_app_next {A} (pre : list A) (x y : A) (rest : list A) :
  delete (Z.to_nat (len pre + 1)) (pre ++ x :: y :: rest) = pre ++ x :: rest.
Proof.
  unfold len. replace (Z.to_nat _) with (length (pre ++ [x]))
    by (rewrite length_app; simpl; lia).
  replace (pre ++ x :: y :: rest) with ((pre ++ [x]) ++ y :: rest)
    by by rewrite <- app_assoc.
  by rewrite delete_middle, <- app_assoc.
Qed.

Lemma len_delete {A} (s : list A) (i : Z) :
  0 <= i < len s -> len (delete (Z.to_nat i) s) = len s - 1.
Proof.
  intros Hi. unfold len in *. rewrite length_delete; [lia |].
  apply lookup_lt_is_Some. lia.
Qed.

Lemma len_app_cons {A} (pre : list A) (x : A) (rest : list A) :
  len (pre ++ x :: rest) = len pre + 1 + len rest.
Proof. unfold len. rewrite length_app. simpl. lia. Qed.

Lemma remove_at_app_next {A} (pre : list A) (x y : A) (rest : list A) :
  remove_at (pre ++ x :: y :: rest) (len pre + 1) = Some (pre ++ x :: rest).
Proof.
  rewrite remove_at_delete, delete_app_next; [done |].
  rewrite len_app_cons. pose proof (len_nonneg pre).
  unfold len in *. simpl. lia.
Qed.

(** The iteration that looks at the point [cur] after [prev], nothing
    having been dropped before. *)
Lemma shape_body_at id opt pre prev cur rest m :
  shape_body id opt (len pre + 1) (Vars 0 m (pre ++ prev :: cur :: rest))
  = let m' := if ShapePoint.HasDistanceTraveled prev
              then ShapePoint.Dist_traveled prev else m in
    if ShapePoint.HasDistanceTraveled cur
       && gt m' (ShapePoint.Dist_traveled cur)
    then
      if UseDefValueOnError opt then
        Next (Vars 0 m' (pre ++ prev :: ShapePoint.clear_dist cur :: rest))
      else if DropErroneous opt then Next (Vars 1 m' (pre ++ prev :: rest))
      else
        Leave (pre ++ prev :: cur :: rest)
          (Returns (Some
             (ShapeDistNotIncreasing id (ShapePoint.Sequence cur) m'
                (ShapePoint.Dist_traveled cur))))
    else Next (Vars 0 m' (pre ++ prev :: cur :: rest)).
Proof.
  unfold shape_body. cbn [deleted max elems].
  replace (len pre + 1 - 0 - 1) with (len pre) by lia.
  replace (len pre + 1 - 0) with (len pre + 1) by lia.
  rewrite index_app_middle, index_app_next, insert_app_next,
    remove_at_app_next.
  done.
Qed.

Lemma for_loop_exit {A} (body : Z -> vars A -> step A) fuel j v :
  len (elems v) <= j ->
  for_loop body (S fuel) j v = Some (elems v, Returns None).
Proof.
  intros H. cbn [for_loop]. by rewrite (proj2 (Z.ltb_ge _ _)).
Qed.

Lemma for_loop_enter {A} (body : Z -> vars A -> step A) fuel j v :
  j < len (elems v) ->
  for_loop body (S fuel) j v
  = match body j v with
    | Next v' => for_loop body fuel (j + 1) v'
    | Leave s o => Some (s, o)
    end.
Proof.
  intros H. cbn [for_loop]. by rewrite (proj2 (Z.ltb_lt _ _)).
Qed.

Lemma len_snoc {A} (pre : list A) (x : A) : len (pre ++ [x]) = len pre + 1.
Proof. unfold len. rewrite length_app. simpl. lia. Qed.

(** Under the strict options the loop is one pass that stops at the first
    comparison that fails. *)
Lemma shape_loop_strict id opt :
  UseDefValueOnError opt = false -> DropErroneous opt = false ->
  forall rest pre prev m fuel,
    (length rest < fuel)%nat ->
    for_loop (shape_body id opt) fuel (len pre + 1)
      (Vars 0 m (pre ++ prev :: rest))
    = Some (pre ++ prev :: rest, Returns (strict_scan id m prev rest)).
Proof.
  intros Hdef Hdrop rest.
  induction rest as [|cur rest IH]; intros pre prev m fuel Hfuel;
    (destruct fuel as [|fuel]; [simpl in Hfuel; lia |]).
  - rewrite for_loop_exit; [done |]. cbn [elems]. rewrite len_app_cons.
    unfold len. simpl. lia.
  - rewrite for_loop_enter
      by (cbn [elems]; rewrite len_app_cons; unfold len; simpl; lia).
    rewrite shape_body_at. cbn zeta. cbn [strict_scan].
    destruct (_ && _); [by rewrite Hdef, Hdrop |].
    specialize (IH (pre ++ [prev]) cur
                  (if ShapePoint.HasDistanceTraveled prev
                   then ShapePoint.Dist_traveled prev else m) fuel).
    rewrite len_snoc, <- !app_assoc in IH. simpl in IH.
    apply IH. simpl in Hfuel. lia.
Qed.

(** Whatever the options, a pass that finds no distance below [max]
    leaves the points as they are. *)
Lemma shape_loop_in_order id opt :
  forall rest pre prev m fuel,
    (length rest < fuel)%nat ->
    in_order_from ShapePoint.Has_dist ShapePoint.Dist_traveled m prev rest
      = true ->
    for_loop (shape_body id opt) fuel (len pre + 1)
      (Vars 0 m (pre ++ prev :: rest))
    = Some (pre ++ prev :: rest, Returns None).
Proof.
  intros rest.
  induction rest as [|cur rest IH]; intros pre prev m fuel Hfuel Hord;
    (destruct fuel as [|fuel]; [simpl in Hfuel; lia |]).
  - rewrite for_loop_exit; [done |]. cbn [elems]. rewrite len_app_cons.
    unfold len. simpl. lia.
  - rewrite for_loop_enter
      by (cbn [elems]; rewrite len_app_cons; unfold len; simpl; lia).
    rewrite shape_body_at. cbn zeta.
    cbn [in_order_from] in Hord. apply andb_true_iff in Hord as [H1 H2].
    apply negb_true_iff in H1. unfold ShapePoint.HasDistanceTraveled.
    rewrite H1.
    specialize (IH (pre ++ [prev]) cur
                  (if ShapePoint.Has_dist prev
                   then ShapePoint.Dist_traveled prev else m) fuel).
    rewrite len_snoc, <- !app_assoc in IH. simpl in IH.
    apply IH; [simpl in Hfuel; lia | done].
Qed.

Lemma strict_scan_None id m prev rest :
  strict_scan id m prev rest = None <->
  in_order_from ShapePoint.Has_dist ShapePoint.Dist_traveled m prev rest
    = true.
Proof.
  revert m prev. induction rest as [|cur rest IH]; intros m prev; [done |].
  cbn [strict_scan in_order_from]. unfold ShapePoint.HasDistanceTraveled.
  destruct (_ && _); simpl; [done |]. apply IH.
Qed.

(** The error of the pass is that of the first point that declares less
    than [max], which then holds the last distance declared before it. *)
Lemma strict_scan_Some id m prev rest e :
  strict_scan id m prev rest = Some e ->
  exists (k : nat) (cur : ShapePoint.t),
    rest !! k = Some cur /\ ShapePoint.Has_dist cur = true /\
    gt (last_declared ShapePoint.Has_dist ShapePoint.Dist_traveled m
          (prev :: take k rest))
       (ShapePoint.Dist_traveled cur) = true /\
    e = ShapeDistNotIncreasing id (ShapePoint.Sequence cur)
          (last_declared ShapePoint.Has_dist ShapePoint.Dist_traveled m
             (prev :: take k rest))
          (ShapePoint.Dist_traveled cur) /\
    in_order_from ShapePoint.Has_dist ShapePoint.Dist_traveled m prev
      (take k rest) = true.
Proof.
  revert m prev. induction rest as [|cur rest IH]; intros m prev; [done |].
  cbn [strict_scan]. unfold ShapePoint.HasDistanceTraveled.
  destruct (ShapePoint.Has_dist cur
            && gt (if ShapePoint.Has_dist prev
                   then ShapePoint.Dist_traveled prev else m)
                  (ShapePoint.Dist_traveled cur)) eqn:Hv.
  - intros ?; simplify_eq. apply andb_true_iff in Hv as [H1 H2].
    exists 0%nat, cur. by repeat split.
  - intros (k & c & Hk & Hc & Hgt & -> & Hord)%IH.
    exists (S k), c. cbn [take in_order_from]. rewrite Hv.
    by repeat split.
Qed.

(** What one iteration does to the points, whatever has been dropped
    before. *)
Lemma shape_body_geometry id opt j v :
  match shape_body id opt j v with
  | Next v' =>
      sublist (geometry <$> elems v') (geometry <$> elems v) /\
      (UseDefValueOnError opt = true \/ DropErroneous opt = false ->
       geometry <$> elems v' = geometry <$> elems v)
  | Leave s _ => s = elems v
  end.
Proof.
  unfold shape_body.
  destruct (index (elems v) (j - deleted v - 1)); [| done].
  destruct (index (elems v) (j - deleted v)) as [cur|] eqn:Hc; [| done].
  apply index_Some in Hc as [Hi Hc].
  destruct (_ && _); [| done].
  destruct (UseDefValueOnError opt) eqn:Hdef.
  - cbn [elems]. rewrite list_fmap_insert.
    rewrite list_insert_id; [done |]. by rewrite list_lookup_fmap, Hc.
  - destruct (DropErroneous opt) eqn:Hdrop; [| done].
    rewrite remove_at_delete by done. cbn [elems]. split.
    + apply fmap_sublist, sublist_delete.
    + intros [? | ?]; congruence.
Qed.

(** X2: the shape check always ends by returning: none of its index
    expressions leaves the slice.  The id of the shape is kept, and the
    positions and sequence numbers of the points it leaves are, in order,
    those of points it was given; no point is taken out unless
    drop_erroneous is set and use_default_on_error is not. *)
Theorem shape_check_returns_and_keeps_the_geometry
    (shape : Shape.t) (opt : ParseOptions) :
  exists (pts' : list ShapePoint.t) (e : option check_error),
    checkShapeMeasure shape opt
      = Some (Shape.with_Points shape pts', Returns e) /\
    sublist (geometry <$> pts') (geometry <$> Shape.Points shape) /\
    (UseDefValueOnError opt = true \/ DropErroneous opt = false ->
     geometry <$> pts' = geometry <$> Shape.Points shape).
Proof.
  destruct (checkShapeMeasure_total shape opt) as [[shape' o] Hrun].
  destruct (checkShapeMeasure_returns _ _ _ _ Hrun) as [e ->].
  unfold checkShapeMeasure in *.
  destruct (for_loop _ _ _ _) as [[s o']|] eqn:Hloop; [| done].
  simplify_eq. exists s, e. split; [done |]. revert Hloop.
  apply (for_loop_inv _
           (fun _ v =>
              sublist (geometry <$> elems v)
                (geometry <$> Shape.Points shape) /\
              (UseDefValueOnError opt = true \/ DropErroneous opt = false ->
               geometry <$> elems v = geometry <$> Shape.Points shape))
           (fun s _ =>
              sublist (geometry <$> s) (geometry <$> Shape.Points shape) /\
              (UseDefValueOnError opt = true \/ DropErroneous opt = false ->
               geometry <$> s = geometry <$> Shape.Points shape)));
    [| done | done].
  intros j v [H1 H2] _.
  pose proof (shape_body_geometry (Shape.Id shape) opt j v) as H.
  destruct (shape_body _ _ _ _) as [v'|s' o'].
  - destruct H as [H3 H4]. split; [by etrans |].
    intros Hopt. by rewrite H4, H2.
  - by subst.
Qed.

Lemma with_Points_id (shape : Shape.t) :
  Shape.with_Points shape (Shape.Points shape) = shape.
Proof. by destruct shape. Qed.

Lemma checkShapeMeasure_strict shape opt :
  UseDefValueOnError opt = false -> DropErroneous opt = false ->
  checkShapeMeasure shape opt
  = Some (shape,
          Returns (match Shape.Points shape with
                   | [] => None
                   | p0 :: rest => strict_scan (Shape.Id shape) neg_inf p0 rest
                   end)).
Proof.
  intros Hdef Hdrop. unfold checkShapeMeasure.
  destruct (Shape.Points shape) as [|p0 rest] eqn:Hpts.
  - rewrite for_loop_exit by done. cbn [elems]. by rewrite <- Hpts, with_Points_id.
  - pose proof (shape_loop_strict (Shape.Id shape) opt Hdef Hdrop rest [] p0
                  neg_inf (S (length (p0 :: rest)))) as Hloop.
    change (len [] + 1) with 1 in Hloop. cbn [app] in Hloop.
    rewrite Hloop by (simpl; lia). by rewrite <- Hpts, with_Points_id.
Qed.

(** X3: the shape check returns an error only when neither
    use_default_on_error nor drop_erroneous is set.  It then leaves the
    shape as it was, and the error is that of the first point that declares a
    distance below the last distance declared before it: it names the shape's
    id, the point's sequence number and the two distances, and the points
    before that one are in order. *)
Theorem shape_check_error_reports_the_first_violation
    (shape shape' : Shape.t) (opt : ParseOptions) (e : check_error) :
  checkShapeMeasure shape opt = Some (shape', Returns (Some e)) ->
  UseDefValueOnError opt = false /\ DropErroneous opt = false /\
  shape' = shape /\
  exists (k : nat) (cur : ShapePoint.t),
    Shape.Points shape !! k = Some cur /\
    ShapePoint.Has_dist cur = true /\
    gt (last_declared ShapePoint.Has_dist ShapePoint.Dist_traveled neg_inf
          (take k (Shape.Points shape)))
       (ShapePoint.Dist_traveled cur) = true /\
    e = ShapeDistNotIncreasing (Shape.Id shape) (ShapePoint.Sequence cur)
          (last_declared ShapePoint.Has_dist ShapePoint.Dist_traveled neg_inf
             (take k (Shape.Points shape)))
          (ShapePoint.Dist_traveled cur) /\
    declared_in_order ShapePoint.Has_dist ShapePoint.Dist_traveled
      (take k (Shape.Points shape)).
Proof.
  intros Hrun.
  assert (UseDefValueOnError opt = false /\ DropErroneous opt = false)
    as [Hdef Hdrop].
  { unfold checkShapeMeasure in Hrun.
    destruct (for_loop _ _ _ _) as [[s o]|] eqn:Hloop; [| done].
    simplify_eq. revert Hloop.
    apply (for_loop_inv _ (fun _ _ => True)
             (fun _ o =>
                match o with
                | Returns (Some _) =>
                    UseDefValueOnError opt = false /\
                    DropErroneous opt = false
                | _ => True
                end)); [| done | done].
    intros j v _ _. unfold shape_body.
    destruct (index _ _); [| done]. destruct (index _ _); [| done].
    destruct (_ && _); [| done].
    destruct (UseDefValueOnError opt); [done |].
    destruct (DropErroneous opt); [| done].
    by destruct (remove_at _ _). }
  rewrite checkShapeMeasure_strict in Hrun by done.
  assert (shape' = shape) as -> by congruence.
  split; [done |]. split; [done |]. split; [done |].
  destruct (Shape.Points shape) as [|p0 rest]; [done |].
  assert (strict_scan (Shape.Id shape) neg_inf p0 rest = Some e) as Hscan
    by congruence.
  apply strict_scan_Some in Hscan as (k & cur & Hk & Hc & Hgt & -> & Hord).
  exists (S k), cur. cbn [take]. repeat split; try done.
  by apply in_order_from_spec.
Qed.

Lemma checkShapeMeasure_in_order (shape : Shape.t) (opt : ParseOptions) :
  declared_in_order ShapePoint.Has_dist ShapePoint.Dist_traveled
    (Shape.Points shape) ->
  checkShapeMeasure shape opt = Some (shape, Returns None).
Proof.
  intros Hord. unfold checkShapeMeasure.
  destruct (Shape.Points shape) as [|p0 rest] eqn:Hpts.
  - rewrite for_loop_exit by done. cbn [elems].
    by rewrite <- Hpts, with_Points_id.
  - pose proof (shape_loop_in_order (Shape.Id shape) opt rest [] p0
                  neg_inf (S (length (p0 :: rest)))) as Hloop.
    change (len [] + 1) with 1 in Hloop. cbn [app] in Hloop.
    rewrite Hloop; [by rewrite <- Hpts, with_Points_id | simpl; lia |].
    by apply in_order_from_spec.
Qed.

(** X4: a shape whose declared distances are in order passes the check
    under every setting of the options, and is left as it was. *)
Theorem shape_in_order_passes_unchanged
    (shape : Shape.t) (opt : ParseOptions) :
  declared_in_order ShapePoint.Has_dist ShapePoint.Dist_traveled
    (Shape.Points shape) ->
  checkShapeMeasure shape opt = Some (shape, Returns None).
Proof. apply checkShapeMeasure_in_order. Qed.

(** X5: under the strict options (neither use_default_on_error nor
    drop_erroneous) the shape check returns nil exactly when the declared
    distances of the shape are in order. *)
Theorem strict_shape_check_accepts_exactly_the_ordered
    (shape : Shape.t) (opt : ParseOptions) :
  UseDefValueOnError opt = false -> DropErroneous opt = false ->
  (checkShapeMeasure shape opt = Some (shape, Returns None) <->
   declared_in_order ShapePoint.Has_dist ShapePoint.Dist_traveled
     (Shape.Points shape)).
Proof.
  intros Hdef Hdrop. split; [| apply checkShapeMeasure_in_order].
  rewrite checkShapeMeasure_strict by done. intros H.
  destruct (Shape.Points shape) as [|p0 rest];
    [apply declared_in_order_nil |].
  apply in_order_from_spec.
  apply (strict_scan_None (Shape.Id shape)). congruence.
Qed.

(** X3 at the points with the distances 10, 5, 3 under the strict options:
    the error is that of the second point. *)
Lemma shape_check_error_witness :
  checkShapeMeasure (shape_of "s" [pt 1 10; pt 2 5; pt 3 3])
    (flags false false false)
  = Some (shape_of "s" [pt 1 10; pt 2 5; pt 3 3],
          Returns (Some (ShapeDistNotIncreasing "s" 2 (f32 10) (f32 5)))) /\
  exists (k : nat) (cur : ShapePoint.t),
    [pt 1 10; pt 2 5; pt 3 3] !! k = Some cur /\
    ShapePoint.Has_dist cur = true /\
    ShapeDistNotIncreasing "s" 2 (f32 10) (f32 5)
    = ShapeDistNotIncreasing "s" (ShapePoint.Sequence cur)
        (last_declared ShapePoint.Has_dist ShapePoint.Dist_traveled neg_inf
           (take k [pt 1 10; pt 2 5; pt 3 3]))
        (ShapePoint.Dist_traveled cur).
Proof.
  assert (checkShapeMeasure (shape_of "s" [pt 1 10; pt 2 5; pt 3 3])
            (flags false false false)
          = Some (shape_of "s" [pt 1 10; pt 2 5; pt 3 3],
                  Returns (Some (ShapeDistNotIncreasing "s" 2 (f32 10)
                                   (f32 5))))) as H
    by (vm_compute; reflexivity).
  split; [exact H |].
  destruct (shape_check_error_reports_the_first_violation _ _ _ _ H)
    as (_ & _ & _ & k & cur & Hk & Hc & _ & He & _).
  exists k, cur. split; [exact Hk |]. split; [exact Hc | exact He].
Defined.

(** X4 at the points with the distances 1, 5, 5, with drop_erroneous
    set. *)
Lemma shape_in_order_witness :
  checkShapeMeasure (shape_of "s" [pt 1 1; pt 2 5; pt 3 5])
    (flags false true false)
  = Some (shape_of "s" [pt 1 1; pt 2 5; pt 3 5], Returns None).
Proof.
  apply (shape_in_order_passes_unchanged
           (shape_of "s" [pt 1 1; pt 2 5; pt 3 5]) (flags false true false)).
  apply in_order_from_spec. vm_compute. reflexivity.
Defined.

(** X5 at the same points under the strict options. *)
Lemma strict_shape_check_witness :
  checkShapeMeasure (shape_of "s" [pt 1 1; pt 2 5; pt 3 5])
    (flags false false false)
  = Some (shape_of "s" [pt 1 1; pt 2 5; pt 3 5], Returns None) <->
  declared_in_order ShapePoint.Has_dist ShapePoint.Dist_traveled
    [pt 1 1; pt 2 5; pt 3 5].
Proof.
  apply (strict_shape_check_accepts_exactly_the_ordered
           (shape_of "s" [pt 1 1; pt 2 5; pt 3 5])
           (flags false false false)); reflexivity.
Defined.

(** ** The options the checks read *)

Lemma for_loop_ext {A} (body1 body2 : Z -> vars A -> step A) :
  (forall j v, body1 j v = body2 j v) ->
  forall fuel j v, for_loop body1 fuel j v = for_loop body2 fuel j v.
Proof.
  intros Hext fuel. induction fuel as [|fuel IH]; intros j v; [done |].
  simpl. rewrite Hext. destruct (j <? len (elems v)); [| done].
  destruct (body2 j v); [apply IH | done].
Qed.

(** X6: the checks read the options use_default_on_error and
    drop_erroneous only, never dry_run; and in the shape check
    use_default_on_error takes precedence: once it is set, drop_erroneous
    makes no difference. *)
Theorem checks_read_only_the_error_flags
    {Time Frequency : Type} `{!TimeOps Time}
    (shape : Shape.t) (trip : Trip.t Time Frequency) (o o' : ParseOptions) :
  UseDefValueOnError o = UseDefValueOnError o' ->
  (UseDefValueOnError o = true \/ DropErroneous o = DropErroneous o') ->
  checkShapeMeasure shape o = checkShapeMeasure shape o' /\
  (DropErroneous o = DropErroneous o' ->
   checkStopTimeMeasure trip o = checkStopTimeMeasure trip o').
Proof.
  intros Hdef Hdrop. split.
  - unfold checkShapeMeasure.
    rewrite (for_loop_ext (shape_body (Shape.Id shape) o)
               (shape_body (Shape.Id shape) o')); [done |].
    intros j v. unfold shape_body. rewrite <- Hdef.
    destruct (index _ _); [| done]. destruct (index _ _); [| done].
    destruct (_ && _); [| done].
    destruct (UseDefValueOnError o); [done |].
    destruct Hdrop as [? | <-]; done.
  - intros Hdrop'. unfold checkStopTimeMeasure.
    rewrite (for_loop_ext (stoptime_body (Trip.Id trip) o)
               (stoptime_body (Trip.Id trip) o')); [done |].
    intros j v. unfold stoptime_body, time_part, dist_part.
    by rewrite <- Hdef, <- Hdrop'.
Qed.

(** X6 at the points with the distances 10, 5, 3, checked with
    use_default_on_error alone and then with all three options set. *)
Lemma checks_read_only_the_error_flags_witness :
  checkShapeMeasure (shape_of "s" [pt 1 10; pt 2 5; pt 3 3])
    (flags true false false)
  = checkShapeMeasure (shape_of "s" [pt 1 10; pt 2 5; pt 3 3])
      (flags true true true).
Proof.
  apply (checks_read_only_the_error_flags
           (shape_of "s" [pt 1 10; pt 2 5; pt 3 3]) (trip_of "t" [])
           (flags true false false) (flags true true true));
    [reflexivity | left; reflexivity].
Defined.

(** ** checkShapeMeasure with default values: the result is in order *)

Lemma default_scan_in_order (m : float32) (prev : ShapePoint.t)
    (rest : list ShapePoint.t) :
  in_order_from ShapePoint.Has_dist ShapePoint.Dist_traveled m prev
    (default_scan m prev rest) = true.
Proof.
  revert m prev. induction rest as [|cur rest IH]; intros m prev; [done |].
  cbn [default_scan in_order_from]. unfold ShapePoint.HasDistanceTraveled.
  rewrite IH, andb_true_r.
  destruct (ShapePoint.Has_dist cur
            && gt (if ShapePoint.Has_dist prev
                   then ShapePoint.Dist_traveled prev else m)
                  (ShapePoint.Dist_traveled cur)) eqn:Hv; [done |].
  by rewrite Hv.
Qed.

Lemma checkShapeMeasure_default (shape : Shape.t) (opt : ParseOptions) :
  UseDefValueOnError opt = true ->
  exists pts' : list ShapePoint.t,
    checkShapeMeasure shape opt
      = Some (Shape.with_Points shape pts', Returns None) /\
    declared_in_order ShapePoint.Has_dist ShapePoint.Dist_traveled pts'.
Proof.
  intros Hdef. unfold checkShapeMeasure.
  destruct (Shape.Points shape) as [|p0 rest] eqn:Hpts.
  - exists []. rewrite for_loop_exit by done.
    split; [done | apply declared_in_order_nil].
  - pose proof (shape_loop_default (Shape.Id shape) opt Hdef rest [] p0
                  neg_inf (S (length (p0 :: rest)))) as Hloop.
    change (len [] + 1) with 1 in Hloop. cbn [app] in Hloop.
    rewrite Hloop by (simpl; lia).
    exists (p0 :: default_scan neg_inf p0 rest). split; [done |].
    apply in_order_from_spec, default_scan_in_order.
Qed.

(** X7: with use_default_on_error the shape check repairs the shape: it
    returns nil, and the declared distances of the points it leaves are in
    order, so that checking the result again, under any options, returns nil
    and changes nothing. *)
Theorem default_values_put_the_shape_in_order
    (shape : Shape.t) (opt : ParseOptions) :
  UseDefValueOnError opt = true ->
  exists pts' : list ShapePoint.t,
    checkShapeMeasure shape opt
      = Some (Shape.with_Points shape pts', Returns None) /\
    declared_in_order ShapePoint.Has_dist ShapePoint.Dist_traveled pts' /\
    forall opt' : ParseOptions,
      checkShapeMeasure (Shape.with_Points shape pts') opt'
      = Some (Shape.with_Points shape pts', Returns None).
Proof.
  intros Hdef.
  destruct (checkShapeMeasure_default shape opt Hdef) as (pts' & Hrun & Hord).
  exists pts'. split; [done |]. split; [done |].
  intros opt'.
  by apply (checkShapeMeasure_in_order (Shape.with_Points shape pts')).
Qed.

(** X7 at the points with the distances 10, 5, 3: the second and the third
    are reset, and the strict check then accepts the shape. *)
Lemma default_values_witness :
  exists pts' : list ShapePoint.t,
    checkShapeMeasure (shape_of "s" [pt 1 10; pt 2 5; pt 3 3])
      (flags true false false)
    = Some (shape_of "s" pts', Returns None) /\
    checkShapeMeasure (shape_of "s" pts') (flags false false false)
    = Some (shape_of "s" pts', Returns None).
Proof.
  destruct (default_values_put_the_shape_in_order
              (shape_of "s" [pt 1 10; pt 2 5; pt 3 3])
              (flags true false false) eq_refl) as (pts' & H1 & _ & H2).
  exists pts'. split; [exact H1 | exact (H2 (flags false false false))].
Defined.

(** ** How many points the shape check can drop *)

(** X25: whatever the shape and the options, the shape check never takes
    out more points than it leaves: every point it drops costs the loop one
    iteration, so that at most half of the points can go, however many
    declare a distance that is out of order. *)
Theorem shape_check_drops_at_most_half
    (shape : Shape.t) (opt : ParseOptions) :
  exists (shape' : Shape.t) (e : option check_error),
    checkShapeMeasure shape opt = Some (shape', Returns e) /\
    len (Shape.Points shape) <= 2 * len (Shape.Points shape').
Proof.
  destruct (checkShapeMeasure_total shape opt) as [[shape' o] Hrun].
  destruct (checkShapeMeasure_returns _ _ _ _ Hrun) as [e ->].
  exists shape', e. split; [done |].
  unfold checkShapeMeasure in Hrun.
  destruct (for_loop _ _ _ _) as [[s o']|] eqn:Hloop; [| done].
  simplify_eq. cbn [Shape.Points Shape.with_Points].
  refine (for_loop_inv _
            (fun j v =>
               1 <= j <= len (elems v) + 1 /\ 0 <= deleted v <= j - 1 /\
               len (elems v) + deleted v = len (Shape.Points shape))
            (fun s _ => len (Shape.Points shape) <= 2 * len s)
            _ _ _ _ _ s (Returns e) _ Hloop).
  - intros j v (Hj & Hd & Hlen) Hlt. unfold shape_body.
    destruct (index_is_Some (elems v) (j - deleted v - 1)) as [prev ->];
      [lia |].
    destruct (index_is_Some (elems v) (j - deleted v)) as [cur ->]; [lia |].
    destruct (_ && _); [| cbn [deleted elems]; lia].
    destruct (UseDefValueOnError opt).
    + cbn [deleted elems]. unfold len in *. rewrite length_insert. lia.
    + destruct (DropErroneous opt); [| lia].
      rewrite remove_at_delete by lia. cbn [deleted elems].
      rewrite len_delete by lia. lia.
  - intros j v (Hj & Hd & Hlen) Hge. lia.
  - cbn [deleted elems]. pose proof (len_nonneg (Shape.Points shape)). lia.
Qed.

(** ** checkStopTimeMeasure, iteration by iteration *)

Section StopTimeSteps.
Context {Time : Type} `{!TimeOps Time}.
Implicit Types (sts rest pre : list (StopTime.t Time)).
Implicit Types (v : vars (StopTime.t Time)) (prev cur : StopTime.t Time).

(** The temporal check on the stop-time [cur] after [prev]. *)
Lemma time_part_at id opt pre prev cur rest d m :
  time_part id opt (len pre + 1) (Vars d m (pre ++ prev :: cur :: rest))
  = if time_violation prev cur then
      if DropErroneous opt then Next (Vars (d + 1) m (pre ++ prev :: rest))
      else
        Leave (pre ++ prev :: cur :: rest)
          (Returns (Some (ArrivalBeforeDeparture id (StopTime.Sequence cur))))
    else Next (Vars d m (pre ++ prev :: cur :: rest)).
Proof.
  assert (Hp : index (pre ++ prev :: cur :: rest) (len pre + 1 - 1)
               = Some prev).
  { replace (len pre + 1 - 1) with (len pre) by lia.
    apply index_app_middle. }
  pose proof (index_app_next pre prev cur rest) as Hc.
  destruct (time_violation prev cur) eqn:Hv.
  - rewrite (time_part_violation id opt _ _ prev cur) by done.
    cbn [deleted max elems]. by rewrite delete_app_next.
  - by rewrite (time_part_no_violation id opt _ _ prev cur).
Qed.

(** The distance check on the stop-time [cur] after [prev]. *)
Lemma dist_part_at id opt pre prev cur rest d m :
  dist_part id opt (len pre + 1) (Vars d m (pre ++ prev :: cur :: rest))
  = let m' := if StopTime.HasDistanceTraveled prev
              then StopTime.Shape_dist_traveled prev else m in
    if StopTime.HasDistanceTraveled cur
       && gt m' (StopTime.Shape_dist_traveled cur)
    then
      if UseDefValueOnError opt then
        Next (Vars d m' (pre ++ prev :: StopTime.clear_dist cur :: rest))
      else if DropErroneous opt then
        Next (Vars (d + 1) m' (pre ++ prev :: rest))
      else
        Leave (pre ++ prev :: cur :: rest)
          (Returns (Some
             (StopTimeDistNotIncreasing id (StopTime.Sequence cur) m'
                (StopTime.Shape_dist_traveled cur))))
    else Next (Vars d m' (pre ++ prev :: cur :: rest)).
Proof.
  unfold dist_part. cbn [deleted max elems].
  replace (len pre + 1 - 1) with (len pre) by lia.
  rewrite index_app_middle, index_app_next, insert_app_next,
    remove_at_app_next.
  done.
Qed.

(** The distance check when the temporal check has just dropped the last
    stop-time: the index is that of the element that is gone. *)
Lemma dist_part_at_end id opt pre prev d m :
  dist_part id opt (len pre + 1) (Vars d m (pre ++ [prev]))
  = Leave (pre ++ [prev])
      (Panics (IndexOutOfRange (len pre + 1) (len pre + 1))).
Proof.
  unfold dist_part. cbn [deleted max elems].
  replace (len pre + 1 - 1) with (len pre) by lia.
  rewrite index_app_middle.
  rewrite (proj2 (index_None (pre ++ [prev]) (len pre + 1)))
    by (rewrite len_snoc; lia).
  by rewrite len_snoc.
Qed.

Lemma stoptime_body_0 id opt j m sts :
  stoptime_body id opt j (Vars 0 m sts)
  = match time_part id opt j (Vars 0 m sts) with
    | Next v' => dist_part id opt j v'
    | Leave s o => Leave s o
    end.
Proof. unfold stoptime_body. cbn [deleted]. by rewrite Z.sub_0_r. Qed.

Lemma no_violation_of_lookup (prev : StopTime.t Time) rest :
  (forall (k : nat) a b,
     (prev :: rest) !! k = Some a -> (prev :: rest) !! S k = Some b ->
     time_violation a b = false) ->
  no_violation prev rest.
Proof.
  revert prev. induction rest as [|cur rest IH]; intros prev H; [done |].
  split; [by apply (H 0%nat) |].
  apply IH. intros k a b Ha Hb. by apply (H (S k)).
Qed.

(** A pass that finds neither a stop-time that arrives before the one
    before it departs nor a distance below [max] leaves the stop-times as
    they are, whatever the options. *)
Lemma stoptime_loop_in_order id opt :
  forall rest pre prev m fuel,
    (length rest < fuel)%nat ->
    no_violation prev rest ->
    in_order_from (A := StopTime.t Time) StopTime.Has_dist
      StopTime.Shape_dist_traveled m prev rest
      = true ->
    for_loop (stoptime_body id opt) fuel (len pre + 1)
      (Vars 0 m (pre ++ prev :: rest))
    = Some (pre ++ prev :: rest, Returns None).
Proof.
  intros rest.
  induction rest as [|cur rest IH]; intros pre prev m fuel Hfuel Hv Hord;
    (destruct fuel as [|fuel]; [simpl in Hfuel; lia |]).
  - rewrite for_loop_exit; [done |]. cbn [elems]. rewrite len_app_cons.
    unfold len. simpl. lia.
  - rewrite for_loop_enter
      by (cbn [elems]; rewrite len_app_cons; unfold len; simpl; lia).
    destruct Hv as [Hv1 Hv2].
    cbn [in_order_from] in Hord. apply andb_true_iff in Hord as [H1 H2].
    apply negb_true_iff in H1.
    rewrite stoptime_body_0, time_part_at, Hv1, dist_part_at. cbn zeta.
    unfold StopTime.HasDistanceTraveled. rewrite H1.
    specialize (IH (pre ++ [prev]) cur
                  (if StopTime.Has_dist prev
                   then StopTime.Shape_dist_traveled prev else m) fuel).
    rewrite len_snoc, <- !app_assoc in IH. simpl in IH.
    apply IH; [simpl in Hfuel; lia | done | done].
Qed.

(** Without [DropErroneous] the loop is one pass in which nothing moves:
    it resets distances, or stops at the first comparison that fails. *)
Lemma stoptime_loop_keeps id opt :
  DropErroneous opt = false ->
  forall rest pre prev m fuel,
    (length rest < fuel)%nat ->
    exists rest' e,
      for_loop (stoptime_body id opt) fuel (len pre + 1)
        (Vars 0 m (pre ++ prev :: rest))
      = Some (pre ++ prev :: rest', Returns e) /\
      Forall2 same_or_cleared rest rest' /\
      (UseDefValueOnError opt = false -> rest' = rest) /\
      match e with
      | None =>
          no_violation prev rest' /\
          in_order_from (A := StopTime.t Time) StopTime.Has_dist
      StopTime.Shape_dist_traveled
            m prev rest' = true
      | Some e =>
          named_id e = id /\
          (UseDefValueOnError opt = true ->
           exists seq, e = ArrivalBeforeDeparture id seq)
      end.
Proof.
  intros Hdrop rest.
  induction rest as [|cur rest IH]; intros pre prev m fuel Hfuel;
    (destruct fuel as [|fuel]; [simpl in Hfuel; lia |]).
  - rewrite for_loop_exit
      by (cbn [elems]; rewrite len_app_cons; unfold len; simpl; lia).
    exists [], None. by repeat split.
  - rewrite for_loop_enter
      by (cbn [elems]; rewrite len_app_cons; unfold len; simpl; lia).
    rewrite stoptime_body_0, time_part_at, Hdrop.
    assert (Hsame : Forall2 (same_or_cleared (Time := Time)) rest rest).
    { apply Forall2_same_length_lookup_2; [done |].
      intros i a b Ha Hb. left. congruence. }
    destruct (time_violation prev cur) eqn:Hv.
    { exists (cur :: rest), (Some (ArrivalBeforeDeparture id
                                    (StopTime.Sequence cur))).
      split; [done |]. split; [constructor; [by left | done] |].
      split; [done |]. split; [done |]. eauto. }
    rewrite dist_part_at, Hdrop. cbn zeta.
    unfold StopTime.HasDistanceTraveled.
    set (m' := if StopTime.Has_dist prev
               then StopTime.Shape_dist_traveled prev else m).
    destruct (StopTime.Has_dist cur
              && gt m' (StopTime.Shape_dist_traveled cur)) eqn:Hd.
    + destruct (UseDefValueOnError opt) eqn:Hdef.
      * destruct (IH (pre ++ [prev]) (StopTime.clear_dist cur) m' fuel)
          as (rest' & e & Hrun & Hall & Hkeep & He);
          [simpl in Hfuel; lia |].
        rewrite len_snoc, <- !app_assoc in Hrun. simpl in Hrun.
        exists (StopTime.clear_dist cur :: rest'), e.
        split; [done |]. split; [constructor; [by right | done] |].
        split; [done |].
        destruct e as [e|]; [done |]. destruct He as [He1 He2].
        split; [by split |]. cbn [in_order_from]. fold m'. by rewrite He2.
      * exists (cur :: rest),
          (Some (StopTimeDistNotIncreasing id (StopTime.Sequence cur) m'
                   (StopTime.Shape_dist_traveled cur))).
        split; [done |]. split; [constructor; [by left | done] |].
        split; [done |]. split; [done |]. done.
    + destruct (IH (pre ++ [prev]) cur m' fuel)
        as (rest' & e & Hrun & Hall & Hkeep & He); [simpl in Hfuel; lia |].
      rewrite len_snoc, <- !app_assoc in Hrun. simpl in Hrun.
      exists (cur :: rest'), e.
      split; [done |]. split; [constructor; [by left | done] |].
      split; [intros Hdef; by rewrite Hkeep |].
      destruct e as [e|]; [done |]. destruct He as [He1 He2].
      split; [by split |]. cbn [in_order_from]. fold m'.
      by rewrite Hd, He2.
Qed.
End StopTimeSteps.

Lemma with_StopTimes_id {Time Frequency : Type}
    (trip : Trip.t Time Frequency) :
  Trip.with_StopTimes trip (Trip.StopTimes trip) = trip.
Proof. by destruct trip. Qed.

Lemma checkStopTimeMeasure_nodrop
    {Time Frequency : Type} `{!TimeOps Time}
    (trip : Trip.t Time Frequency) (opt : ParseOptions) :
  DropErroneous opt = false ->
  exists (sts' : list (StopTime.t Time)) (e : option check_error),
    checkStopTimeMeasure trip opt
      = Some (Trip.with_StopTimes trip sts', Returns e) /\
    Forall2 same_or_cleared (Trip.StopTimes trip) sts' /\
    (UseDefValueOnError opt = false -> sts' = Trip.StopTimes trip) /\
    (e = None ->
     (forall (k : nat) (a b : StopTime.t Time),
        sts' !! k = Some a -> sts' !! S k = Some b ->
        time_violation a b = false) /\
     declared_in_order (A := StopTime.t Time) StopTime.Has_dist
    StopTime.Shape_dist_traveled sts').
Proof.
  intros Hdrop. unfold checkStopTimeMeasure.
  destruct (Trip.StopTimes trip) as [|s0 rest] eqn:Hsts.
  - exists [], None. rewrite for_loop_exit by done.
    split; [done |]. split; [done |]. split; [done |]. intros _.
    split; [by intros k a b Ha | apply declared_in_order_nil].
  - destruct (stoptime_loop_keeps (Trip.Id trip) opt Hdrop rest [] s0
                neg_inf (S (length (s0 :: rest))))
      as (rest' & e & Hrun & Hall & Hkeep & He); [simpl; lia |].
    change (len [] + 1) with 1 in Hrun. cbn [app] in Hrun. rewrite Hrun.
    exists (s0 :: rest'), e. split; [done |].
    split; [constructor; [by left | done] |].
    split; [intros Hdef; by rewrite Hkeep |].
    intros ->. destruct He as [He1 He2]. split.
    + intros k a b. by apply no_violation_lookup.
    + by apply in_order_from_spec.
Qed.

(** X8: without drop_erroneous the stop-time check always returns, and
    no stop-time moves: each is left as it was or with its distance reset,
    and none is changed when use_default_on_error is not set either.  When
    the check returns nil, no stop-time that is left arrives before the one
    before it departs, and the declared distances are in order. *)
Theorem stop_time_check_without_drop
    {Time Frequency : Type} `{!TimeOps Time}
    (trip : Trip.t Time Frequency) (opt : ParseOptions) :
  DropErroneous opt = false ->
  exists (sts' : list (StopTime.t Time)) (e : option check_error),
    checkStopTimeMeasure trip opt
      = Some (Trip.with_StopTimes trip sts', Returns e) /\
    Forall2 same_or_cleared (Trip.StopTimes trip) sts' /\
    (UseDefValueOnError opt = false -> sts' = Trip.StopTimes trip) /\
    (e = None ->
     (forall (k : nat) (a b : StopTime.t Time),
        sts' !! k = Some a -> sts' !! S k = Some b ->
        time_violation a b = false) /\
     declared_in_order (A := StopTime.t Time) StopTime.Has_dist
    StopTime.Shape_dist_traveled sts').
Proof. apply checkStopTimeMeasure_nodrop. Qed.

(** X8 at two stop-times of which the second declares a shorter distance,
    with use_default_on_error: its distance is reset. *)
Lemma stop_time_check_without_drop_witness :
  exists (sts' : list (StopTime.t Z)) (e : option check_error),
    checkStopTimeMeasure (trip_of "t" [std 1 0 1 10; std 2 2 3 5])
      (flags true false false)
    = Some (trip_of "t" sts', Returns e) /\
    Forall2 same_or_cleared [std 1 0 1 10; std 2 2 3 5] sts'.
Proof.
  destruct (stop_time_check_without_drop
              (trip_of "t" [std 1 0 1 10; std 2 2 3 5])
              (flags true false false) eq_refl)
    as (sts' & e & H1 & H2 & _).
  exists sts', e. split; [exact H1 | exact H2].
Defined.

(** X9: the stop-time check returns an error only when drop_erroneous is
    not set; the error names the trip's id, and with use_default_on_error
    set it can only be that of an arrival before the previous departure. *)
Theorem stop_time_check_error
    {Time Frequency : Type} `{!TimeOps Time}
    (trip trip' : Trip.t Time Frequency) (opt : ParseOptions)
    (e : check_error) :
  checkStopTimeMeasure trip opt = Some (trip', Returns (Some e)) ->
  DropErroneous opt = false /\ named_id e = Trip.Id trip /\
  (UseDefValueOnError opt = true ->
   exists seq, e = ArrivalBeforeDeparture (Trip.Id trip) seq).
Proof.
  unfold checkStopTimeMeasure.
  destruct (for_loop _ _ _ _) as [[s o]|] eqn:Hloop; [| done].
  intros ?; simplify_eq. revert Hloop.
  apply (for_loop_inv _ (fun _ _ => True)
           (fun _ o =>
              match o with
              | Returns (Some e) =>
                  DropErroneous opt = false /\ named_id e = Trip.Id trip /\
                  (UseDefValueOnError opt = true ->
                   exists seq, e = ArrivalBeforeDeparture (Trip.Id trip) seq)
              | _ => True
              end)); [| done | done].
  intros j v _ _. unfold stoptime_body.
  assert (forall v1 : vars (StopTime.t Time),
            match dist_part (Trip.Id trip) opt (j - deleted v) v1 with
            | Leave _ (Returns (Some e)) =>
                DropErroneous opt = false /\ named_id e = Trip.Id trip /\
                (UseDefValueOnError opt = true ->
                 exists seq, e = ArrivalBeforeDeparture (Trip.Id trip) seq)
            | _ => True
            end) as Hdist.
  { intros v1. unfold dist_part.
    destruct (index _ _); [| done]. destruct (index _ _); [| done].
    destruct (_ && _); [| done].
    destruct (UseDefValueOnError opt); [done |].
    destruct (DropErroneous opt); [by destruct (remove_at _ _) |].
    by repeat split. }
  unfold time_part.
  destruct (arrival_before_departure _ _) as [[]|]; [| apply Hdist | done].
  destruct (DropErroneous opt) eqn:Hdrop.
  - destruct (remove_at _ _); [apply Hdist | done].
  - destruct (index _ _); [| done]. repeat split; eauto.
Qed.

(** X9 at a trip whose second stop-time arrives before the first departs,
    with use_default_on_error set. *)
Lemma stop_time_check_error_witness :
  DropErroneous (flags true false false) = false /\
  named_id (ArrivalBeforeDeparture "t" 2) = "t" /\
  (UseDefValueOnError (flags true false false) = true ->
   exists seq, ArrivalBeforeDeparture "t" 2 = ArrivalBeforeDeparture "t" seq).
Proof.
  apply (stop_time_check_error
           (trip_of "t" [st 1 0 36000; st 2 32400 32400])
           (trip_of "t" [st 1 0 36000; st 2 32400 32400])
           (flags true false false) (ArrivalBeforeDeparture "t" 2)).
  vm_compute. reflexivity.
Defined.

Lemma checkStopTimeMeasure_in_order
    {Time Frequency : Type} `{!TimeOps Time}
    (trip : Trip.t Time Frequency) (opt : ParseOptions) :
  (forall (k : nat) (a b : StopTime.t Time),
     Trip.StopTimes trip !! k = Some a ->
     Trip.StopTimes trip !! S k = Some b ->
     time_violation a b = false) ->
  declared_in_order (A := StopTime.t Time) StopTime.Has_dist
    StopTime.Shape_dist_traveled
    (Trip.StopTimes trip) ->
  checkStopTimeMeasure trip opt = Some (trip, Returns None).
Proof.
  intros Htime Hord. unfold checkStopTimeMeasure.
  destruct (Trip.StopTimes trip) as [|s0 rest] eqn:Hsts.
  - rewrite for_loop_exit by done. cbn [elems].
    by rewrite <- Hsts, with_StopTimes_id.
  - pose proof (stoptime_loop_in_order (Trip.Id trip) opt rest [] s0
                  neg_inf (S (length (s0 :: rest)))) as Hloop.
    change (len [] + 1) with 1 in Hloop. cbn [app] in Hloop.
    rewrite Hloop; [by rewrite <- Hsts, with_StopTimes_id | simpl; lia | |].
    + by apply no_violation_of_lookup.
    + by apply in_order_from_spec.
Qed.

(** X10: a trip in which no stop-time arrives before the one before it
    departs, and whose declared distances are in order, passes the check
    under every setting of the options, and is left as it was. *)
Theorem trip_in_order_passes_unchanged
    {Time Frequency : Type} `{!TimeOps Time}
    (trip : Trip.t Time Frequency) (opt : ParseOptions) :
  (forall (k : nat) (a b : StopTime.t Time),
     Trip.StopTimes trip !! k = Some a ->
     Trip.StopTimes trip !! S k = Some b ->
     time_violation a b = false) ->
  declared_in_order (A := StopTime.t Time) StopTime.Has_dist
    StopTime.Shape_dist_traveled
    (Trip.StopTimes trip) ->
  checkStopTimeMeasure trip opt = Some (trip, Returns None).
Proof. apply checkStopTimeMeasure_in_order. Qed.

(** X10 at three stop-times in order, with drop_erroneous set. *)
Lemma trip_in_order_witness :
  checkStopTimeMeasure
    (trip_of "t" [std 1 0 1 0; std 2 2 3 5; std 3 4 5 5])
    (flags false true false)
  = Some (trip_of "t" [std 1 0 1 0; std 2 2 3 5; std 3 4 5 5], Returns None).
Proof.
  apply (trip_in_order_passes_unchanged
           (trip_of "t" [std 1 0 1 0; std 2 2 3 5; std 3 4 5 5])
           (flags false true false)).
  - intros k a b Ha Hb.
    apply (no_violation_lookup (std 1 0 1 0) [std 2 2 3 5; std 3 4 5 5]
             k a b); [| exact Ha | exact Hb].
    vm_compute. repeat split.
  - apply in_order_from_spec. vm_compute. reflexivity.
Defined.

(** ** checkStopTimeMeasure: when it panics *)

Section StopTimePanics.
Context {Time : Type} `{!TimeOps Time}.
Implicit Types (v : vars (StopTime.t Time)).

(** The temporal check at an index within the slice: it reads the element
    before the first when the index is 0. *)
Lemma time_part_cases id opt i v :
  0 <= i < len (elems v) ->
  (i = 0 /\
   time_part id opt i v
   = Leave (elems v) (Panics (IndexOutOfRange (-1) (len (elems v))))) \/
  (1 <= i /\
   (time_part id opt i v = Next v \/
    (DropErroneous opt = true /\
     time_part id opt i v
     = Next (Vars (deleted v + 1) (max v)
               (delete (Z.to_nat i) (elems v)))) \/
    (exists e,
       time_part id opt i v = Leave (elems v) (Returns (Some e))))).
Proof.
  intros Hi. unfold time_part.
  destruct (arrival_before_departure (elems v) i) as [[]|] eqn:E.
  - right.
    apply arrival_before_departure_true in E
      as (prev & cur & Hp & Hc & _).
    apply index_Some in Hp as [Hp _]. split; [lia |]. rewrite Hc.
    destruct (DropErroneous opt).
    + right; left. split; [done |]. by rewrite remove_at_delete.
    + right; right. eauto.
  - right. split; [apply arrival_before_departure_Some in E; lia | by left].
  - left. unfold arrival_before_departure in E.
    destruct (index (elems v) (i - 1)) eqn:Hp.
    + destruct (negb _); [| done].
      destruct (index_is_Some (elems v) i Hi) as [c Hc].
      by rewrite Hc in E.
    + apply index_None in Hp. assert (i = 0) as -> by lia. done.
Qed.

(** The distance check at an index of the slice or just behind it. *)
Lemma dist_part_cases id opt i v :
  1 <= i <= len (elems v) ->
  (i = len (elems v) /\
   dist_part id opt i v
   = Leave (elems v) (Panics (IndexOutOfRange i (len (elems v))))) \/
  (i < len (elems v) /\
   ((exists m' l',
       dist_part id opt i v = Next (Vars (deleted v) m' l') /\
       len l' = len (elems v)) \/
    (DropErroneous opt = true /\
     exists m',
       dist_part id opt i v
       = Next (Vars (deleted v + 1) m' (delete (Z.to_nat i) (elems v)))) \/
    (exists e,
       dist_part id opt i v = Leave (elems v) (Returns (Some e))))).
Proof.
  intros Hi. unfold dist_part.
  destruct (index_is_Some (elems v) (i - 1)) as [prev ->]; [lia |].
  destruct (index (elems v) i) as [cur|] eqn:Hc.
  - right. apply index_Some in Hc as [Hc _]. split; [lia |].
    destruct (_ && _); [| left; eauto].
    destruct (UseDefValueOnError opt).
    + left. eexists _, _. split; [done |]. unfold len.
      by rewrite length_insert.
    + destruct (DropErroneous opt); [| right; right; eauto].
      right; left. split; [done |]. rewrite remove_at_delete by done. eauto.
  - left. apply index_None in Hc. split; [lia | done].
Qed.
End StopTimePanics.

Lemma checkStopTimeMeasure_panics
    {Time Frequency : Type} `{!TimeOps Time}
    (trip trip' : Trip.t Time Frequency) (opt : ParseOptions)
    (p : runtime_error) :
  checkStopTimeMeasure trip opt = Some (trip', Panics p) ->
  DropErroneous opt = true /\
  len (Trip.StopTimes trip') < len (Trip.StopTimes trip) /\
  (p = IndexOutOfRange (len (Trip.StopTimes trip'))
         (len (Trip.StopTimes trip')) \/
   p = IndexOutOfRange (-1) (len (Trip.StopTimes trip'))).
Proof.
  unfold checkStopTimeMeasure.
  destruct (for_loop _ _ _ _) as [[s o]|] eqn:Hloop; [| done].
  intros ?; simplify_eq. cbn [Trip.StopTimes Trip.with_StopTimes].
  refine (for_loop_inv _
            (fun j v =>
               1 <= j /\ 0 <= deleted v <= j /\
               (DropErroneous opt = false -> deleted v = 0) /\
               len (elems v) + deleted v = len (Trip.StopTimes trip))
            (fun s o =>
               match o with
               | Panics p =>
                   DropErroneous opt = true /\
                   len s < len (Trip.StopTimes trip) /\
                   (p = IndexOutOfRange (len s) (len s) \/
                    p = IndexOutOfRange (-1) (len s))
               | _ => True
               end) _ _ _ _ _ s (Panics p) _ Hloop);
    [| done | cbn [deleted elems]; lia].
  intros j v (Hj & Hd & Hnodrop & Hlen) Hlt.
  unfold stoptime_body.
  destruct (time_part_cases (Trip.Id trip) opt (j - deleted v) v)
    as [[Hi ->] | [Hi Htime]]; [lia | |].
  { (* index -1 *)
    assert (DropErroneous opt = true) as Hdrop.
    { destruct (DropErroneous opt); [done |]. specialize (Hnodrop eq_refl).
      lia. }
    split; [done |]. split; [lia | by right]. }
  assert (forall v1 : vars (StopTime.t Time),
            deleted v <= deleted v1 <= deleted v + 1 ->
            (deleted v1 = deleted v + 1 -> DropErroneous opt = true) ->
            len (elems v1) + deleted v1 = len (Trip.StopTimes trip) ->
            match dist_part (Trip.Id trip) opt (j - deleted v) v1 with
            | Next v' =>
                1 <= j + 1 /\ 0 <= deleted v' <= j + 1 /\
                (DropErroneous opt = false -> deleted v' = 0) /\
                len (elems v') + deleted v' = len (Trip.StopTimes trip)
            | Leave s (Panics p) =>
                DropErroneous opt = true /\
                len s < len (Trip.StopTimes trip) /\
                (p = IndexOutOfRange (len s) (len s) \/
                 p = IndexOutOfRange (-1) (len s))
            | Leave _ _ => True
            end) as Hdist.
  { intros v1 Hd1 Hdrop1 Hlen1.
    destruct (dist_part_cases (Trip.Id trip) opt (j - deleted v) v1)
      as [[Hend ->] | [Hin [(m' & l' & -> & Hl') | [[Hdrop (m' & ->)]
                                                   | [e ->]]]]];
      [lia | | | | done].
    - assert (deleted v1 = deleted v + 1) as Hdel by lia.
      split; [auto |]. split; [lia |]. left. by rewrite Hend.
    - cbn [deleted elems]. split; [lia |]. split; [lia |].
      split; [| lia]. intros Hno. specialize (Hnodrop Hno).
      destruct (decide (deleted v1 = deleted v + 1)) as [Heq|]; [| lia].
      apply Hdrop1 in Heq. congruence.
    - cbn [deleted elems]. rewrite len_delete by lia.
      split; [lia |]. split; [lia |]. split; [congruence | lia]. }
  destruct Htime as [-> | [[Hdrop ->] | [e ->]]]; [| | done].
  - apply Hdist; [lia | lia | done].
  - apply Hdist; cbn [deleted elems]; [lia | done |].
    rewrite len_delete by lia. lia.
Qed.

(** X11: the stop-time check panics only when drop_erroneous is set and
    it has dropped a stop-time, and only in two ways: on the index just
    behind the last stop-time that is left, or on the index -1. *)
Theorem stop_time_check_panics_only_after_a_drop
    {Time Frequency : Type} `{!TimeOps Time}
    (trip trip' : Trip.t Time Frequency) (opt : ParseOptions)
    (p : runtime_error) :
  checkStopTimeMeasure trip opt = Some (trip', Panics p) ->
  DropErroneous opt = true /\
  len (Trip.StopTimes trip') < len (Trip.StopTimes trip) /\
  (p = IndexOutOfRange (len (Trip.StopTimes trip'))
         (len (Trip.StopTimes trip')) \/
   p = IndexOutOfRange (-1) (len (Trip.StopTimes trip'))).
Proof. apply checkStopTimeMeasure_panics. Qed.

(** X11 at a trip whose second and last stop-time arrives before the
    first departs. *)
Lemma stop_time_check_panics_witness :
  DropErroneous (flags false true false) = true /\
  len [st 1 0 36000] < len [st 1 0 36000; st 2 32400 32400] /\
  (IndexOutOfRange 1 1
   = IndexOutOfRange (len [st 1 0 36000]) (len [st 1 0 36000]) \/
   IndexOutOfRange 1 1 = IndexOutOfRange (-1) (len [st 1 0 36000])).
Proof.
  apply (stop_time_check_panics_only_after_a_drop
           (trip_of "t" [st 1 0 36000; st 2 32400 32400])
           (trip_of "t" [st 1 0 36000])
           (flags false true false) (IndexOutOfRange 1 1)).
  vm_compute. reflexivity.
Defined.

(** X12: with drop_erroneous set (and use_default_on_error unset), take a
    trip of five or more stop-times of which the second arrives before the
    first departs and the third declares less than the first.  The first
    iteration drops both the second and the third, the next one computes
    the index 0, and the check panics on reading the element at index -1;
    the remaining stop-times are never checked. *)
Theorem two_drops_in_one_iteration_panic
    {Time Frequency : Type} `{!TimeOps Time}
    (trip : Trip.t Time Frequency) (opt : ParseOptions)
    (a b c d e : StopTime.t Time) (rest : list (StopTime.t Time)) :
  Trip.StopTimes trip = a :: b :: c :: d :: e :: rest ->
  time_violation a b = true ->
  StopTime.Has_dist a = true -> StopTime.Has_dist c = true ->
  gt (StopTime.Shape_dist_traveled a) (StopTime.Shape_dist_traveled c)
    = true ->
  DropErroneous opt = true -> UseDefValueOnError opt = false ->
  checkStopTimeMeasure trip opt
  = Some (Trip.with_StopTimes trip (a :: d :: e :: rest),
          Panics (IndexOutOfRange (-1) (len (a :: d :: e :: rest)))).
Proof.
  intros Hsts Hv Ha Hc Hgt Hdrop Hdef. unfold checkStopTimeMeasure.
  rewrite Hsts. cbn [length].
  rewrite for_loop_enter by (unfold len; simpl; lia).
  rewrite stoptime_body_0.
  rewrite (time_part_at (Trip.Id trip) opt [] a b (c :: d :: e :: rest)
             0 neg_inf), Hv, Hdrop.
  cbv beta iota.
  pose proof (dist_part_at (Trip.Id trip) opt [] a c (d :: e :: rest)
                (0 + 1) neg_inf) as Hdist.
  change (len [] + 1) with 1 in Hdist. rewrite Hdist.
  cbn zeta. unfold StopTime.HasDistanceTraveled.
  rewrite Ha, Hc, Hgt, Hdef, Hdrop. cbn [andb app].
  rewrite for_loop_enter by (unfold len; simpl; lia).
  unfold stoptime_body. cbn [deleted].
  destruct (time_part_cases (Trip.Id trip) opt (1 + 1 - (0 + 1 + 1))
              (Vars (0 + 1 + 1) (StopTime.Shape_dist_traveled a)
                 (a :: d :: e :: rest)))
    as [[_ ->] | [Hi _]]; [unfold len; simpl; lia | done | lia].
Qed.

(** X12 at five stop-times: the second arrives at 09:00 after the first
    left at 10:00, and the third declares the distance 5 after the first
    declared 10. *)
Lemma two_drops_in_one_iteration_witness :
  checkStopTimeMeasure
    (trip_of "t"
       [std 1 0 36000 10; std 2 32400 32400 11; std 3 36000 36000 5;
        std 4 36000 36000 12; std 5 36000 36000 13])
    (flags false true false)
  = Some (trip_of "t"
            [std 1 0 36000 10; std 4 36000 36000 12; std 5 36000 36000 13],
          Panics (IndexOutOfRange (-1) 3)).
Proof.
  apply (two_drops_in_one_iteration_panic
           (trip_of "t"
              [std 1 0 36000 10; std 2 32400 32400 11; std 3 36000 36000 5;
               std 4 36000 36000 12; std 5 36000 36000 13])
           (flags false true false)
           (std 1 0 36000 10) (std 2 32400 32400 11) (std 3 36000 36000 5)
           (std 4 36000 36000 12) (std 5 36000 36000 13) []);
    reflexivity.
Defined.

(** * Further properties of the parse *)

(** ** getFile *)


(** An archive gives the files of the directory that holds, under each
    name, the first entry of the archive with that name. *)
Lemma getFile_archive (entries : list (string * file)) (name : string) :
  getFile (Archive entries) name
  = getFile (Directory (list_to_map entries)) name.
Proof.
  induction entries as [|[n x] entries IH]; simpl; [done |].
  case_bool_decide as Hn.
  - simpl in Hn. subst. by rewrite lookup_insert_eq.
  - simpl in Hn. by rewrite lookup_insert_ne.
Qed.

Section MorePipelineFacts.
Context `{Ent : Entities} `{Mat : !Materializers} `{Ord : !MapOrder}.
Implicit Types (feed f : Feed) (path : location) (s : stage).

Local Ltac stage_not_in H :=
  repeat (apply elem_of_cons in H as [? | H]; [done |]);
  by apply elem_of_nil in H.

(** The stages read the location through [getFile] only. *)
Lemma exec_getFile_ext s path path' f :
  (forall name, getFile path name = getFile path' name) ->
  exec s path f = exec s path' f.
Proof.
  intros H. destruct s; cbn [exec]; try done;
    unfold parseAgencies, parseFeedInfos, parseStops, parseShapes,
      parseRoutes, parseCalendar, parseCalendarDates, parseTrips,
      parseStopTimes, parseFareAttributes, parseFareAttributeRules,
      parseFrequencies, parseTransfers;
    by rewrite H.
Qed.

Lemma run_stages_getFile_ext path path' l r :
  (forall name, getFile path name = getFile path' name) ->
  run_stages path l r = run_stages path' l r.
Proof.
  intros H. revert r. induction l as [|s l IH]; intros r; [done |].
  rewrite !run_stages_cons. unfold guarded.
  rewrite (exec_getFile_ext s path path') by done.
  destruct (status r) as [[e|]|p]; simpl; try apply IH.
  destruct (exec s path' (feed_of r)) as [[f o]|]; simpl; [apply IH | done].
Qed.


(** What every stage preserves is preserved by a run. *)
Lemma run_stages_inv_exec (P : Feed -> Prop) path l r r' :
  (forall s f f' o, s ∈ l -> exec s path f = Some (f', o) -> P f -> P f') ->
  P (feed_of r) -> run_stages path l r = Some r' -> P (feed_of r').
Proof.
  revert r. induction l as [|s l IH]; intros r HP Hr Hrun.
  - unfold run_stages in Hrun. simpl in Hrun. by simplify_eq.
  - rewrite run_stages_cons in Hrun.
    destruct (guarded s path r) as [r1|] eqn:Hg; [| done]. simpl in Hrun.
    apply (IH r1); [| | done].
    + intros s' f f' o Hs'. apply HP. by right.
    + unfold guarded in Hg.
      destruct (status r) as [[e|]|p]; try by simplify_eq.
      destruct (exec s path (feed_of r)) as [[f o]|] eqn:Hex; [| done].
      simplify_eq. simpl. eapply HP; [by left | done..].
Qed.

Lemma rtc_touches_inv (P : Feed -> Prop) s f f' :
  (forall a b, touches s a b -> P a -> P b) ->
  rtc (touches s) f f' -> P f -> P f'.
Proof. intros HP. induction 1 as [|a b c Hab _ IH]; eauto. Qed.

(** ** Erroneous records *)

(** A reading loop whose body never panics gets through a file without
    malformed lines. *)
Lemma records_continue {S : Type} (P : S -> Prop)
    (body : gmap string string -> S -> flow S) :
  (forall rec st, P st -> exists st', body rec st = Continue st' /\ P st') ->
  forall file line st,
    rows_only file -> P st ->
    exists line' st', records body file line st = (line', st', None) /\ P st'.
Proof.
  intros Hbody file.
  induction file as [|[rec|msg] file IH]; intros line st Hrows Hst; simpl.
  - by eexists _, _.
  - destruct (Hbody rec st Hst) as (st' & -> & Hst').
    apply IH; [| done]. intros msg Hin. apply (Hrows msg). by right.
  - destruct (Hrows msg). by left.
Qed.

Local Ltac skip_body feed Hdrop :=
  let rec_ := fresh "rec" in
  let f0 := fresh "f0" in
  let Hf0 := fresh "Hf0" in
  intros rec_ f0 Hf0; cbv beta; unfold store_service;
  repeat match goal with
         | |- context [match ?x with _ => _ end] => destruct x eqn:?
         end;
  cbn [opts set_Shapes] in *;
  first [ by (eexists; split; [reflexivity | simpl; congruence])
        | exfalso; congruence ].

Local Ltac skip_stage stage feed Hfile Hrows Hdrop :=
  unfold returns, stage; rewrite Hfile;
  match goal with
  | |- context [records ?b ?fl 1 feed] =>
      let H := fresh "H" in
      destruct (records_continue (fun f => opts f = opts feed) b
                  ltac:(skip_body feed Hdrop) fl 1 feed Hrows eq_refl)
        as (? & ? & H & _);
      rewrite H; simpl; eauto
  end.

(** X15: with drop_erroneous set, a record that cannot be materialized
    never ends a reading stage: over a file without malformed lines the stage
    returns nil.  For stops.txt this holds when use_default_on_error is set
    as well, which keeps the linking of the parent stations from failing. *)
Theorem drop_erroneous_skips_bad_records
    (path : location) (feed : Feed) (s : stage) (name : string)
    (file : file) :
  stage_file s = Some name -> getFile path name = Some file ->
  rows_only file ->
  DropErroneous (opts feed) = true ->
  (s = StStops -> UseDefValueOnError (opts feed) = true) ->
  exists feed', exec s path feed = Some (feed', Returns None).
Proof.
  intros Hs Hfile Hrows Hdrop Hstops.
  destruct s; simpl in Hs; simplify_eq; cbn [exec].
  - skip_stage @parseAgencies feed Hfile Hrows Hdrop.
  - skip_stage @parseFeedInfos feed Hfile Hrows Hdrop.
  - unfold returns, parseStops. rewrite Hfile.
    destruct (read_stops file feed) as [[line' [f1 parents]] r] eqn:Hread.
    assert (r = None) as ->.
    { unfold read_stops in Hread.
      match type of Hread with
      | records ?b _ _ _ = _ =>
          destruct (records_continue
                      (fun st : Feed * gmap string string =>
                         opts (fst st) = opts feed) b) with
            (file := file) (line := 1)
            (st := (feed, (∅ : gmap string string)))
            as (? & ? & H & _); [| done | done |]
      end.
      - intros rec [f0 ps] Hf0. cbv beta iota. simpl in Hf0.
        destruct (createStop rec (opts f0)).
        + eexists. split; [reflexivity | done].
        + rewrite Hf0, Hdrop. eexists. split; [reflexivity | done].
      - congruence. }
    destruct (read_stops_inv _ _ _ _ _ _ Hread) as [Hopts Hids].
    destruct (link_parents_default (range parents) f1) as (f' & -> & _).
    + rewrite Hopts. by apply Hstops.
    + intros id pid Hin%range_elem. by eapply Hids.
    + apply range_NoDup.
    + simpl. eauto.
  - skip_stage @parseShapes feed Hfile Hrows Hdrop.
  - skip_stage @parseRoutes feed Hfile Hrows Hdrop.
  - skip_stage @parseCalendar feed Hfile Hrows Hdrop.
  - skip_stage @parseCalendarDates feed Hfile Hrows Hdrop.
  - skip_stage @parseTrips feed Hfile Hrows Hdrop.
  - skip_stage @parseStopTimes feed Hfile Hrows Hdrop.
  - skip_stage @parseFareAttributes feed Hfile Hrows Hdrop.
  - skip_stage @parseFareAttributeRules feed Hfile Hrows Hdrop.
  - skip_stage @parseFrequencies feed Hfile Hrows Hdrop.
  - skip_stage @parseTransfers feed Hfile Hrows Hdrop.
Qed.

(** ** The agency table *)

Lemma set_Agencies_id f : set_Agencies f (Agencies f) = f.
Proof. by destruct f. Qed.

(** The reading loop of [parseAgencies] over records that are all
    materialized. *)
Lemma records_agencies_prefix (body : record -> Feed -> flow Feed) o :
  (forall rec f,
     body rec f
     = match createAgency rec (opts f) with
       | Err e => if DropErroneous (opts f) then Continue f else Panic f e
       | Ok agency =>
           Continue (set_Agencies f
                       (<[Agency_Id agency := agency]> (Agencies f)))
       end) ->
  forall (good : list record) (l : file) (line : Z) f,
    opts f = o ->
    Forall (fun rec => exists a, createAgency rec o = Ok a) good ->
    records body ((Row <$> good) ++ l) line f
    = records body l (line + len good)
        (set_Agencies f (foldl (store_agency o) (Agencies f) good)).
Proof.
  intros Hbody good.
  induction good as [|rec good IH]; intros l line f Ho Hgood.
  - simpl. by rewrite set_Agencies_id, Z.add_0_r.
  - apply Forall_cons in Hgood as [[a Ha] Hgood].
    rewrite fmap_cons. cbn [app records foldl]. rewrite Hbody, Ho, Ha.
    rewrite IH by done.
    replace (store_agency o (Agencies f) rec)
      with (<[Agency_Id a := a]> (Agencies f))
      by (unfold store_agency; by rewrite Ha).
    replace (line + 1 + len good) with (line + len (rec :: good))
      by (unfold len; simpl; lia).
    done.
Qed.

(** X16: without drop_erroneous, the first agency record that cannot be
    materialized ends the whole parse.  [Parse] returns the parse error that
    names agency.txt, the line of that record (the header being line 1) and
    the message of the materializer; the agencies of the records before it
    are in the feed, the later of two with the same id in place of the
    earlier, nothing else of the feed is touched, and no other stage is
    entered. *)
Theorem bad_agency_record_ends_the_parse
    (path : location) (feed : Feed) (good : list record) (bad : record)
    (rest : file) (msg : string) :
  getFile path "agency.txt" = Some ((Row <$> good) ++ Row bad :: rest) ->
  DropErroneous (opts feed) = false ->
  Forall (fun rec => exists a, createAgency rec (opts feed) = Ok a) good ->
  createAgency bad (opts feed) = Err msg ->
  Parse path feed
  = Some (Run (set_Agencies feed
                 (foldl (store_agency (opts feed)) (Agencies feed) good))
            (Returns (Some (ParseError "agency.txt" (len good + 2) msg)))
            [StAgencies]).
Proof.
  intros Hfile Hdrop Hgood Hbad.
  apply (Parse_stops_at_error path feed [] (tail stage_order) StAgencies
           (Run feed (Returns None) [])); [done.. |].
  cbn [exec feed_of]. unfold returns, parseAgencies. rewrite Hfile.
  erewrite records_agencies_prefix; [| done | done | done].
  cbn [records opts set_Agencies]. rewrite Hbad, Hdrop. cbn [fst snd].
  unfold recovered.
  by replace (1 + len good + 1) with (len good + 2) by lia.
Qed.

(** The reading loop over two parts of a file. *)
Lemma records_app {S : Type} (body : gmap string string -> S -> flow S)
    (l1 l2 : file) (line : Z) (st : S) :
  records body (l1 ++ l2) line st
  = match records body l1 line st with
    | (line1, st1, None) => records body l2 line1 st1
    | (line1, st1, Some msg) => (line1, st1, Some msg)
    end.
Proof.
  revert line st. induction l1 as [|[rec|msg] l1 IH]; intros line st; simpl.
  - done.
  - destruct (body rec st); [apply IH | done].
  - done.
Qed.

(** What the body preserves on the records of the file is preserved by
    the loop. *)
Lemma records_inv_in {S : Type} (P : S -> Prop)
    (body : gmap string string -> S -> flow S) (file : file) :
  (forall rec st, Row rec ∈ file -> P st ->
     match body rec st with Continue st' => P st' | Panic st' _ => P st' end) ->
  forall line st line' st' r,
    P st -> records body file line st = (line', st', r) -> P st'.
Proof.
  induction file as [|[rec|msg] file IH]; intros Hbody line st line' st' r
    Hst Hrun; simpl in Hrun.
  - by simplify_eq.
  - pose proof (Hbody rec st ltac:(by left) Hst) as Hb.
    destruct (body rec st) as [s1|s1 m].
    + eapply IH; [| exact Hb | exact Hrun].
      intros rec' st0 Hin. apply Hbody. by right.
    + by simplify_eq.
  - by simplify_eq.
Qed.

(** X17: two agency records with the same id are not an error: when
    agency.txt has been read, the agency stored under an id is the one of the
    last record that was materialized with that id. *)
Theorem later_agency_record_replaces_the_earlier
    (path : location) (feed feed' : Feed) (pre post : file) (rec : record)
    (a : Agency) :
  getFile path "agency.txt" = Some (pre ++ Row rec :: post) ->
  parseAgencies path feed = (feed', None) ->
  createAgency rec (opts feed) = Ok a ->
  (forall rec' a',
     Row rec' ∈ post -> createAgency rec' (opts feed) = Ok a' ->
     Agency_Id a' <> Agency_Id a) ->
  Agencies feed' !! Agency_Id a = Some a.
Proof.
  intros Hfile Hrun Ha Hpost. unfold parseAgencies in Hrun.
  rewrite Hfile in Hrun.
  match type of Hrun with
  | context [records ?b _ _ _] => set (body := b) in *
  end.
  assert (Hopts : forall rec0 f0,
            opts f0 = opts feed ->
            match body rec0 f0 with
            | Continue f1 => opts f1 = opts feed
            | Panic f1 _ => opts f1 = opts feed
            end).
  { intros rec0 f0 Hf0. subst body. cbv beta.
    destruct (createAgency rec0 (opts f0)); [done |].
    by destruct (DropErroneous (opts f0)). }
  rewrite records_app in Hrun.
  destruct (records body pre 1 feed) as [[line1 f1] r1] eqn:Hpre.
  pose proof (records_inv (fun f => opts f = opts feed) body Hopts
                _ _ _ _ _ _ eq_refl Hpre) as Hf1.
  destruct r1 as [m|]; [by simplify_eq |].
  cbn [records] in Hrun. unfold body at 1 in Hrun. rewrite Hf1, Ha in Hrun.
  destruct (records body post _ _) as [[line2 f2] r2] eqn:Hrest.
  assert (feed' = f2) as -> by (unfold recovered in Hrun; by simplify_eq).
  revert Hrest.
  apply (records_inv_in
           (fun f => opts f = opts feed /\
                     Agencies f !! Agency_Id a = Some a) body post)
    with (st' := f2).
  - intros rec0 f0 Hin [Hf0 Hl]. subst body. cbv beta.
    destruct (createAgency rec0 (opts f0)) as [a'|e] eqn:Ha'.
    + split; [done |]. cbn [Agencies set_Agencies].
      rewrite lookup_insert_ne; [done |].
      apply (Hpost rec0 a' Hin). by rewrite <- Hf0.
    + by destruct (DropErroneous (opts f0)).
  - split; [done |]. cbn [Agencies set_Agencies].
    by rewrite lookup_insert_eq.
Qed.

(** ** What the parse keeps *)

Lemma keeps_keys_refl {A : Type} (m : gmap string A) : keeps_keys m m.
Proof. by intros k. Qed.

Lemma keeps_keys_insert {A B : Type} (m : gmap string A) (m' : gmap string B)
    (k : string) (x : B) :
  keeps_keys m m' -> keeps_keys m (<[k := x]> m').
Proof.
  intros H j Hj. destruct (decide (k = j)) as [<- | Hne].
  - rewrite lookup_insert_eq. eauto.
  - rewrite lookup_insert_ne by done. by apply H.
Qed.

Lemma keeps_keys_alter {A B : Type} (m : gmap string A) (m' : gmap string B)
    (k : string) (g : B -> B) :
  keeps_keys m m' -> keeps_keys m (alter g k m').
Proof.
  intros H j Hj. destruct (decide (k = j)) as [<- | Hne].
  - rewrite lookup_alter_eq. apply fmap_is_Some. by apply H.
  - rewrite lookup_alter_ne by done. by apply H.
Qed.

(** X18: whatever its outcome, [Parse] leaves the options of the feed as
    they are, takes no entry out of the agencies, the routes, the services,
    the trips and the fare attributes that the feed held before, and only
    appends to the transfers and the feed infos. *)
Theorem parse_only_adds (path : location) (feed : Feed) :
  exists r : run,
    Parse path feed = Some r /\
    opts (feed_of r) = opts feed /\
    keeps_keys (Agencies feed) (Agencies (feed_of r)) /\
    keeps_keys (Routes feed) (Routes (feed_of r)) /\
    keeps_keys (Services feed) (Services (feed_of r)) /\
    keeps_keys (Trips feed) (Trips (feed_of r)) /\
    keeps_keys (FareAttributes feed) (FareAttributes (feed_of r)) /\
    Transfers feed `prefix_of` Transfers (feed_of r) /\
    FeedInfos feed `prefix_of` FeedInfos (feed_of r).
Proof.
  destruct (Parse_total path feed) as [r Hr]. exists r. split; [done |].
  revert Hr.
  apply (Parse_inv
           (fun f =>
              opts f = opts feed /\
              keeps_keys (Agencies feed) (Agencies f) /\
              keeps_keys (Routes feed) (Routes f) /\
              keeps_keys (Services feed) (Services f) /\
              keeps_keys (Trips feed) (Trips f) /\
              keeps_keys (FareAttributes feed) (FareAttributes f) /\
              Transfers feed `prefix_of` Transfers f /\
              FeedInfos feed `prefix_of` FeedInfos f)).
  - intros s f f' Ht (Ho & Ha & Hr & Hs & Ht' & Hf & Htr & Hfi).
    destruct Ht; cbn [opts Agencies Routes Services Trips FareAttributes
                      Transfers FeedInfos set_Agencies set_FeedInfos
                      set_Stops set_Shapes set_Routes set_Services
                      set_Trips set_FareAttributes set_Transfers];
      repeat split; try done;
      first [ by apply keeps_keys_insert
            | by apply keeps_keys_alter
            | by apply prefix_app_r ].
  - repeat split; first [ apply keeps_keys_refl | done ].
Qed.

(** ** The ids the tables are keyed by *)

Lemma keyed_by_insert {A : Type} (id : A -> string) (m : gmap string A)
    (a : A) :
  keyed_by id m -> keyed_by id (<[id a := a]> m).
Proof.
  intros H k x. destruct (decide (id a = k)) as [<- | Hne].
  - rewrite lookup_insert_eq. by intros ?; simplify_eq.
  - rewrite lookup_insert_ne by done. apply H.
Qed.

Lemma keyed_opt_insert {A : Type} (id : A -> string)
    (m : gmap string (option A)) (k : string) (x : option A) :
  (forall a, x = Some a -> id a = k) ->
  keyed_opt id m -> keyed_opt id (<[k := x]> m).
Proof.
  intros Hx H j a. destruct (decide (k = j)) as [<- | Hne].
  - rewrite lookup_insert_eq. intros ?; simplify_eq. by apply Hx.
  - rewrite lookup_insert_ne by done. apply H.
Qed.

Lemma keyed_opt_update {A : Type} (id : A -> string)
    (m : gmap string (option A)) (k : string) (g : A -> A) :
  (forall a, id (g a) = id a) ->
  keyed_opt id m -> keyed_opt id (update_at k g m).
Proof.
  intros Hg H j a. unfold update_at. destruct (decide (k = j)) as [<- | Hne].
  - rewrite lookup_alter_eq.
    destruct (m !! k) as [[x|]|] eqn:E; simpl; intros ?; simplify_eq.
    rewrite Hg. by apply H.
  - rewrite lookup_alter_ne by done. apply H.
Qed.

(** The stop stage stores every stop under its own id. *)
Lemma parseStops_keyed path f f' e :
  keyed_by Stop.Id (Stops f) -> parseStops path f = (f', e) ->
  keyed_by Stop.Id (Stops f').
Proof.
  intros Hk. unfold parseStops, read_stops.
  destruct (getFile _ _) as [file|]; [| by intros ?; simplify_eq].
  destruct (records _ _ _ _) as [[line' [f1 parents]] r] eqn:Hrec.
  assert (keyed_by Stop.Id (Stops f1)) as H1.
  { change f1 with (fst (f1, parents)). revert Hrec.
    apply (records_inv (fun st => keyed_by Stop.Id (Stops (fst st))));
      [| done].
    intros rec [f0 ps] Hf0. simpl in *.
    destruct (createStop rec (opts f0)) as [stop|msg].
    - simpl. by apply keyed_by_insert.
    - by destruct (DropErroneous _). }
  destruct r; [by intros ?; simplify_eq |].
  destruct (link_parents _ f1) as [f2 r2] eqn:Hl. intros ?; simplify_eq.
  clear Hrec. revert f1 H1 Hl.
  induction (range parents) as [|[id pid] todo IH]; intros f1 H1 Hl;
    simpl in Hl; [by simplify_eq |].
  assert (forall ps g,
            keyed_by Stop.Id (Stops g) ->
            match assign_parent id ps g with
            | Continue feed' => link_parents todo feed'
            | Panic feed' msg => (feed', Some msg)
            end = (f', r2) ->
            keyed_by Stop.Id (Stops f')) as Hassign.
  { intros ps g Hg. unfold assign_parent.
    destruct (Stops g !! id) as [st|] eqn:Hst.
    - apply IH. simpl. rewrite <- (Hg id st Hst) at 1.
      by apply (keyed_by_insert Stop.Id (Stops g)
                  (Stop.with_Parent_station st ps)).
    - by intros ?; simplify_eq. }
  destruct (Stops f1 !! pid); [by eapply Hassign |].
  destruct (UseDefValueOnError _); [by eapply IH |].
  destruct (DropErroneous _); [| by simplify_eq].
  eapply Hassign; [| done]. simpl.
  intros k a Hl'. apply lookup_delete_Some in Hl' as [_ Hl']. by apply H1.
Qed.

(** X19: [Parse] keeps the agencies, the stops, the routes and the trips
    stored under their own ids: if every entity of these tables is, when
    [Parse] is called (as in a new feed), the same holds when it is left,
    whatever its outcome. *)
Theorem tables_stay_keyed_by_id (path : location) (feed : Feed) (r : run) :
  keyed_by Agency_Id (Agencies feed) -> keyed_by Stop.Id (Stops feed) ->
  keyed_opt Route_Id (Routes feed) ->
  keyed_opt (A := Trip.t Time Frequency) Trip.Id (Trips feed) ->
  Parse path feed = Some r ->
  keyed_by Agency_Id (Agencies (feed_of r)) /\
  keyed_by Stop.Id (Stops (feed_of r)) /\
  keyed_opt Route_Id (Routes (feed_of r)) /\
  keyed_opt (A := Trip.t Time Frequency) Trip.Id (Trips (feed_of r)).
Proof.
  intros Ha Hs Hr Ht Hrun.
  assert (keyed_by Stop.Id (Stops (feed_of r))) as Hstops.
  { rewrite Parse_run_stages in Hrun. revert Hrun.
    apply (run_stages_inv_exec (fun f => keyed_by Stop.Id (Stops f)));
      [| done].
    intros s f f' o _ Hex Hf.
    destruct (decide (s = StStops)) as [-> | Hne].
    - cbn [exec] in Hex. unfold returns in Hex. simplify_eq.
      destruct (parseStops path f) as [f1 e] eqn:Hp. simpl.
      by eapply parseStops_keyed.
    - apply exec_touches in Hex. revert Hex Hf.
      apply (rtc_touches_inv (fun g => keyed_by Stop.Id (Stops g))).
      intros a b Hab Hka. by rewrite (touches_Stops s a b). }
  split; [| split; [done |]]; revert Hrun.
  - apply (Parse_inv (fun f => keyed_by Agency_Id (Agencies f))); [| done].
    intros s f f' Ht' Hf. destruct Ht'; try done. simpl.
    by apply keyed_by_insert.
  - apply (Parse_inv
             (fun f =>
                keyed_opt Route_Id (Routes f) /\
                keyed_opt (A := Trip.t Time Frequency) Trip.Id (Trips f)));
      [| done].
    intros s f f' Ht' [Hf1 Hf2]. destruct Ht'; try done; simpl; split;
      try done.
    + apply keyed_opt_insert; [| done].
      intros a. destruct (DryRun _); by intros ?; simplify_eq.
    + apply keyed_opt_insert; [| done]. by intros a ?; simplify_eq.
    + by apply keyed_opt_update.
    + apply keyed_opt_insert; [| done]. intros a ?; simplify_eq.
      by apply (Hf2 id t).
    + by apply keyed_opt_insert.
Qed.

(** ** The parent links that are written *)

(** The linking pass, when it ends without a panic, has written the
    parent of every stop whose parent it found, and has left the other stops
    as they were; unless [UseDefValueOnError] is set it has found them
    all. *)
Lemma link_parents_written todo f f' :
  NoDup (todo.*1) ->
  (forall id pid, (id, pid) ∈ todo -> is_Some (Stops f !! id)) ->
  link_parents todo f = (f', None) ->
  (forall id, id ∉ todo.*1 -> Stops f' !! id = Stops f !! id) /\
  (forall id pid,
     (id, pid) ∈ todo ->
     (UseDefValueOnError (opts f) = false -> is_Some (Stops f !! pid)) /\
     exists st,
       Stops f !! id = Some st /\
       Stops f' !! id
       = Some (match Stops f !! pid with
               | Some _ => Stop.with_Parent_station st (Some pid)
               | None => st
               end)).
Proof.
  revert f. induction todo as [|[id0 pid0] todo IH]; intros f Hnd Hids Hl.
  - simpl in Hl. simplify_eq. split; [done |].
    by intros id pid Hin%elem_of_nil.
  - apply NoDup_cons in Hnd as [Hfresh Hnd]. simpl in Hfresh.
    destruct (Hids id0 pid0) as [st0 Hst0]; [by left |].
    simpl in Hl. destruct (Stops f !! pid0) as [p|] eqn:Hpid.
    + unfold assign_parent in Hl. rewrite Hst0 in Hl.
      set (f1 := set_Stops f
                   (<[id0 := Stop.with_Parent_station st0 (Some pid0)]>
                      (Stops f))) in *.
      assert (Hsame : forall k,
                is_Some (Stops f1 !! k) <-> is_Some (Stops f !! k)).
      { intros k. subst f1. simpl.
        destruct (decide (id0 = k)) as [<- | Hne].
        - rewrite lookup_insert_eq, Hst0. split; eauto.
        - by rewrite lookup_insert_ne. }
      destruct (IH f1) as [H1 H2]; [done | | done |].
      { intros id pid Hin. apply Hsame, (Hids id pid). by right. }
      split.
      * intros id [Hne Hid]%not_elem_of_cons. simpl in Hne.
        rewrite (H1 id Hid). subst f1. simpl. by rewrite lookup_insert_ne.
      * intros id pid [Heq | Hin]%elem_of_cons.
        -- simplify_eq. split; [by rewrite Hpid; eauto |].
           exists st0. split; [done |]. rewrite (H1 id0 Hfresh), Hpid.
           subst f1. simpl. by rewrite lookup_insert_eq.
        -- assert (id0 <> id) as Hne.
           { intros <-. apply Hfresh, list_elem_of_fmap.
             by exists (id0, pid). }
           destruct (H2 id pid Hin) as [Hfound (st & Hst & Hst')].
           split; [intros Hdef; by apply Hsame, Hfound |].
           exists st. split.
           ++ subst f1. simpl in Hst. by rewrite lookup_insert_ne in Hst.
           ++ rewrite Hst'.
              pose proof (Hsame pid) as Hp.
              destruct (Stops f1 !! pid), (Stops f !! pid); try done.
              ** destruct Hp as [Hp _]. by destruct Hp; eauto.
              ** destruct Hp as [_ Hp]. by destruct Hp; eauto.
    + destruct (UseDefValueOnError (opts f)) eqn:Hdef.
      * destruct (IH f) as [H1 H2]; [done | | done |].
        { intros id pid Hin. apply (Hids id pid). by right. }
        split.
        -- intros id [Hne Hid]%not_elem_of_cons. by apply H1.
        -- intros id pid [Heq | Hin]%elem_of_cons.
           ++ simplify_eq. split; [done |]. exists st0.
              split; [done |]. by rewrite (H1 id0 Hfresh), Hpid.
           ++ destruct (H2 id pid Hin) as [_ Hw]. by split.
      * destruct (DropErroneous (opts f)); [| done].
        unfold assign_parent in Hl. simpl in Hl.
        by rewrite lookup_delete_eq in Hl.
Qed.

(** X20: when the stop stage returns nil, the parent links are written as
    the parent_station column names them.  [f1] being the feed and [parents]
    the parent ids as the first loop leaves them: a stop that names a parent
    among the stops read is stored with that parent; a stop that names an
    unknown parent is stored as it was read, which happens only when
    use_default_on_error is set; and every other stop is stored as it was
    read. *)
Theorem parent_links_are_written_as_named
    (path : location) (feed feed' f1 : Feed) (file : file) (line : Z)
    (parents : gmap string string) :
  getFile path "stops.txt" = Some file ->
  read_stops file feed = (line, (f1, parents), None) ->
  parseStops path feed = (feed', None) ->
  forall id : string,
    match parents !! id with
    | Some pid =>
        (UseDefValueOnError (opts feed) = false ->
         is_Some (Stops f1 !! pid)) /\
        exists st,
          Stops f1 !! id = Some st /\
          Stops feed' !! id
          = Some (match Stops f1 !! pid with
                  | Some _ => Stop.with_Parent_station st (Some pid)
                  | None => st
                  end)
    | None => Stops feed' !! id = Stops f1 !! id
    end.
Proof.
  intros Hfile Hread Hrun id. unfold parseStops in Hrun.
  rewrite Hfile, Hread in Hrun.
  destruct (link_parents (range parents) f1) as [f2 r2] eqn:Hl.
  destruct r2 as [msg|]; [done |]. simpl in Hrun. simplify_eq.
  destruct (read_stops_inv _ _ _ _ _ _ Hread) as [Hopts Hids].
  destruct (link_parents_written _ _ _ (range_NoDup parents)
              ltac:(intros i p Hin%range_elem; by eapply Hids) Hl)
    as [H1 H2].
  destruct (parents !! id) as [pid|] eqn:Hp.
  - rewrite <- Hopts. apply H2. by apply range_elem.
  - apply H1. intros Hin. apply list_elem_of_fmap in Hin as ([i p] & -> & Hin).
    apply range_elem in Hin. simpl in Hp. congruence.
Qed.

(** ** When the parse can panic *)

Lemma no_nil_insert {A : Type} (m : gmap string (option A)) (k : string)
    (x : A) :
  no_nil m -> no_nil (<[k := Some x]> m).
Proof.
  intros H j. destruct (decide (k = j)) as [<- | Hne].
  - by rewrite lookup_insert_eq.
  - rewrite lookup_insert_ne by done. apply H.
Qed.

Lemma no_nil_update {A : Type} (m : gmap string (option A)) (k : string)
    (g : A -> A) :
  no_nil m -> no_nil (update_at k g m).
Proof.
  intros H j. unfold update_at. destruct (decide (k = j)) as [<- | Hne].
  - rewrite lookup_alter_eq. pose proof (H k) as Hk.
    by destruct (m !! k) as [[x|]|].
  - rewrite lookup_alter_ne by done. apply H.
Qed.

(** The shape loop of [Parse] panics on a nil shape only. *)
Lemma check_shapes_returns todo f f' o :
  no_nil (Shapes f) -> check_shapes todo f = Some (f', o) ->
  exists e, o = Returns e.
Proof.
  revert f. induction todo as [|id todo IH]; intros f Hn H; simpl in H.
  - simplify_eq. eauto.
  - destruct (Shapes f !! id) as [[shape|]|] eqn:Hid;
      [| by destruct (Hn id) | by eapply IH].
    destruct (checkShapeMeasure _ _) as [[shape' o']|] eqn:Hc; [| done].
    destruct (checkShapeMeasure_returns _ _ _ _ Hc) as [e ->].
    destruct e as [e|]; [simplify_eq; eauto |].
    eapply IH; [| done]. simpl. by apply no_nil_insert.
Qed.

(** Without [DropErroneous], the trip loop of [Parse] panics on a nil trip
    only. *)
Lemma check_trips_returns todo f f' o :
  DropErroneous (opts f) = false -> NoDup todo ->
  (forall id, id ∈ todo -> Trips f !! id <> Some None) ->
  keyed_opt (A := Trip.t Time Frequency) Trip.Id (Trips f) ->
  check_trips todo f = Some (f', o) ->
  exists e, o = Returns e.
Proof.
  revert f. induction todo as [|id todo IH]; intros f Hdrop Hnd Hn Hk H;
    simpl in H.
  - simplify_eq. eauto.
  - apply NoDup_cons in Hnd as [Hfresh Hnd].
    assert (forall id', id' ∈ todo -> Trips f !! id' <> Some None) as Hn'
      by (intros id' Hin; apply Hn; by right).
    destruct (Trips f !! id) as [[t|]|] eqn:Hid;
      [| by destruct (Hn id); [left |] | by eapply IH].
    destruct (checkStopTimeMeasure_nodrop
                (Trip.with_StopTimes t
                   (sort_by StopTime.Sequence (Trip.StopTimes t)))
                (opts f) Hdrop) as (sts' & e & Heq & _).
    rewrite Heq in H. cbn [opts set_Trips] in H.
    destruct e as [e|]; [simplify_eq; eauto |].
    assert (Trip.Id t = id) as Ht by by apply Hk.
    assert (forall x : option (Trip.t Time Frequency),
              (forall a, x = Some a -> Trip.Id a = id) ->
              forall g,
                Trips g = <[id := x]> (Trips f) -> opts g = opts f ->
                check_trips todo g = Some (f', o) ->
                exists e, o = Returns e) as Hnext.
    { intros x Hx g Hg Ho. apply IH; [congruence | done | | ].
      - intros id' Hin. rewrite Hg.
        rewrite lookup_insert_ne; [by apply Hn' |]. by intros <-.
      - rewrite Hg. by apply keyed_opt_insert. }
    destruct (DryRun (opts f)).
    + apply (Hnext None) in H; [done | done | | done].
      cbn [Trips set_Trips Trip.Id Trip.with_StopTimes].
      by rewrite Ht, insert_insert_eq.
    + apply (Hnext (Some (Trip.with_StopTimes
                            (Trip.with_StopTimes t
                               (sort_by StopTime.Sequence
                                  (Trip.StopTimes t))) sts'))) in H;
        [done | | done | done].
      by intros a ?; simplify_eq.
Qed.

Lemma exec_opts s path f f' o :
  exec s path f = Some (f', o) -> opts f' = opts f.
Proof. intros H%exec_touches. by apply rtc_touches_opts in H. Qed.

Lemma touches_Trips s f f' :
  s <> StTrips -> s <> StStopTimes -> s <> StFrequencies ->
  s <> StStopTimeCheck -> touches s f f' -> Trips f' = Trips f.
Proof. intros ? ? ? ? Ht. destruct Ht; try done; intuition congruence. Qed.

(** No stage but the shape check leaves a nil shape, if the shape
    materializer stores none. *)
Lemma exec_keeps_shapes s path f f' o :
  (forall rec shapes opt,
     no_nil shapes -> no_nil (createShapePoint rec shapes opt).1) ->
  s <> StShapeCheck -> no_nil (Shapes f) ->
  exec s path f = Some (f', o) -> no_nil (Shapes f').
Proof.
  intros Hcreate Hs Hf Hex.
  destruct (decide (s = StShapes)) as [-> | Hne].
  - cbn [exec] in Hex. unfold returns, parseShapes in Hex.
    destruct (getFile _ _) as [file|]; [| by simplify_eq].
    destruct (records _ _ _ _) as [[line' f1] r] eqn:Hrec.
    simpl in Hex. simplify_eq. revert Hrec.
    apply (records_inv (fun g => no_nil (Shapes g))); [| done].
    intros rec f0 Hf0.
    pose proof (Hcreate rec (Shapes f0) (opts f0) Hf0) as Hc.
    destruct (createShapePoint _ _ _) as [shapes e]. simpl in Hc.
    destruct e; [| done]. by destruct (DropErroneous _).
  - apply exec_touches in Hex. revert Hex Hf.
    apply (rtc_touches_inv (fun g => no_nil (Shapes g))).
    intros a b Hab Ha. by rewrite (touches_Shapes s a b).
Qed.

(** No stage but the stop-time check leaves a nil trip, or a trip under
    another id than its own. *)
Lemma exec_keeps_trips s path f f' o :
  s <> StStopTimeCheck ->
  no_nil (Trips f) /\
  keyed_opt (A := Trip.t Time Frequency) Trip.Id (Trips f) ->
  exec s path f = Some (f', o) ->
  no_nil (Trips f') /\
  keyed_opt (A := Trip.t Time Frequency) Trip.Id (Trips f').
Proof.
  intros Hs Hf Hex. apply exec_touches in Hex. revert Hex Hf.
  apply (rtc_touches_inv
           (fun g => no_nil (Trips g) /\
                     keyed_opt (A := Trip.t Time Frequency) Trip.Id
                       (Trips g))).
  intros a b Hab [Ha1 Ha2]. destruct Hab; try done; simpl.
  - split; [by apply no_nil_insert |].
    apply keyed_opt_insert; [| done]. by intros x ?; simplify_eq.
  - split; [by apply no_nil_update | by apply keyed_opt_update].
Qed.

Lemma NoDup_stage_order : NoDup stage_order.
Proof.
  unfold stage_order.
  repeat (apply NoDup_cons; split;
          [let H := fresh in intros H; stage_not_in H |]).
  apply NoDup_nil_2.
Qed.

(** A run whose stages find no nil shape and no nil trip, and that does
    not drop, does not panic. *)
Lemma run_stages_returns path l r r' :
  (forall rec shapes opt,
     no_nil shapes -> no_nil (createShapePoint rec shapes opt).1) ->
  NoDup l ->
  DropErroneous (opts (feed_of r)) = false ->
  (StShapeCheck ∈ l -> no_nil (Shapes (feed_of r))) ->
  (StStopTimeCheck ∈ l ->
   no_nil (Trips (feed_of r)) /\
   keyed_opt (A := Trip.t Time Frequency) Trip.Id (Trips (feed_of r))) ->
  (exists e, status r = Returns e) ->
  run_stages path l r = Some r' ->
  exists e, status r' = Returns e.
Proof.
  intros Hcreate. revert r.
  induction l as [|s l IH]; intros r Hnd Hdrop Hshapes Htrips Hst Hrun.
  - unfold run_stages in Hrun. simpl in Hrun. by simplify_eq.
  - apply NoDup_cons in Hnd as [Hfresh Hnd].
    rewrite run_stages_cons in Hrun.
    destruct (guarded s path r) as [r1|] eqn:Hg; [| done]. simpl in Hrun.
    unfold guarded in Hg. destruct Hst as [e Hst]. rewrite Hst in Hg.
    destruct e as [e|].
    { simplify_eq. apply (IH r1); try done; [| | eauto].
      - intros Hin. apply Hshapes. by right.
      - intros Hin. apply Htrips. by right. }
    destruct (exec s path (feed_of r)) as [[f o]|] eqn:Hex; [| done].
    simplify_eq. apply (IH _ Hnd) in Hrun; [done | | | |]; simpl.
    + by rewrite (exec_opts _ _ _ _ _ Hex).
    + intros Hin. eapply exec_keeps_shapes; [done | | | done].
      * by intros ->.
      * apply Hshapes. by right.
    + intros Hin. eapply exec_keeps_trips; [| | done].
      * by intros ->.
      * apply Htrips. by right.
    + destruct s; cbn [exec] in Hex; unfold returns in Hex;
        try (simplify_eq; by eauto).
      * unfold checkShapes in Hex.
        destruct (check_shapes _ _) as [[f1 o1]|] eqn:Hc; [| done].
        apply check_shapes_returns in Hc as [e ->];
          [| apply Hshapes; by left].
        destruct (DryRun _); simplify_eq; eauto.
      * unfold checkStopTimes in Hex.
        destruct Htrips as [Hn Hk]; [by left |].
        eapply check_trips_returns; [done | | | done | done].
        -- apply range_NoDup.
        -- intros id _. apply Hn.
Qed.

(** X21: a parse without drop_erroneous never panics.  Provided the shape
    materializer stores no nil shape, and when the feed holds no nil shape
    and no nil trip and its trips are stored under their ids (as in a new
    feed), [Parse] returns: with nil or with an error. *)
Theorem parse_without_drop_never_panics (path : location) (feed : Feed) :
  (forall rec shapes opt,
     no_nil shapes -> no_nil (createShapePoint rec shapes opt).1) ->
  DropErroneous (opts feed) = false ->
  no_nil (Shapes feed) -> no_nil (Trips feed) ->
  keyed_opt (A := Trip.t Time Frequency) Trip.Id (Trips feed) ->
  exists (r : run) (e : option error),
    Parse path feed = Some r /\ status r = Returns e.
Proof.
  intros Hcreate Hdrop Hshapes Htrips Hkeyed.
  destruct (Parse_total path feed) as [r Hr]. exists r.
  rewrite Parse_run_stages in Hr.
  destruct (run_stages_returns path stage_order
              (Run feed (Returns None) []) r Hcreate NoDup_stage_order
              Hdrop (fun _ => Hshapes) (fun _ => conj Htrips Hkeyed)
              ltac:(by eexists) Hr) as [e He].
  exists e. by rewrite Parse_run_stages.
Qed.

(** ** What a successful parse has checked *)

(** Unless it drops, a shape check that returns nil leaves the declared
    distances in order. *)
Lemma checkShapeMeasure_nil_in_order shape opt shape' :
  UseDefValueOnError opt = true \/ DropErroneous opt = false ->
  checkShapeMeasure shape opt = Some (shape', Returns None) ->
  declared_in_order ShapePoint.Has_dist ShapePoint.Dist_traveled
    (Shape.Points shape').
Proof.
  intros Hopt Hrun. destruct (UseDefValueOnError opt) eqn:Hdef.
  - destruct (checkShapeMeasure_default shape opt Hdef)
      as (pts' & Hrun' & Hord).
    rewrite Hrun' in Hrun. by simplify_eq.
  - destruct Hopt as [? | Hdrop]; [done |].
    rewrite checkShapeMeasure_strict in Hrun by done.
    assert (shape' = shape) as -> by congruence.
    destruct (Shape.Points shape) as [|p0 rest];
      [apply declared_in_order_nil |].
    apply in_order_from_spec, (strict_scan_None (Shape.Id shape)).
    congruence.
Qed.

Lemma check_shapes_in_order todo f f' :
  UseDefValueOnError (opts f) = true \/ DropErroneous (opts f) = false ->
  NoDup todo ->
  check_shapes todo f = Some (f', Returns None) ->
  (forall id, id ∉ todo -> Shapes f' !! id = Shapes f !! id) /\
  (forall id shape,
     id ∈ todo -> Shapes f' !! id = Some (Some shape) ->
     declared_in_order ShapePoint.Has_dist ShapePoint.Dist_traveled
       (Shape.Points shape)).
Proof.
  revert f. induction todo as [|id todo IH]; intros f Hopt Hnd H;
    simpl in H.
  - simplify_eq. split; [done |]. by intros id shape Hin%elem_of_nil.
  - apply NoDup_cons in Hnd as [Hfresh Hnd].
    destruct (Shapes f !! id) as [[shape|]|] eqn:Hid; [| done |].
    + destruct (checkShapeMeasure _ _) as [[shape' [[e|]|p]]|] eqn:Hc;
        try done.
      apply checkShapeMeasure_nil_in_order in Hc; [| done].
      apply IH in H as [H1 H2]; [| done | done]. simpl in H1. split.
      * intros id' [Hne Hid']%not_elem_of_cons.
        rewrite (H1 id' Hid'). by rewrite lookup_insert_ne.
      * intros id' shape0 [-> | Hin]%elem_of_cons Hl; [| by eapply H2].
        rewrite (H1 id Hfresh), lookup_insert_eq in Hl. by simplify_eq.
    + apply IH in H as [H1 H2]; [| done | done]. split.
      * intros id' [Hne Hid']%not_elem_of_cons. by apply H1.
      * intros id' shape0 [-> | Hin]%elem_of_cons Hl; [| by eapply H2].
        rewrite (H1 id Hfresh) in Hl. congruence.
Qed.

Lemma run_stages_opts path l r r' :
  run_stages path l r = Some r' -> opts (feed_of r') = opts (feed_of r).
Proof.
  apply (run_stages_inv (fun f => opts f = opts (feed_of r))); [| done].
  intros s f f' Ht Hf. by rewrite (touches_opts _ _ _ Ht).
Qed.


Lemma check_trips_in_order todo f f' :
  DropErroneous (opts f) = false -> DryRun (opts f) = false ->
  NoDup todo ->
  check_trips todo f = Some (f', Returns None) ->
  (forall id, id ∉ todo -> Trips f' !! id = Trips f !! id) /\
  (forall id (trip : Trip.t Time Frequency),
     id ∈ todo -> Trips f' !! id = Some (Some trip) ->
     stop_times_in_order (Trip.StopTimes trip)).
Proof.
  revert f. induction todo as [|id todo IH]; intros f Hdrop Hdry Hnd H;
    simpl in H.
  - simplify_eq. split; [done |]. by intros id trip Hin%elem_of_nil.
  - apply NoDup_cons in Hnd as [Hfresh Hnd].
    destruct (Trips f !! id) as [[t|]|] eqn:Hid; [| done |].
    + destruct (checkStopTimeMeasure_nodrop
                  (Trip.with_StopTimes t
                     (sort_by StopTime.Sequence (Trip.StopTimes t)))
                  (opts f) Hdrop) as (sts' & e & Heq & _ & _ & Hord).
      rewrite Heq in H. cbn [opts set_Trips] in H.
      destruct e as [e|]; [done |]. rewrite Hdry in H.
      apply IH in H as [H1 H2]; [| done..]. simpl in H1. split.
      * intros id' [Hne Hid']%not_elem_of_cons.
        rewrite (H1 id' Hid'). by rewrite lookup_insert_ne.
      * intros id' trip [-> | Hin]%elem_of_cons Hl; [| by eapply H2].
        rewrite (H1 id Hfresh), lookup_insert_eq in Hl. simplify_eq.
        by apply Hord.
    + apply IH in H as [H1 H2]; [| done..]. split.
      * intros id' [Hne Hid']%not_elem_of_cons. by apply H1.
      * intros id' trip [-> | Hin]%elem_of_cons Hl; [| by eapply H2].
        rewrite (H1 id Hfresh) in Hl. congruence.
Qed.


End MorePipelineFacts.

(** X15 at an agency.txt whose only record has no agency_id, with
    drop_erroneous: the record is skipped and the stage returns nil. *)
Lemma drop_erroneous_witness :
  exists feed',
    exec StAgencies (with_file "agency.txt" [row [("agency_name", "n")]])
      (feed_with (flags false true false))
    = Some (feed', Returns None).
Proof.
  apply (drop_erroneous_skips_bad_records
           (with_file "agency.txt" [row [("agency_name", "n")]])
           (feed_with (flags false true false)) StAgencies "agency.txt"
           [row [("agency_name", "n")]]).
  - reflexivity.
  - reflexivity.
  - intros msg Hin. apply list_elem_of_singleton in Hin. discriminate Hin.
  - reflexivity.
  - intros H. discriminate H.
Defined.

(** X16 at an agency.txt whose second record has no agency_id, under the
    strict options: the parse ends with the error of line 3. *)
Lemma bad_agency_record_witness :
  Parse
    (with_file "agency.txt"
       [row [("agency_id", "a")]; row [("agency_name", "n")]])
    (feed_with (flags false false false))
  = Some (Run (set_Agencies (feed_with (flags false false false))
                 {["a" := "a"]})
            (Returns (Some (ParseError "agency.txt" 3
                              "missing column agency_id")))
            [StAgencies]).
Proof.
  pose proof (bad_agency_record_ends_the_parse
                (with_file "agency.txt"
                   [row [("agency_id", "a")]; row [("agency_name", "n")]])
                (feed_with (flags false false false))
                [list_to_map [("agency_id", "a")]]
                (list_to_map [("agency_name", "n")]) []
                "missing column agency_id") as H.
  rewrite H; [reflexivity | reflexivity | reflexivity | | reflexivity].
  constructor; [by exists "a" | constructor].
Defined.

(** X17 at an agency.txt with two records of the agency a and one of the
    agency b after them. *)
Lemma later_agency_record_witness :
  exists feed',
    parseAgencies
      (with_file "agency.txt"
         [row [("agency_id", "a")]; row [("agency_id", "a")];
          row [("agency_id", "b")]])
      (feed_with (flags false false false)) = (feed', None) /\
    Agencies feed' !! "a" = Some "a".
Proof.
  assert (exists feed',
            parseAgencies
              (with_file "agency.txt"
                 [row [("agency_id", "a")]; row [("agency_id", "a")];
                  row [("agency_id", "b")]])
              (feed_with (flags false false false)) = (feed', None))
    as [feed' Hrun] by (eexists; vm_compute; reflexivity).
  exists feed'. split; [exact Hrun |].
  apply (later_agency_record_replaces_the_earlier
           (with_file "agency.txt"
              [row [("agency_id", "a")]; row [("agency_id", "a")];
               row [("agency_id", "b")]])
           (feed_with (flags false false false)) feed'
           [row [("agency_id", "a")]] [row [("agency_id", "b")]]
           (list_to_map [("agency_id", "a")]) "a").
  - reflexivity.
  - exact Hrun.
  - reflexivity.
  - intros rec' a' Hin Hc. apply list_elem_of_singleton in Hin.
    injection Hin as ->. vm_compute in Hc. injection Hc as <-.
    intros Heq. vm_compute in Heq. discriminate Heq.
Defined.

(** X19 at the small feed parsed into a new feed. *)
Lemma tables_stay_keyed_witness :
  exists r,
    Parse small_feed (feed_with (flags false false false)) = Some r /\
    keyed_by Stop.Id (Stops (feed_of r)) /\
    keyed_opt (A := Trip.t Z unit) Trip.Id (Trips (feed_of r)).
Proof.
  assert (exists r,
            Parse small_feed (feed_with (flags false false false)) = Some r)
    as [r Hr] by (eexists; vm_compute; reflexivity).
  exists r. split; [exact Hr |].
  destruct (tables_stay_keyed_by_id small_feed
              (feed_with (flags false false false)) r) as (_ & H2 & _ & H4).
  - intros k a H. unfold feed_with in H. simpl in H.
    try rewrite lookup_empty in H. discriminate H.
  - intros k a H. unfold feed_with in H. simpl in H.
    try rewrite lookup_empty in H. discriminate H.
  - intros k a H. unfold feed_with in H. simpl in H.
    try rewrite lookup_empty in H. discriminate H.
  - intros k a H. unfold feed_with in H. simpl in H.
    try rewrite lookup_empty in H. discriminate H.
  - exact Hr.
  - split; [exact H2 | exact H4].
Defined.

(** X20 at a stops.txt with the station B and the stop A whose parent it
    is: A is stored with the parent B. *)
Lemma parent_links_witness :
  exists feed' st,
    parseStops
      (with_file "stops.txt"
         [row [("stop_id", "A"); ("parent_station", "B")];
          row [("stop_id", "B")]])
      (feed_with (flags false false false)) = (feed', None) /\
    Stops feed' !! "A"
    = Some (Stop.with_Parent_station st (Some "B")).
Proof.
  assert (exists feed',
            parseStops
              (with_file "stops.txt"
                 [row [("stop_id", "A"); ("parent_station", "B")];
                  row [("stop_id", "B")]])
              (feed_with (flags false false false)) = (feed', None))
    as [feed' Hrun] by (eexists; vm_compute; reflexivity).
  assert (read_stops
            [row [("stop_id", "A"); ("parent_station", "B")];
             row [("stop_id", "B")]]
            (feed_with (flags false false false))
          = (3,
             (set_Stops (feed_with (flags false false false))
                (<["B" := {| Stop.Id := "B"; Stop.Lat := zero;
                             Stop.Lon := zero;
                             Stop.Parent_station := None |}]>
                   {["A" := {| Stop.Id := "A"; Stop.Lat := zero;
                               Stop.Lon := zero;
                               Stop.Parent_station := None |}]}),
              {["A" := "B"]}), None)) as Hread
    by (vm_compute; reflexivity).
  pose proof (parent_links_are_written_as_named
                (with_file "stops.txt"
                   [row [("stop_id", "A"); ("parent_station", "B")];
                    row [("stop_id", "B")]])
                (feed_with (flags false false false)) feed' _ _ _ _
                eq_refl Hread Hrun "A") as H.
  destruct H as [_ (st & _ & Hst)].
  exists feed', st. split; [exact Hrun | exact Hst].
Defined.

(** X21, X22 and X23 at the small feed parsed into a new feed under the
    strict options. *)
Lemma parse_without_drop_witness :
  exists (r : run) (e : option error),
    Parse small_feed (feed_with (flags false false false)) = Some r /\
    status r = Returns e.
Proof.
  apply (parse_without_drop_never_panics small_feed
           (feed_with (flags false false false))).
  - intros rec shapes opt Hn. simpl. unfold demo_shape_point.
    destruct (column "shape_id" rec) as [id|]; [| exact Hn].
    destruct (shapes !! id) as [[s|]|]; simpl; intros k;
      (destruct (decide (id = k)) as [<- | Hne];
       [rewrite lookup_insert_eq; discriminate
       | rewrite lookup_insert_ne by exact Hne; apply Hn]).
  - reflexivity.
  - intros k H. unfold feed_with in H. simpl in H.
    try rewrite lookup_empty in H. discriminate H.
  - intros k H. unfold feed_with in H. simpl in H.
    try rewrite lookup_empty in H. discriminate H.
  - intros k a H. unfold feed_with in H. simpl in H.
    try rewrite lookup_empty in H. discriminate H.
Defined.



(** ** The order in which the maps are ranged over

    [Parse] ranges over three maps: the parent ids of the stops, the shapes
    and the trips.  The language leaves the order open; a parse that returns
    nil does not depend on it. *)

Section MapOrderFacts.
Context `{Ent : Entities} `{Mat : !Materializers}.
Implicit Types (feed f g : Feed) (path : location) (s : stage).

Lemma check_shapes_app todo1 todo2 f f' :
  check_shapes (todo1 ++ todo2) f = Some (f', Returns None) <->
  exists f1,
    check_shapes todo1 f = Some (f1, Returns None) /\
    check_shapes todo2 f1 = Some (f', Returns None).
Proof.
  revert f. induction todo1 as [|id todo1 IH]; intros f; simpl.
  - split; [eauto |]. by intros (f1 & ? & ?); simplify_eq.
  - destruct (Shapes f !! id) as [[shape|]|]; [| | apply IH].
    + destruct (checkShapeMeasure _ _) as [[shape' [[e|]|p]]|];
        try apply IH; split; try done; by intros (f1 & ? & ?).
    + split; [done |]. by intros (f1 & ? & ?).
Qed.

(** Two iterations of the shape loop on different keys can be
    exchanged. *)
Lemma check_shapes_swap x y f f1 f2 :
  x <> y ->
  check_shapes [y] f = Some (f1, Returns None) ->
  check_shapes [x] f1 = Some (f2, Returns None) ->
  exists g1,
    check_shapes [x] f = Some (g1, Returns None) /\
    check_shapes [y] g1 = Some (f2, Returns None).
Proof.
  intros Hne Hy Hx. simpl in *.
  destruct (Shapes f !! y) as [[shy|]|] eqn:Hly; [| done |].
  - destruct (checkShapeMeasure _ (opts f)) as [[shy' [[e|]|p]]|] eqn:Hcy;
      try done.
    simplify_eq. simpl in Hx. rewrite lookup_insert_ne in Hx by done.
    destruct (Shapes f !! x) as [[shx|]|] eqn:Hlx; [| done |].
    + cbn [opts set_Shapes] in Hx.
      destruct (checkShapeMeasure
                  (Shape.with_Points shx
                     (sort_by ShapePoint.Sequence (Shape.Points shx)))
                  (opts f)) as [[shx' [[e|]|p]]|] eqn:Hcx; try done.
      simplify_eq. eexists. split; [done |]. simpl.
      rewrite lookup_insert_ne, Hly, Hcy by done.
      by rewrite insert_insert_ne.
    + simplify_eq. exists f. split; [done |]. by rewrite Hly, Hcy.
  - simplify_eq.
    destruct (Shapes f1 !! x) as [[shx|]|] eqn:Hlx; [| done |].
    + destruct (checkShapeMeasure _ (opts f1)) as [[shx' [[e|]|p]]|] eqn:Hcx;
        try done.
      simplify_eq. eexists. split; [done |]. simpl.
      by rewrite lookup_insert_ne, Hly.
    + simplify_eq. exists f2. split; [done |]. by rewrite Hly.
Qed.

Lemma check_shapes_perm todo1 todo2 :
  todo1 ≡ₚ todo2 ->
  forall f f',
    check_shapes todo1 f = Some (f', Returns None) ->
    check_shapes todo2 f = Some (f', Returns None).
Proof.
  induction 1 as [|x l1 l2 Hperm IH|x y l|l1 l2 l3 _ IH1 _ IH2];
    intros f f' Hrun.
  - done.
  - apply (check_shapes_app [x] l1) in Hrun as (f1 & H1 & H2).
    apply (check_shapes_app [x] l2). eauto.
  - destruct (decide (x = y)) as [-> | Hne]; [done |].
    apply (check_shapes_app [y] (x :: l)) in Hrun as (f1 & H1 & Hrun).
    apply (check_shapes_app [x] l) in Hrun as (f2 & H2 & H3).
    destruct (check_shapes_swap x y f f1 f2 Hne H1 H2) as (g1 & H4 & H5).
    apply (check_shapes_app [x] (y :: l)). exists g1. split; [done |].
    apply (check_shapes_app [y] l). eauto.
  - eauto.
Qed.

Lemma checkStopTimeMeasure_Id (trip trip' : Trip.t Time Frequency) opt o :
  checkStopTimeMeasure trip opt = Some (trip', o) ->
  Trip.Id trip' = Trip.Id trip.
Proof.
  unfold checkStopTimeMeasure.
  destruct (for_loop _ _ _ _) as [[sts o']|]; [| done].
  by intros ?; simplify_eq.
Qed.

(** One iteration of the trip loop that ends with nil, on a table keyed by
    the ids of the trips: it writes the slot of its key only. *)
Lemma check_trips_one id f f1 :
  keyed_opt (A := Trip.t Time Frequency) Trip.Id (Trips f) ->
  check_trips [id] f = Some (f1, Returns None) <->
  (Trips f !! id = None /\ f1 = f) \/
  (exists t t',
     Trips f !! id = Some (Some t) /\
     checkStopTimeMeasure
       (Trip.with_StopTimes t (sort_by StopTime.Sequence (Trip.StopTimes t)))
       (opts f) = Some (t', Returns None) /\
     f1 = set_Trips f
            (<[id := if DryRun (opts f) then None else Some t']> (Trips f))).
Proof.
  intros Hk. simpl.
  destruct (Trips f !! id) as [[t|]|] eqn:Hid.
  - destruct (checkStopTimeMeasure _ _) as [[t' [[e|]|p]]|] eqn:Hc.
    + split; [done |]. intros [[? _] | (? & ? & ? & ? & _)]; by simplify_eq.
    + assert (Trip.Id t' = id) as Ht'.
      { rewrite (checkStopTimeMeasure_Id _ _ _ _ Hc). simpl. by apply Hk. }
      cbn [opts set_Trips Trips]. rewrite Ht'.
      destruct (DryRun (opts f)).
      * rewrite insert_insert_eq. split.
        -- intros ?; simplify_eq. right. eauto.
        -- intros [[? _] | (? & ? & ? & ? & ->)]; by simplify_eq.
      * split.
        -- intros ?; simplify_eq. right. eauto.
        -- intros [[? _] | (? & ? & ? & ? & ->)]; by simplify_eq.
    + split; [done |]. intros [[? _] | (? & ? & ? & ? & _)]; by simplify_eq.
    + split; [done |]. intros [[? _] | (? & ? & ? & ? & _)]; by simplify_eq.
  - split; [done |]. intros [[? _] | (? & ? & ? & _)]; by simplify_eq.
  - split.
    + intros ?; simplify_eq. by left.
    + intros [[_ ->] | (? & ? & ? & _)]; by simplify_eq.
Qed.

Lemma check_trips_app todo1 todo2 f f' :
  check_trips (todo1 ++ todo2) f = Some (f', Returns None) <->
  exists f1,
    check_trips todo1 f = Some (f1, Returns None) /\
    check_trips todo2 f1 = Some (f', Returns None).
Proof.
  revert f. induction todo1 as [|id todo1 IH]; intros f; simpl.
  - split; [eauto |]. by intros (f1 & ? & ?); simplify_eq.
  - destruct (Trips f !! id) as [[t|]|]; [| | apply IH].
    + destruct (checkStopTimeMeasure _ _) as [[t' [[e|]|p]]|];
        try (split; [done |]; by intros (f1 & ? & ?)).
      destruct (DryRun _); apply IH.
    + split; [done |]. by intros (f1 & ? & ?).
Qed.

Lemma check_trips_one_keyed id f f1 :
  keyed_opt (A := Trip.t Time Frequency) Trip.Id (Trips f) ->
  check_trips [id] f = Some (f1, Returns None) ->
  keyed_opt (A := Trip.t Time Frequency) Trip.Id (Trips f1) /\
  opts f1 = opts f.
Proof.
  intros Hk Hrun.
  apply (check_trips_one id f f1 Hk) in Hrun
    as [[_ ->] | (t & t' & Ht & Hc & ->)]; [done |].
  split; [| done]. simpl. apply keyed_opt_insert; [| done].
  intros a Ha. destruct (DryRun _); simplify_eq.
  rewrite (checkStopTimeMeasure_Id _ _ _ _ Hc). simpl. by apply Hk.
Qed.

(** Two iterations of the trip loop on different keys can be exchanged. *)
Lemma check_trips_swap x y f f1 f2 :
  x <> y ->
  keyed_opt (A := Trip.t Time Frequency) Trip.Id (Trips f) ->
  check_trips [y] f = Some (f1, Returns None) ->
  check_trips [x] f1 = Some (f2, Returns None) ->
  exists g1,
    check_trips [x] f = Some (g1, Returns None) /\
    check_trips [y] g1 = Some (f2, Returns None).
Proof.
  intros Hne Hk Hy Hx.
  destruct (check_trips_one_keyed y f f1 Hk Hy) as [Hk1 Ho1].
  apply (check_trips_one y f f1 Hk) in Hy.
  apply (check_trips_one x f1 f2 Hk1) in Hx.
  destruct Hy as [[Hly ->] | (ty & ty' & Hly & Hcy & ->)].
  - exists f2. split; [by apply (check_trips_one x f f2 Hk) |].
    assert (keyed_opt (A := Trip.t Time Frequency) Trip.Id (Trips f2)
            /\ opts f2 = opts f) as [Hk2 _].
    { apply (check_trips_one_keyed x f f2 Hk).
      by apply (check_trips_one x f f2 Hk). }
    apply (check_trips_one y f2 f2 Hk2). left. split; [| done].
    destruct Hx as [[_ ->] | (t & t' & _ & _ & ->)]; [done |].
    simpl. by rewrite lookup_insert_ne.
  - simpl in Hx. rewrite lookup_insert_ne in Hx by done.
    destruct Hx as [[Hlx ->] | (tx & tx' & Hlx & Hcx & ->)].
    + exists f. split; [apply (check_trips_one x f f Hk); by left |].
      apply (check_trips_one y f _ Hk). right. eauto.
    + set (g1 := set_Trips f
                   (<[x := if DryRun (opts f) then None else Some tx']>
                      (Trips f))).
      assert (check_trips [x] f = Some (g1, Returns None)) as Hg1.
      { apply (check_trips_one x f g1 Hk). right. eauto. }
      exists g1. split; [done |].
      destruct (check_trips_one_keyed x f g1 Hk Hg1) as [Hkg _].
      apply (check_trips_one y g1 _ Hkg). right. exists ty, ty'.
      subst g1. simpl. rewrite lookup_insert_ne by done.
      split; [done |]. split; [done |].
      by rewrite insert_insert_ne.
Qed.

Lemma check_trips_perm todo1 todo2 :
  todo1 ≡ₚ todo2 ->
  forall f f',
    keyed_opt (A := Trip.t Time Frequency) Trip.Id (Trips f) ->
    check_trips todo1 f = Some (f', Returns None) ->
    check_trips todo2 f = Some (f', Returns None).
Proof.
  induction 1 as [|x l1 l2 Hperm IH|x y l|l1 l2 l3 _ IH1 _ IH2];
    intros f f' Hk Hrun.
  - done.
  - apply (check_trips_app [x] l1) in Hrun as (f1 & H1 & H2).
    apply (check_trips_app [x] l2). exists f1. split; [done |].
    apply IH; [| done]. by apply (check_trips_one_keyed x f f1).
  - destruct (decide (x = y)) as [-> | Hne]; [done |].
    apply (check_trips_app [y] (x :: l)) in Hrun as (f1 & H1 & Hrun).
    apply (check_trips_app [x] l) in Hrun as (f2 & H2 & H3).
    destruct (check_trips_swap x y f f1 f2 Hne Hk H1 H2) as (g1 & H4 & H5).
    apply (check_trips_app [x] (y :: l)). exists g1. split; [done |].
    apply (check_trips_app [y] l). eauto.
  - eauto.
Qed.

(** One step of the linking pass that does not panic. *)
Lemma link_parents_one id pid f f1 :
  link_parents [(id, pid)] f = (f1, None) <->
  (is_Some (Stops f !! pid) /\
   exists st,
     Stops f !! id = Some st /\
     f1 = set_Stops f
            (<[id := Stop.with_Parent_station st (Some pid)]> (Stops f))) \/
  (Stops f !! pid = None /\ UseDefValueOnError (opts f) = true /\ f1 = f).
Proof.
  simpl. unfold assign_parent.
  destruct (Stops f !! pid) as [p|] eqn:Hpid.
  - destruct (Stops f !! id) as [st|] eqn:Hid.
    + split.
      * intros ?; simplify_eq. left. eauto.
      * intros [[_ (st' & ? & ->)] | (? & _)]; by simplify_eq.
    + split; [done |].
      intros [[_ (st' & ? & _)] | (? & _)]; by simplify_eq.
  - destruct (UseDefValueOnError (opts f)).
    + split.
      * intros ?; simplify_eq. by right.
      * intros [[[? ?] _] | (_ & _ & ->)]; by simplify_eq.
    + destruct (DropErroneous (opts f)).
      * simpl. rewrite lookup_delete_eq. split; [done |].
        intros [[[? ?] _] | (_ & ? & _)]; by simplify_eq.
      * split; [done |].
        intros [[[? ?] _] | (_ & ? & _)]; by simplify_eq.
Qed.

Lemma link_parents_app todo1 todo2 f f' :
  link_parents (todo1 ++ todo2) f = (f', None) <->
  exists f1,
    link_parents todo1 f = (f1, None) /\ link_parents todo2 f1 = (f', None).
Proof.
  revert f. induction todo1 as [|[id pid] todo1 IH]; intros f; simpl.
  - split; [eauto |]. by intros (f1 & ? & ?); simplify_eq.
  - assert (forall ps g,
              match assign_parent id ps g with
              | Continue feed' => link_parents (todo1 ++ todo2) feed'
              | Panic feed' msg => (feed', Some msg)
              end = (f', None) <->
              exists f1,
                match assign_parent id ps g with
                | Continue feed' => link_parents todo1 feed'
                | Panic feed' msg => (feed', Some msg)
                end = (f1, None) /\ link_parents todo2 f1 = (f', None))
      as Hassign.
    { intros ps g. destruct (assign_parent id ps g); [apply IH |].
      split; [done |]. by intros (f1 & ? & _). }
    destruct (Stops f !! pid); [apply Hassign |].
    destruct (UseDefValueOnError _); [apply IH |].
    destruct (DropErroneous _); [apply Hassign |].
    split; [done |]. by intros (f1 & ? & _).
Qed.

(** Two steps of the linking pass on different stops can be exchanged. *)
Lemma link_parents_swap ida pida idb pidb f f1 f2 :
  ida <> idb ->
  link_parents [(ida, pida)] f = (f1, None) ->
  link_parents [(idb, pidb)] f1 = (f2, None) ->
  exists g1,
    link_parents [(idb, pidb)] f = (g1, None) /\
    link_parents [(ida, pida)] g1 = (f2, None).
Proof.
  intros Hne Ha Hb.
  apply link_parents_one in Ha. apply link_parents_one in Hb.
  destruct Ha as [[Hpa (sta & Hsta & ->)] | (Hpa & Hdef & ->)].
  - simpl in Hb.
    destruct Hb as [[Hpb (stb & Hstb & ->)] | (Hpb & Hdefb & ->)].
    + rewrite lookup_insert_ne in Hstb by done.
      assert (is_Some (Stops f !! pidb)) as Hpb'.
      { destruct (decide (ida = pidb)) as [<- | Hne']; [eauto |].
        by rewrite lookup_insert_ne in Hpb. }
      eexists. split.
      * apply link_parents_one. left. eauto.
      * apply link_parents_one. left. simpl. split.
        -- destruct (decide (idb = pida)) as [<- | Hne'];
             [rewrite lookup_insert_eq; eauto |].
           by rewrite lookup_insert_ne.
        -- exists sta. rewrite lookup_insert_ne by done. split; [done |].
           simpl. by rewrite insert_insert_ne.
    + assert (Stops f !! pidb = None) as Hpb'.
      { destruct (decide (ida = pidb)) as [<- | Hne'].
        - by rewrite lookup_insert_eq in Hpb.
        - by rewrite lookup_insert_ne in Hpb. }
      exists f. split.
      * apply link_parents_one. right. eauto.
      * apply link_parents_one. left. eauto.
  - destruct Hb as [[Hpb (stb & Hstb & ->)] | (Hpb & Hdefb & ->)].
    + eexists. split.
      * apply link_parents_one. left. eauto.
      * apply link_parents_one. right. simpl. split; [| done].
        rewrite lookup_insert_ne; [done |]. intros <-. congruence.
    + exists f. split; apply link_parents_one; right; eauto.
Qed.

Lemma link_parents_perm todo1 todo2 :
  todo1 ≡ₚ todo2 ->
  NoDup (todo1.*1) ->
  forall f f',
    link_parents todo1 f = (f', None) -> link_parents todo2 f = (f', None).
Proof.
  induction 1 as [|[x px] l1 l2 Hperm IH|[x px] [y py] l
                  |l1 l2 l3 Hp1 IH1 _ IH2]; intros Hnd f f' Hrun.
  - done.
  - apply NoDup_cons in Hnd as [_ Hnd].
    apply (link_parents_app [(x, px)] l1) in Hrun as (f1 & H1 & H2).
    apply (link_parents_app [(x, px)] l2). eauto.
  - apply NoDup_cons in Hnd as [Hfresh _]. simpl in Hfresh.
    assert (y <> x) as Hne by (intros ->; apply Hfresh; by left).
    apply (link_parents_app [(y, py)] ((x, px) :: l)) in Hrun
      as (f1 & H1 & Hrun).
    apply (link_parents_app [(x, px)] l) in Hrun as (f2 & H2 & H3).
    destruct (link_parents_swap y py x px f f1 f2 Hne H1 H2)
      as (g1 & H4 & H5).
    apply (link_parents_app [(x, px)] ((y, py) :: l)).
    exists g1. split; [done |].
    apply (link_parents_app [(y, py)] l). eauto.
  - apply IH2; [| by apply IH1]. by rewrite <- Hp1.
Qed.

Lemma range_any_order (Ord1 Ord2 : MapOrder) {A : Type} (m : gmap string A) :
  range (MapOrder := Ord1) m ≡ₚ range (MapOrder := Ord2) m.
Proof. by rewrite !range_perm. Qed.

(** A stage that returns nil does so in every order, with the same
    feed. *)
Lemma exec_any_order (Ord1 Ord2 : MapOrder) s path f f' :
  keyed_opt (A := Trip.t Time Frequency) Trip.Id (Trips f) ->
  exec (Ord := Ord1) s path f = Some (f', Returns None) ->
  exec (Ord := Ord2) s path f = Some (f', Returns None).
Proof.
  intros Hk. destruct s; cbn [exec]; try done.
  - unfold returns, parseStops.
    destruct (getFile _ _) as [file|]; [| done].
    destruct (read_stops file f) as [[line [f1 parents]] r]. 
    destruct r as [msg|]; [done |].
    destruct (link_parents (range (MapOrder := Ord1) parents) f1)
      as [f2 r2] eqn:Hl.
    destruct r2 as [msg|]; [done |].
    apply (link_parents_perm _ (range (MapOrder := Ord2) parents)) in Hl;
      [| apply range_any_order | apply range_NoDup].
    by rewrite Hl.
  - unfold checkShapes.
    destruct (check_shapes ((range (MapOrder := Ord1) (Shapes f)).*1) f)
      as [[f1 [[e|]|p]]|] eqn:Hc; try done.
    + destruct (DryRun _); intros ?; simplify_eq.
    + apply (check_shapes_perm _
               ((range (MapOrder := Ord2) (Shapes f)).*1)) in Hc;
        [| apply fmap_Permutation, range_any_order].
      by rewrite Hc.
  - unfold checkStopTimes. intros Hc.
    apply (check_trips_perm _ ((range (MapOrder := Ord2) (Trips f)).*1))
      in Hc; [done | apply fmap_Permutation, range_any_order | done].
Qed.

Lemma run_stages_any_order (Ord1 Ord2 : MapOrder) path l r r' :
  keyed_opt (A := Trip.t Time Frequency) Trip.Id (Trips (feed_of r)) ->
  run_stages (Ord := Ord1) path l r = Some r' ->
  status r' = Returns None ->
  run_stages (Ord := Ord2) path l r = Some r'.
Proof.
  revert r. induction l as [|s l IH]; intros r Hk Hrun Hok; [done |].
  rewrite run_stages_cons in Hrun. rewrite run_stages_cons.
  destruct (guarded (Ord := Ord1) s path r) as [r1|] eqn:Hg; [| done].
  simpl in Hrun.
  destruct (run_stages_success _ _ _ _ Hrun Hok) as (Hok1 & _ & _).
  unfold guarded in *.
  destruct (status r) as [[e|]|p] eqn:Hst; try (simplify_eq; congruence).
  destruct (exec (Ord := Ord1) s path (feed_of r)) as [[f o]|] eqn:Hex;
    [| done].
  simplify_eq. simpl in Hok1. subst o.
  rewrite (exec_any_order Ord1 Ord2 s path (feed_of r) f Hk Hex). simpl.
  apply IH; [| done | done]. simpl.
  apply exec_touches in Hex. revert Hex Hk.
  apply (rtc_touches_inv
           (fun g => keyed_opt (A := Trip.t Time Frequency) Trip.Id
                       (Trips g))).
  intros a b Hab Ha. destruct Hab; try done; simpl.
  - apply keyed_opt_insert; [| done]. by intros x ?; simplify_eq.
  - by apply keyed_opt_update.
  - apply keyed_opt_insert; [| done]. intros x ?; simplify_eq.
    by apply (Ha id t).
  - by apply keyed_opt_insert.
Qed.

End MapOrderFacts.


(** ** How a parse ends *)

Section Outcomes.
Context `{Ent : Entities} `{Mat : !Materializers} `{Ord : !MapOrder}.
Implicit Types (feed f : Feed) (path : location) (s : stage).

Lemma check_shapes_outcome todo f f' o :
  check_shapes todo f = Some (f', o) ->
  match o with
  | Returns None => True
  | Returns (Some e) => exists ce, e = CheckFailed ce
  | Panics p => p = NilDereference
  end.
Proof.
  revert f. induction todo as [|id todo IH]; intros f H; simpl in H.
  - by simplify_eq.
  - destruct (Shapes f !! id) as [[shape|]|];
      [| by simplify_eq | by eapply IH].
    destruct (checkShapeMeasure _ _) as [[shape' o']|] eqn:Hc; [| done].
    destruct (checkShapeMeasure_returns _ _ _ _ Hc) as [e ->].
    destruct e as [e|]; [simplify_eq; eauto | by eapply IH].
Qed.

Lemma check_trips_outcome todo f f' o :
  check_trips todo f = Some (f', o) ->
  match o with
  | Returns None => True
  | Returns (Some e) => exists ce, e = CheckFailed ce
  | Panics p => p = NilDereference \/ DropErroneous (opts f) = true
  end.
Proof.
  revert f. induction todo as [|id todo IH]; intros f H; simpl in H.
  - by simplify_eq.
  - destruct (Trips f !! id) as [[t|]|];
      [| simplify_eq; by left | by eapply IH].
    destruct (checkStopTimeMeasure _ _) as [[t' [[e|]|p]]|] eqn:Hc;
      [simplify_eq; eauto | | | done].
    + cbn [opts set_Trips] in H.
      destruct (DryRun (opts f)); apply IH in H; by destruct o as [[e|]|p].
    + simplify_eq. right.
      by apply checkStopTimeMeasure_panics in Hc as [? _].
Qed.

Lemma recovered_stage_error path s name (fl : file) line r e :
  stage_file s = Some name -> getFile path name = Some fl ->
  recovered name line r = Some e -> stage_error path s e.
Proof.
  intros Hs Hfile Hr. unfold stage_error. rewrite Hs. right.
  destruct r as [msg|]; simpl in Hr; simplify_eq. eauto.
Qed.

Lemma required_stage_error path s name :
  stage_file s = Some name -> getFile path name = None ->
  name ∈ required_files ->
  stage_error path s
    (ErrorString ("Could not open required file " +:+ name)).
Proof. intros Hs Hfile Hin. unfold stage_error. rewrite Hs. by left. Qed.

Local Ltac reading_stage stage H :=
  unfold stage in H;
  match type of H with
  | context [getFile ?p ?n] =>
      let Hfile := fresh "Hfile" in
      destruct (getFile p n) as [fl|] eqn:Hfile;
      [ destruct (records _ _ _ _) as [[line g] r];
        simplify_eq; cbn [fst snd];
        match goal with
        | |- context [recovered ?a ?b ?c] =>
            let Hr := fresh "Hr" in
            destruct (recovered a b c) as [e|] eqn:Hr;
            [by eapply recovered_stage_error | done]
        end
      | simplify_eq; cbn [fst snd];
        first [ done
              | by apply (required_stage_error p _ n);
                  [reflexivity | done | by repeat constructor] ] ]
  end.

Lemma exec_outcome s path f f' o :
  exec s path f = Some (f', o) ->
  match o with
  | Returns None => True
  | Returns (Some e) => stage_error path s e
  | Panics p =>
      (s = StShapeCheck /\ p = NilDereference) \/
      (s = StStopTimeCheck /\
       (p = NilDereference \/ DropErroneous (opts f) = true))
  end.
Proof.
  destruct s; cbn [exec]; unfold returns; intros H.
  - reading_stage @parseAgencies H.
  - reading_stage @parseFeedInfos H.
  - unfold parseStops in H.
    destruct (getFile path "stops.txt") as [fl|] eqn:Hfile.
    + destruct (read_stops _ _) as [[line [g parents]] r].
      destruct r as [msg|].
      * simplify_eq. cbn [fst snd recovered].
        by eapply (recovered_stage_error path StStops "stops.txt" fl line
                     (Some msg)).
      * destruct (link_parents _ _) as [g2 r2]. simplify_eq. cbn [fst snd].
        destruct (recovered "stops.txt" line r2) as [e|] eqn:Hr; [| done].
        by eapply recovered_stage_error.
    + simplify_eq. cbn [fst snd].
      apply (required_stage_error path StStops "stops.txt");
        [reflexivity | done | by repeat constructor].
  - reading_stage @parseShapes H.
  - unfold checkShapes in H.
    destruct (check_shapes _ _) as [[g o']|] eqn:Hc; [| done].
    apply check_shapes_outcome in Hc.
    destruct o' as [e'|p'].
    + destruct (DryRun _); simplify_eq; by destruct e'.
    + simplify_eq. by left.
  - reading_stage @parseRoutes H.
  - reading_stage @parseCalendar H.
  - reading_stage @parseCalendarDates H.
  - reading_stage @parseTrips H.
  - reading_stage @parseStopTimes H.
  - unfold checkStopTimes in H. apply check_trips_outcome in H.
    destruct o as [[e|]|p]; [done | done | by right].
  - reading_stage @parseFareAttributes H.
  - reading_stage @parseFareAttributeRules H.
  - reading_stage @parseFrequencies H.
  - reading_stage @parseTransfers H.
Qed.

Lemma run_stages_outcome path l r0 r :
  status r0 = Returns None ->
  run_stages path l r0 = Some r ->
  match status r with
  | Returns None => entered r = entered r0 ++ l
  | Returns (Some e) =>
      exists s, last (entered r) = Some s /\ stage_error path s e
  | Panics p =>
      (last (entered r) = Some StShapeCheck /\ p = NilDereference) \/
      (last (entered r) = Some StStopTimeCheck /\
       (p = NilDereference \/ DropErroneous (opts (feed_of r0)) = true))
  end.
Proof.
  revert r0. induction l as [|s l IH]; intros r0 Hst Hrun.
  - unfold run_stages in Hrun. simpl in Hrun. simplify_eq.
    by rewrite Hst, app_nil_r.
  - rewrite run_stages_cons in Hrun.
    destruct (guarded s path r0) as [r1|] eqn:Hg; [| done]. simpl in Hrun.
    unfold guarded in Hg. rewrite Hst in Hg.
    destruct (exec s path (feed_of r0)) as [[f o]|] eqn:Hex; [| done].
    simplify_eq.
    pose proof (exec_outcome _ _ _ _ _ Hex) as Ho.
    destruct o as [[e|]|p].
    + rewrite run_stages_skip in Hrun by done. simplify_eq. simpl.
      exists s. by rewrite last_snoc.
    + apply IH in Hrun; [| done]. simpl in Hrun.
      rewrite (exec_opts _ _ _ _ _ Hex) in Hrun.
      destruct (status r) as [[e|]|p]; [done | | done].
      by rewrite Hrun, <- app_assoc.
    + rewrite run_stages_skip in Hrun by done. simplify_eq. simpl.
      rewrite last_snoc.
      destruct Ho as [[-> ->] | [-> Hp]]; [by left | by right].
Qed.

(** X26: every way [Parse] can end is that of the last stage it entered.
    When it returns nil, it has entered all the stages, in their order.
    When it returns an error, the error is one of that stage: for a reading
    stage, the error of a required file that could not be opened, or a parse
    error that names the file of the stage; for a check, the error of the
    check.  And it panics only in the two checks: in the shape check on a nil
    shape only, in the stop-time check on a nil trip or with drop_erroneous
    set. *)
Theorem parse_ends_with_its_last_stage
    (path : location) (feed : Feed) :
  exists r : run,
    Parse path feed = Some r /\
    match status r with
    | Returns None => entered r = stage_order
    | Returns (Some e) =>
        exists s, last (entered r) = Some s /\ stage_error path s e
    | Panics p =>
        (last (entered r) = Some StShapeCheck /\ p = NilDereference) \/
        (last (entered r) = Some StStopTimeCheck /\
         (p = NilDereference \/ DropErroneous (opts feed) = true))
    end.
Proof.
  destruct (Parse_total path feed) as [r Hr]. exists r. split; [done |].
  rewrite Parse_run_stages in Hr.
  by apply run_stages_outcome in Hr.
Qed.
End Outcomes.

(** ** Empty input *)

Section EmptyInput.
Context `{Ent : Entities} `{Mat : !Materializers} `{Ord : !MapOrder}.
Implicit Types (feed f : Feed) (path : location) (s : stage).

Lemma range_empty {A : Type} : range (∅ : gmap string A) = [].
Proof.
  apply Permutation_nil_r. rewrite range_perm. by rewrite map_to_list_empty.
Qed.

Lemma set_Shapes_id f : set_Shapes f (Shapes f) = f.
Proof. by destruct f. Qed.

(** X27: an empty parent_station is no parent.  When no record of
    stops.txt names a parent station, or names the empty one, the first loop
    of the stop stage keeps no parent id, the linking loop has nothing to do,
    and the stage ends as the first loop does: with its feed and with the
    parse error of its panic, if any. *)
Theorem empty_parent_station_is_no_parent
    (path : location) (feed : Feed) (fl : file) :
  getFile path "stops.txt" = Some fl ->
  (forall rec,
     Row rec ∈ fl ->
     rec !! "parent_station" = None \/ rec !! "parent_station" = Some "") ->
  exists (line : Z) (f1 : Feed) (r : option string),
    read_stops fl feed = (line, (f1, ∅), r) /\
    parseStops path feed = (f1, recovered "stops.txt" line r).
Proof.
  intros Hfile Hrows.
  destruct (read_stops fl feed) as [[line [f1 parents]] r] eqn:Hread.
  assert (parents = ∅) as ->.
  { unfold read_stops in Hread.
    change parents with (snd (f1, parents)). revert Hread.
    apply (records_inv_in
             (fun st : Feed * gmap string string => snd st = ∅)); [| done].
    intros rec [f0 ps] Hin Hps. simpl in Hps. subst ps.
    destruct (createStop rec (opts f0)) as [stop|msg].
    - simpl. by destruct (Hrows rec Hin) as [-> | ->].
    - by destruct (DropErroneous _). }
  exists line, f1, r. split; [done |].
  unfold parseStops. rewrite Hfile, Hread.
  destruct r as [msg|]; [done |]. by rewrite range_empty.
Qed.

(** Over files without records, on a feed without shapes and trips, every
    stage returns nil and leaves the feed as it is. *)
Lemma exec_header_only s path f :
  (forall name, name ∈ required_files -> getFile path name = Some []) ->
  (forall name fl, getFile path name = Some fl -> fl = []) ->
  Shapes f = ∅ -> Trips f = ∅ ->
  exec s path f = Some (f, Returns None).
Proof.
  intros Hreq Hempty Hshapes Htrips.
  assert (forall name,
            getFile path name = None \/ getFile path name = Some [])
    as Hfile.
  { intros name. destruct (getFile path name) as [fl|] eqn:E; [| by left].
    right. by rewrite (Hempty name fl E). }
  destruct s; cbn [exec]; unfold returns.
  - unfold parseAgencies. by rewrite (Hreq "agency.txt") by by repeat constructor.
  - unfold parseFeedInfos. by destruct (Hfile "feed_info.txt") as [-> | ->].
  - unfold parseStops. rewrite (Hreq "stops.txt") by by repeat constructor.
    simpl. by rewrite range_empty.
  - unfold parseShapes. by destruct (Hfile "shapes.txt") as [-> | ->].
  - unfold checkShapes. rewrite Hshapes, range_empty. simpl.
    destruct (DryRun (opts f)); [| done].
    by rewrite Hshapes, fmap_empty, <- Hshapes, set_Shapes_id.
  - unfold parseRoutes. by rewrite (Hreq "routes.txt") by by repeat constructor.
  - unfold parseCalendar. by destruct (Hfile "calendar.txt") as [-> | ->].
  - unfold parseCalendarDates.
    by destruct (Hfile "calendar_dates.txt") as [-> | ->].
  - unfold parseTrips. by rewrite (Hreq "trips.txt") by by repeat constructor.
  - unfold parseStopTimes.
    by rewrite (Hreq "stop_times.txt") by by repeat constructor.
  - unfold checkStopTimes. by rewrite Htrips, range_empty.
  - unfold parseFareAttributes.
    by destruct (Hfile "fare_attributes.txt") as [-> | ->].
  - unfold parseFareAttributeRules.
    by destruct (Hfile "fare_rules.txt") as [-> | ->].
  - unfold parseFrequencies.
    by destruct (Hfile "frequencies.txt") as [-> | ->].
  - unfold parseTransfers. by destruct (Hfile "transfers.txt") as [-> | ->].
Qed.

(** X28: a feed of files without records parses to nothing.  When the five
    required files are there and no file of the location holds a record,
    [Parse], on a feed without shapes and trips (as a new feed), enters
    every stage, returns nil and leaves the feed exactly as it was. *)
Theorem files_without_records_leave_the_feed_as_it_is
    (path : location) (feed : Feed) :
  (forall name, name ∈ required_files -> getFile path name = Some []) ->
  (forall name fl, getFile path name = Some fl -> fl = []) ->
  Shapes feed = ∅ -> Trips feed = ∅ ->
  Parse path feed = Some (Run feed (Returns None) stage_order).
Proof.
  intros Hreq Hempty Hshapes Htrips. rewrite Parse_run_stages.
  assert (forall l ent,
            run_stages path l (Run feed (Returns None) ent)
            = Some (Run feed (Returns None) (ent ++ l))) as Hrun.
  { induction l as [|s l IH]; intros ent.
    - by rewrite app_nil_r.
    - rewrite run_stages_cons.
      rewrite (guarded_exec s path _ feed (Returns None));
        [| done | by apply exec_header_only].
      simpl. by rewrite IH, <- app_assoc. }
  apply Hrun.
Qed.
End EmptyInput.

(** X27 at a stops.txt whose stop A has an empty parent_station. *)
Lemma empty_parent_station_witness :
  exists (line : Z) (f1 : Feed) (r : option string),
    read_stops [row [("stop_id", "A"); ("parent_station", "")]]
      (feed_with (flags false false false)) = (line, (f1, ∅), r) /\
    parseStops
      (with_file "stops.txt" [row [("stop_id", "A"); ("parent_station", "")]])
      (feed_with (flags false false false))
    = (f1, recovered "stops.txt" line r).
Proof.
  apply (empty_parent_station_is_no_parent
           (with_file "stops.txt"
              [row [("stop_id", "A"); ("parent_station", "")]])
           (feed_with (flags false false false))
           [row [("stop_id", "A"); ("parent_station", "")]]).
  - reflexivity.
  - intros rec Hin. apply list_elem_of_singleton in Hin.
    injection Hin as ->. right. reflexivity.
Defined.

(** X28 at the directory of the five required files, each without a
    record. *)
Lemma files_without_records_witness :
  Parse (Directory bare_files) (feed_with (flags false false false))
  = Some (Run (feed_with (flags false false false)) (Returns None)
            stage_order).
Proof.
  apply (files_without_records_leave_the_feed_as_it_is
           (Directory bare_files) (feed_with (flags false false false))).
  - intros name Hin. unfold required_files in Hin.
    repeat (apply elem_of_cons in Hin as [-> | Hin]; [reflexivity |]).
    apply elem_of_nil in Hin. destruct Hin.
  - intros name fl Hfl. simpl in Hfl. unfold bare_files in Hfl.
    apply elem_of_list_to_map_2 in Hfl.
    repeat (apply elem_of_cons in Hfl as [Heq | Hfl];
            [injection Heq as _ ->; reflexivity |]).
    apply elem_of_nil in Hfl. destruct Hfl.
  - reflexivity.
  - reflexivity.
Defined.
